(** * Sink: linking Google contacts to Facebook friends and syncing photos

    A shallow embedding of the [Sink] class of [sink.py] and the proofs of
    the properties its specification states about it.

    Python objects are modelled as follows.
    - [str] is [string], the bytes of its UTF-8 encoding: comparison of
      [str], which is by code points, is comparison of these bytes, and the
      number of characters is the number of bytes that begin one.
      [str.isdigit] and [int] are modelled on ASCII strings, where
      [isdigit] is the test for the characters 0 to 9: the statement of
      which lines end [_get_link] assumes that the lines typed are ASCII.
    - A [dict] whose order is observed ([self.links], [self.contacts],
      [self.friends]: they are iterated or handed to the matcher) is an
      association list in insertion order; a Python dict has no two equal
      keys, which is the [NoDup] of its keys.  A [dict] that is only ever
      indexed ([self.checksums], [self.timestamps]) is a [gmap].
    - [None] is the [None] of an [option].
    - A method of [Sink] is a function of the state of the object that
      returns the new state and either a value or the exception raised.
    - The two providers, the clock, the matcher, the collator and the hash
      are outside the class; they are the fields of [Providers]. *)

From Stdlib Require Import ZArith Ascii String Permutation.
From Stdlib Require OrderedTypeEx.
From stdpp Require Import base option list gmap strings pretty.

Local Open Scope string_scope.
Local Open Scope list_scope.

(** ** Data *)

Abbreviation ContactUrl := string (only parsing).
Abbreviation FriendUrl := string (only parsing).
Abbreviation UserId := string (only parsing).
Abbreviation Name := string (only parsing).
Abbreviation Checksum := string (only parsing).
(** The bytes of a downloaded picture. *)
Abbreviation Picture := (list Byte.byte) (only parsing).
(** A [datetime], in microseconds since [datetime.min], the first instant
    of the year 1. *)
Abbreviation Time := Z (only parsing).

(** [timedelta(days=1)] in microseconds. *)
Definition DAY : Z := 86400000000.

(** [datetime.max], the last microsecond of the year 9999: the ordinal of
    its day is 3652059. *)
Definition DATETIME_MAX : Z := 3652059 * DAY - 1.

(** The largest number of days of a [timedelta], in size. *)
Definition TIMEDELTA_MAX_DAYS : Z := 999999999.

(** The largest delay in seconds, in size, that [time.sleep] converts to
    its clock of 64 bits of nanoseconds. *)
Definition SLEEP_MAX : Z := 9223372036.

(** The exceptions that the methods modelled here can raise. *)
Inductive exn : Type :=
| StopIteration (message : string)
| KeyError (key : string)
| IndexError
| TypeError
| ValueError
| EOFError
| OverflowError
| OSError.

Inductive outcome (A : Type) : Type :=
| Return (a : A)
| Raise (e : exn).
Arguments Return {A} a.
Arguments Raise {A} e.

(** Computations that may raise but touch no state. *)
Definition outcome_bind {A B} (m : outcome A) (k : A -> outcome B) : outcome B :=
match m with
| Return a => k a
| Raise e => Raise e
end.

(** ** Ordered dictionaries *)

Module Dict.
Section Dict.
Context {V : Type}.

(** [d.get(k)] *)
Fixpoint get (k : string) (d : list (string * V)) : option V :=
match d with
| [] => None
| (k', v) :: d' => if String.eqb k k' then Some v else get k d'
end.

(** [k in d] *)
Definition mem (k : string) (d : list (string * V)) : bool :=
match get k d with Some _ => true | None => false end.

(** [d[k] = v]: an existing key keeps its place, a new key goes last. *)
Fixpoint set (k : string) (v : V) (d : list (string * V)) : list (string * V) :=
match d with
| [] => [(k, v)]
| (k', v') :: d' =>
    if String.eqb k k' then (k, v) :: d' else (k', v') :: set k v d'
end.

(** [del d[k]], for a key that is present. *)
Fixpoint del (k : string) (d : list (string * V)) : list (string * V) :=
match d with
| [] => []
| (k', v') :: d' =>
    if String.eqb k k' then d' else (k', v') :: del k d'
end.

(** [list(d.keys())] *)
Definition keys (d : list (string * V)) : list string := map fst d.

End Dict.
End Dict.

(** ** Strings *)

Definition is_digit_char (c : ascii) : bool :=
(48 <=? nat_of_ascii c)%nat && (nat_of_ascii c <=? 57)%nat.

Fixpoint all_digits (s : string) : bool :=
match s with
| EmptyString => true
| String c s' => is_digit_char c && all_digits s'
end.

(** [s.isdigit()], for an ASCII string [s]. *)
Definition isdigit (s : string) : bool :=
negb (String.eqb s "") && all_digits s.

(** Every character of [s] is an ASCII one: a byte below 128. *)
Fixpoint ascii_only (s : string) : bool :=
match s with
| EmptyString => true
| String c s' => (nat_of_ascii c <? 128)%nat && ascii_only s'
end.

Fixpoint int_from (acc : Z) (s : string) : Z :=
match s with
| EmptyString => acc
| String c s' => int_from (10 * acc + (Z.of_nat (nat_of_ascii c) - 48))%Z s'
end.

(** [int(s)], for a string of digits. *)
Definition int (s : string) : Z := int_from 0%Z s.

(** [not x], for [x] a string or [None]. *)
Definition falsy (x : option string) : bool :=
match x with
| None => true
| Some s => String.eqb s ""
end.

(** ** The world outside the class *)

Record Providers : Type := {
  (** The state of everything outside the process: both services, the
      network, the clock. *)
  World : Type;
  (** [Facebook.get_user_id] *)
  facebook_get_user_id : FriendUrl -> World -> option UserId * World;
  (** [Facebook.get_profile_picture] followed by reading the file it
      downloaded; [None] for a silhouette. *)
  facebook_get_profile_picture : UserId -> World -> option Picture * World;
  (** [GoogleContacts.update_photo]: [true] when the call returns, [false]
      when it raises an [Exception]. *)
  google_update_photo : ContactUrl -> Picture -> World -> bool * World;
  (** [datetime.now()] *)
  datetime_now : World -> Time * World;
  (** [time.sleep], once Python has taken the delay: what the system makes
      of it.  [true] when it sleeps that long, [false] when it refuses the
      delay, which is an [OSError]. *)
  time_sleep : Z -> World -> bool * World;
  (** [hashlib.md5(...).hexdigest()] *)
  md5_hexdigest : Picture -> Checksum;
  (** [COLLATOR.getSortKey]; the key is a byte string. *)
  getSortKey : Name -> string;
  (** [process.extract(name, friends, scorer=fuzz.UWRatio, limit=...)]:
      triples of friend name, score and friend url, best first. *)
  process_extract :
    Name -> list (FriendUrl * Name) -> Z -> list (Name * Z * FriendUrl);
  (** [multiprocessing.cpu_count()] *)
  cpu_count : nat;
}.

(** The calls that leave the process, in the order they are made. *)
Inductive Call : Type :=
| CallGetUserId (friend_url : FriendUrl)
| CallGetProfilePicture (user_id : UserId)
| CallUpdatePhoto (contact_url : ContactUrl) (picture : Picture)
| CallNow
| CallSleep (delay : Z).

(** The shelf: a key is absent until it is first written.  Assigning to a
    key of a shelf pickles the value, so the shelf holds a copy. *)
Record Shelf : Type := {
  shelf_links : option (list (ContactUrl * option FriendUrl));
  shelf_checksums : option (gmap string Checksum);
  shelf_timestamps : option (gmap string Time);
}.

(** ** [sorted] on the items of [self.links]

    The key of an item is the pair of the collation key of the name of the
    contact and the friend url.  [sorted] first computes every key, then
    sorts, and it is stable; the sort is modelled by insertion.  Pairs are
    compared as Python compares tuples: by the first components when they
    differ, else by the second ones, and [None] cannot be compared with a
    [str]. *)

Definition sort_key_lt (a b : string * option FriendUrl) : outcome bool :=
if String.eqb (fst a) (fst b) then
  match snd a, snd b with
  | None, None => Return false
  | Some x, Some y => Return (String.ltb x y)
  | _, _ => Raise TypeError
  end
else Return (String.ltb (fst a) (fst b)).

Section Sorted.
Context {A : Type}.
Abbreviation decorated := (list ((string * option FriendUrl) * A)).

Fixpoint insert_sorted (x : (string * option FriendUrl) * A) (l : decorated)
  : outcome decorated :=
match l with
| [] => Return [x]
| y :: l' =>
    outcome_bind (sort_key_lt (fst y) (fst x)) (fun lt =>
      if lt : bool then outcome_bind (insert_sorted x l') (fun r => Return (y :: r))
      else Return (x :: y :: l'))
end.

Fixpoint sort_decorated (l : decorated) : outcome decorated :=
match l with
| [] => Return []
| x :: l' => outcome_bind (sort_decorated l') (insert_sorted x)
end.

Fixpoint decorate (key : A -> outcome (string * option FriendUrl)) (l : list A)
  : outcome decorated :=
match l with
| [] => Return []
| x :: l' =>
    outcome_bind (key x) (fun k =>
      outcome_bind (decorate key l') (fun r => Return ((k, x) :: r)))
end.

(** [sorted(l, key=key)] *)
Definition sorted (key : A -> outcome (string * option FriendUrl)) (l : list A)
  : outcome (list A) :=
outcome_bind (decorate key l) (fun d =>
  outcome_bind (sort_decorated d) (fun s => Return (map snd s))).

End Sorted.

(** ** The monad of methods

    A method runs on the state of the object; it returns a value or raises,
    and what it did to the state before raising stays done. *)

Definition Py (S A : Type) : Type := S -> outcome A * S.

Definition ret {S A} (a : A) : Py S A := fun st => (Return a, st).

Definition raise {S A} (e : exn) : Py S A := fun st => (Raise e, st).

Definition bind {S A B} (m : Py S A) (k : A -> Py S B) : Py S B :=
fun st =>
  match m st with
  | (Return a, st') => k a st'
  | (Raise e, st') => (Raise e, st')
  end.

Definition get_state {S} : Py S S := fun st => (Return st, st).

Definition modify {S} (f : S -> S) : Py S unit := fun st => (Return tt, f st).

Declare Scope py_scope.
Delimit Scope py_scope with py.
Notation "x <- m ;; k" := (bind m (fun x => k))
  (at level 100, m at next level, right associativity) : py_scope.
Notation "m ;; k" := (bind m (fun _ => k))
  (at level 100, right associativity) : py_scope.
Local Open Scope py_scope.

(** ** The class [Sink] *)

Section Sink.
Context {P : Providers}.

(** The attributes of a [Sink], with the terminal and the world. *)
Record Sink : Type := {
  contacts : list (ContactUrl * Name);
  friends : list (FriendUrl * Name);
  links : list (ContactUrl * option FriendUrl);
  checksums : gmap string Checksum;
  timestamps : gmap string Time;
  shelf : Shelf;
  (** what was written to the terminal, one entry for each [print] or prompt *)
  stdout : list string;
  (** the lines the operator is going to type *)
  stdin : list string;
  calls : list Call;
  world : World P;
}.

Definition with_links (l : list (ContactUrl * option FriendUrl)) (st : Sink) : Sink :=
{| contacts := contacts st; friends := friends st; links := l;
   checksums := checksums st; timestamps := timestamps st; shelf := shelf st;
   stdout := stdout st; stdin := stdin st; calls := calls st; world := world st |}.

Definition with_checksums (c : gmap string Checksum) (st : Sink) : Sink :=
{| contacts := contacts st; friends := friends st; links := links st;
   checksums := c; timestamps := timestamps st; shelf := shelf st;
   stdout := stdout st; stdin := stdin st; calls := calls st; world := world st |}.

Definition with_timestamps (t : gmap string Time) (st : Sink) : Sink :=
{| contacts := contacts st; friends := friends st; links := links st;
   checksums := checksums st; timestamps := t; shelf := shelf st;
   stdout := stdout st; stdin := stdin st; calls := calls st; world := world st |}.

Definition with_shelf (s : Shelf) (st : Sink) : Sink :=
{| contacts := contacts st; friends := friends st; links := links st;
   checksums := checksums st; timestamps := timestamps st; shelf := s;
   stdout := stdout st; stdin := stdin st; calls := calls st; world := world st |}.

Definition with_stdout (o : list string) (st : Sink) : Sink :=
{| contacts := contacts st; friends := friends st; links := links st;
   checksums := checksums st; timestamps := timestamps st; shelf := shelf st;
   stdout := o; stdin := stdin st; calls := calls st; world := world st |}.

Definition with_stdin (i : list string) (st : Sink) : Sink :=
{| contacts := contacts st; friends := friends st; links := links st;
   checksums := checksums st; timestamps := timestamps st; shelf := shelf st;
   stdout := stdout st; stdin := i; calls := calls st; world := world st |}.

(** One call to the outside: it is logged and the world moves on. *)
Definition with_call (c : Call) (w : World P) (st : Sink) : Sink :=
{| contacts := contacts st; friends := friends st; links := links st;
   checksums := checksums st; timestamps := timestamps st; shelf := shelf st;
   stdout := stdout st; stdin := stdin st; calls := calls st ++ [c]; world := w |}.

(** [print(s)] *)
Definition print (s : string) : Py Sink unit :=
modify (fun st => with_stdout (stdout st ++ [s]) st).

(** [input(prompt)] *)
Definition input (prompt : string) : Py Sink string :=
print prompt ;;
st <- get_state ;;
match stdin st with
| [] => raise EOFError
| line :: rest => modify (with_stdin rest) ;; ret line
end.

(** [self.contacts[contact_url]] *)
Definition contacts_getitem (contact_url : ContactUrl) : Py Sink Name :=
st <- get_state ;;
match Dict.get contact_url (contacts st) with
| Some name => ret name
| None => raise (KeyError contact_url)
end.

(** [self.friends[friend_url]] *)
Definition friends_getitem (friend_url : FriendUrl) : Py Sink Name :=
st <- get_state ;;
match Dict.get friend_url (friends st) with
| Some name => ret name
| None => raise (KeyError friend_url)
end.

(** [self.links[contact_url]] *)
Definition links_getitem (contact_url : ContactUrl) : Py Sink (option FriendUrl) :=
st <- get_state ;;
match Dict.get contact_url (links st) with
| Some friend_url => ret friend_url
| None => raise (KeyError contact_url)
end.

(** [del self.links[contact_url]] *)
Definition links_delitem (contact_url : ContactUrl) : Py Sink unit :=
st <- get_state ;;
if Dict.mem contact_url (links st)
then modify (with_links (Dict.del contact_url (links st)))
else raise (KeyError contact_url).

(** *** Calls to the outside *)

Definition get_user_id (friend_url : FriendUrl) : Py Sink (option UserId) :=
fun st =>
  let (r, w) := facebook_get_user_id P friend_url (world st) in
  (Return r, with_call (CallGetUserId friend_url) w st).

Definition get_profile_picture (user_id : UserId) : Py Sink (option Picture) :=
fun st =>
  let (r, w) := facebook_get_profile_picture P user_id (world st) in
  (Return r, with_call (CallGetProfilePicture user_id) w st).

Definition update_photo (contact_url : ContactUrl) (picture : Picture) : Py Sink bool :=
fun st =>
  let (r, w) := google_update_photo P contact_url picture (world st) in
  (Return r, with_call (CallUpdatePhoto contact_url picture) w st).

Definition now : Py Sink Time :=
fun st =>
  let (r, w) := datetime_now P (world st) in
  (Return r, with_call CallNow w st).

(** [time.sleep(delay)]: the delay is first converted to nanoseconds, which
    is an [OverflowError] when it is too large in size, whatever its sign;
    then a negative delay is a [ValueError]; and then the system sleeps, or
    refuses. *)
Definition sleep (delay : Z) : Py Sink unit :=
if (SLEEP_MAX <? Z.abs delay)%Z then raise OverflowError
else if (delay <? 0)%Z then raise ValueError
else
  fun st =>
    let (ok, w) := time_sleep P delay (world st) in
    (if ok : bool then Return tt else Raise OSError, with_call (CallSleep delay) w st).

(** *** The shelf *)

Definition shelf_set_links (l : list (ContactUrl * option FriendUrl)) (s : Shelf) : Shelf :=
{| shelf_links := Some l; shelf_checksums := shelf_checksums s;
   shelf_timestamps := shelf_timestamps s |}.

Definition shelf_set_checksums (c : gmap string Checksum) (s : Shelf) : Shelf :=
{| shelf_links := shelf_links s; shelf_checksums := Some c;
   shelf_timestamps := shelf_timestamps s |}.

Definition shelf_set_timestamps (t : gmap string Time) (s : Shelf) : Shelf :=
{| shelf_links := shelf_links s; shelf_checksums := shelf_checksums s;
   shelf_timestamps := Some t |}.

(** *** Links *)

(** The key function of the two [sorted] calls on [self.links.items()]. *)
Definition links_sort_key (cs : list (ContactUrl * Name))
  (kv : ContactUrl * option FriendUrl) : outcome (string * option FriendUrl) :=
match Dict.get (fst kv) cs with
| Some name => Return (getSortKey P name, snd kv)
| None => Raise (KeyError (fst kv))
end.

Definition _save_links : Py Sink unit :=
st <- get_state ;;
match sorted (links_sort_key (contacts st)) (links st) with
| Raise e => raise e
| Return l =>
    modify (with_links l) ;;
    modify (fun st => with_shelf (shelf_set_links (links st) (shelf st)) st)
end.

Definition _print_link (contact_url : ContactUrl) (prefix : string) : Py Sink unit :=
friend_url <- links_getitem contact_url ;;
match friend_url with
| None =>
    name <- contacts_getitem contact_url ;;
    print (prefix +:+ name +:+ " IGNORED")
| Some friend_url =>
    name <- contacts_getitem contact_url ;;
    friend <- friends_getitem friend_url ;;
    print (prefix +:+ name +:+ " <- " +:+ friend)
end.

Definition _add_link (contact_url : ContactUrl) (friend_url : option FriendUrl)
  : Py Sink unit :=
modify (fun st => with_links (Dict.set contact_url friend_url (links st)) st) ;;
_save_links ;;
_print_link contact_url "".

Definition _delete_links : Py Sink unit :=
print "Deleting links..." ;;
modify (with_links []) ;;
_save_links.

(** The test of [_clean_links] on an item of [self.links]: the contact is
    gone, or the friend it is linked to is. *)
Definition is_stale (st : Sink) (contact_url : ContactUrl) (friend_url : option FriendUrl)
  : bool :=
negb (Dict.mem contact_url (contacts st))
|| match friend_url with
   | None => false
   | Some friend_url => negb (Dict.mem friend_url (friends st))
   end.

(** The body of the loop of [_clean_links], for one key of the snapshot
    [list(self.links.keys())]. *)
Definition _clean_link (contact_url : ContactUrl) : Py Sink unit :=
st <- get_state ;;
stale <-
  (if negb (Dict.mem contact_url (contacts st)) then ret true
   else
     friend_url <- links_getitem contact_url ;;
     match friend_url with
     | None => ret false
     | Some friend_url => ret (negb (Dict.mem friend_url (friends st)))
     end) ;;
if stale : bool then
  links_delitem contact_url ;;
  modify (fun st =>
    if decide (is_Some (checksums st !! contact_url))
    then with_checksums (delete contact_url (checksums st)) st else st) ;;
  modify (fun st =>
    if decide (is_Some (timestamps st !! contact_url))
    then with_timestamps (delete contact_url (timestamps st)) st else st)
else ret tt.

Fixpoint _clean_links_loop (keys : list ContactUrl) : Py Sink unit :=
match keys with
| [] => ret tt
| contact_url :: keys' => _clean_link contact_url ;; _clean_links_loop keys'
end.

Definition _clean_links : Py Sink unit :=
st <- get_state ;;
_clean_links_loop (Dict.keys (links st)).

Definition _get_matches (name : Name) (match_limit : Z)
  : Py Sink (list (Name * Z * FriendUrl)) :=
st <- get_state ;;
ret (process_extract P name (friends st) match_limit).

(** [matches and matches[0][1] == score_threshold]; when it holds,
    [matches[0][2]]. *)
Definition top_match (matches : list (Name * Z * FriendUrl)) (score_threshold : Z)
  : option FriendUrl :=
match matches with
| (_, score, friend_url) :: _ =>
    if (score =? score_threshold)%Z then Some friend_url else None
| [] => None
end.

(** The loop over [enumerate(matches)] in [_get_link], from index [i]. *)
Fixpoint print_matches (i : Z) (matches : list (Name * Z * FriendUrl)) : Py Sink unit :=
match matches with
| [] => ret tt
| (name, score, friend_url) :: matches' =>
    print ("  " +:+ pretty (i + 1)%Z +:+ ". " +:+ name +:+ " (" +:+ pretty score
           +:+ ") >> " +:+ friend_url) ;;
    print_matches (i + 1)%Z matches'
end.

(** The head of one round of the outer loop of [_get_link]: the search for
    [name], then either the automatic link or the list of matches and the
    prompt. *)
Definition _get_link_search (contact_url : ContactUrl) (score_threshold match_limit : Z)
  (auto_match : bool) (name : Name)
  (prompt : list (Name * Z * FriendUrl) -> Py Sink unit) : Py Sink unit :=
matches <- _get_matches name match_limit ;;
match (if auto_match then top_match matches score_threshold else None) with
| Some friend_url => _add_link contact_url (Some friend_url)
| None => print_matches 0 matches ;; prompt matches
end.

(** The test that leaves the inner loop of [_get_link]:
    [not command.isdigit() or (int(command) > 0 and int(command) <= match_limit)] *)
Definition accepted (match_limit : Z) (command : string) : bool :=
negb (isdigit command) || ((0 <? int command)%Z && (int command <=? match_limit)%Z).

(** [_get_link] from its prompt on, with [matches] on the screen and [inp]
    the lines still to be typed ([stdin], see [input]); a number out of
    range asks again, a name starts the next round. *)
Fixpoint _get_link_prompt (inp : list string) (contact_url : ContactUrl)
  (score_threshold match_limit : Z) (auto_match : bool)
  (matches : list (Name * Z * FriendUrl)) {struct inp} : Py Sink unit :=
match inp with
| [] => print "> " ;; raise EOFError
| command :: rest =>
    print "> " ;;
    modify (with_stdin rest) ;;
    if accepted match_limit command then
      if String.eqb command "" then _add_link contact_url None
      else if isdigit command then
        match nth_error matches (Z.to_nat (int command - 1)) with
        | Some (_, _, friend_url) => _add_link contact_url (Some friend_url)
        | None => raise IndexError
        end
      else
        _get_link_search contact_url score_threshold match_limit auto_match command
          (_get_link_prompt rest contact_url score_threshold match_limit auto_match)
    else
      _get_link_prompt rest contact_url score_threshold match_limit auto_match matches
end.

Definition _get_link (contact_url : ContactUrl) (score_threshold match_limit : Z)
  (auto_match : bool) : Py Sink unit :=
name <- contacts_getitem contact_url ;;
print name ;;
_get_link_search contact_url score_threshold match_limit auto_match name
  (fun matches =>
     st <- get_state ;;
     _get_link_prompt (stdin st) contact_url score_threshold match_limit
       auto_match matches).

Definition NL : string := String (ascii_of_nat 10) "".

Definition UPDATE_INSTRUCTIONS : string :=
"Each unlinked Google contact's name will be displayed along with list of suggested Facebook friends." +:+ NL +:+
"You will be presented with a prompt. There are three options." +:+ NL +:+
"  1. Type the list number of a suggested Facebook friend and press Enter to create a link with that friend." +:+ NL +:+
"  2. Type a name and press Enter to perform another search of Facebook friends." +:+ NL +:+
"     This is helpful if a contact's name does not closely match their Facebook name." +:+ NL +:+
"  3. Press Enter without typing anything to ignore the contact." +:+ NL +:+
"     Sink will ignore this contact during updates.".

(** [contact_url not in self.links or (update_ignored and
    self.links[contact_url] is None)] *)
Definition wants_link (update_ignored : bool) (st : Sink) (contact_url : ContactUrl) : bool :=
match Dict.get contact_url (links st) with
| None => true
| Some friend_url => update_ignored && bool_decide (friend_url = None)
end.

(** The body of the first loop of [_update_links], for one contact. *)
Definition _update_links_auto_one (update_ignored : bool) (score_threshold match_limit : Z)
  (contact_url : ContactUrl) (unlinks : list ContactUrl) : Py Sink (list ContactUrl) :=
st <- get_state ;;
if wants_link update_ignored st contact_url
then
  name <- contacts_getitem contact_url ;;
  matches <- _get_matches name match_limit ;;
  match top_match matches score_threshold with
  | Some friend_url => _add_link contact_url (Some friend_url) ;; ret unlinks
  | None => ret (unlinks ++ [contact_url])
  end
else ret unlinks.

Fixpoint _update_links_auto (update_ignored : bool) (score_threshold match_limit : Z)
  (cs : list ContactUrl) (unlinks : list ContactUrl) : Py Sink (list ContactUrl) :=
match cs with
| [] => ret unlinks
| contact_url :: cs' =>
    unlinks' <- _update_links_auto_one update_ignored score_threshold match_limit
                  contact_url unlinks ;;
    _update_links_auto update_ignored score_threshold match_limit cs' unlinks'
end.

Fixpoint _update_links_interactive (score_threshold match_limit : Z)
  (unlinks : list ContactUrl) : Py Sink unit :=
match unlinks with
| [] => ret tt
| contact_url :: unlinks' =>
    print "" ;;
    _get_link contact_url score_threshold match_limit true ;;
    _update_links_interactive score_threshold match_limit unlinks'
end.

Definition _update_links (update_ignored auto_only : bool)
  (score_threshold match_limit : Z) : Py Sink unit :=
print "Updating links..." ;;
_clean_links ;;
st <- get_state ;;
unlinks <- _update_links_auto update_ignored score_threshold match_limit
             (Dict.keys (contacts st)) [] ;;
if negb auto_only && negb (bool_decide (unlinks = []))
then
  print (NL +:+ UPDATE_INSTRUCTIONS) ;;
  _update_links_interactive score_threshold match_limit unlinks
else ret tt.

(** *** Photos *)

(** [datetime.now()] is read first; then the [timedelta] is made and added
    to the timestamp, and each of the two is an [OverflowError] when its
    result is out of range: more than [TIMEDELTA_MAX_DAYS] days in size, a
    [datetime] before the year 1 or after the year 9999. *)
Definition _should_update (contact_url : ContactUrl) (expiry : Z) : Py Sink bool :=
st <- get_state ;;
match timestamps st !! contact_url with
| None => ret true
| Some timestamp =>
    n <- now ;;
    (* [timedelta(days=expiry)] *)
    if (TIMEDELTA_MAX_DAYS <? Z.abs expiry)%Z then raise OverflowError
    else
      (* [self.timestamps[contact_url] + timedelta(days=expiry)] *)
      let expires := (timestamp + expiry * DAY)%Z in
      if (expires <? 0)%Z || (DATETIME_MAX <? expires)%Z then raise OverflowError
      else ret (expires <? n)%Z
end.

(** [_retry]: [func] returns [true] when the call it wraps returns and
    [false] when it raises an [Exception]. *)
Fixpoint _retry_range (func : Py Sink bool) (n : nat) : Py Sink bool :=
match n with
| O => ret false
| S n' => ok <- func ;; if ok : bool then ret true else _retry_range func n'
end.

Definition _retry (func : Py Sink bool) (retries : Z) : Py Sink bool :=
_retry_range func (Z.to_nat retries).

Definition _set_checksum (contact_url : ContactUrl) (checksum : Checksum) : Py Sink unit :=
modify (fun st => with_checksums (<[contact_url := checksum]> (checksums st)) st) ;;
modify (fun st => with_shelf (shelf_set_checksums (checksums st) (shelf st)) st).

Definition _set_timestamp (contact_url : ContactUrl) : Py Sink unit :=
n <- now ;;
modify (fun st => with_timestamps (<[contact_url := n]> (timestamps st)) st) ;;
modify (fun st => with_shelf (shelf_set_timestamps (timestamps st) (shelf st)) st).

Definition _update_photo (contact_url : ContactUrl) (retries delay expiry : Z)
  : Py Sink unit :=
friend_url <- links_getitem contact_url ;;
if falsy friend_url then ret tt else
due <- _should_update contact_url expiry ;;
if negb due then
  name <- contacts_getitem contact_url ;;
  print ("SKIPPED: " +:+ name)
else
user_id <- get_user_id (default "" friend_url) ;;
if falsy user_id then
  name <- contacts_getitem contact_url ;;
  raise (StopIteration ("RATE LIMITED: " +:+ name))
else
picture <- get_profile_picture (default "" user_id) ;;
match picture with
| Some picture =>
    let checksum := md5_hexdigest P picture in
    st <- get_state ;;
    (if bool_decide (checksums st !! contact_url = Some checksum) then
       name <- contacts_getitem contact_url ;;
       print ("UNCHANGED: " +:+ name)
     else
       ok <- _retry (update_photo contact_url picture) retries ;;
       if ok : bool then
         name <- contacts_getitem contact_url ;;
         print ("UPDATED: " +:+ name) ;;
         _set_checksum contact_url checksum
       else
         name <- contacts_getitem contact_url ;;
         print ("FAILED: " +:+ name)) ;;
    _set_timestamp contact_url
| None =>
    name <- contacts_getitem contact_url ;;
    print ("NO PICTURE: " +:+ name)
end ;;
sleep delay.

(** The loop of [_update_photos], read as a plain loop over the links.  Each
    round submits one task to the pool and calls [result()] on its future
    at once: the task runs, and what it raises is raised again by
    [result()].  [StopIteration] is printed and ends the loop; any other
    exception leaves the method.  The pool itself is the transition system
    [pool_step] below, which is proved to do what this loop does. *)
Fixpoint _update_photos_loop (keys : list ContactUrl) (retries delay expiry : Z)
  : Py Sink unit :=
match keys with
| [] => ret tt
| contact_url :: keys' =>
    fun st =>
      match _update_photo contact_url retries delay expiry st with
      | (Return _, st') => _update_photos_loop keys' retries delay expiry st'
      | (Raise (StopIteration cause), st') => print cause st'
      | (Raise e, st') => (Raise e, st')
      end
end.

Definition _update_photos (retries delay expiry : Z) : Py Sink unit :=
print "Updating photos..." ;;
st <- get_state ;;
_update_photos_loop (Dict.keys (links st)) retries delay expiry.

Definition update (update_ignored auto_only : bool)
  (score_threshold match_limit retries delay expiry : Z) : Py Sink unit :=
_update_links update_ignored auto_only score_threshold match_limit ;;
_update_photos retries delay expiry.

(** *** [_update_photos] on its thread pool

    The same method with the pool spelled out, as a transition system.  A
    future is queued by [submit], taken by a worker when fewer than
    [QTY_THREADS] workers are busy, and done when [_update_photo] has run;
    the main thread sits in the [for] loop, in [future.result()], or in
    [pool.shutdown()], which waits for every future. *)

Definition QTY_THREADS : nat := cpu_count P * 2 + 1.

Inductive Future : Type :=
| Queued
| Running
| Done (r : outcome unit).

Inductive Main : Type :=
| Submitting (keys : list ContactUrl)
| Waiting (future : nat) (keys : list ContactUrl)
| ShuttingDown
| Finished (r : outcome unit).

Record Pool : Type := {
  pool_main : Main;
  pool_futures : list (ContactUrl * Future);
  pool_sink : Sink;
}.

Definition is_running (f : ContactUrl * Future) : bool :=
match snd f with Running => true | _ => false end.

Definition is_done (f : ContactUrl * Future) : bool :=
match snd f with Done _ => true | _ => false end.

Definition busy_workers (futures : list (ContactUrl * Future)) : nat :=
length (filter is_running futures).

Definition is_StopIteration (e : exn) : bool :=
match e with StopIteration _ => true | _ => false end.

Inductive pool_step (retries delay expiry : Z) : Pool -> Pool -> Prop :=
| step_submit contact_url keys futures st :
    pool_step retries delay expiry
      {| pool_main := Submitting (contact_url :: keys); pool_futures := futures;
         pool_sink := st |}
      {| pool_main := Waiting (length futures) keys;
         pool_futures := futures ++ [(contact_url, Queued)]; pool_sink := st |}
| step_loop_end futures st :
    pool_step retries delay expiry
      {| pool_main := Submitting []; pool_futures := futures; pool_sink := st |}
      {| pool_main := ShuttingDown; pool_futures := futures; pool_sink := st |}
| step_worker_start main futures st i contact_url :
    futures !! i = Some (contact_url, Queued) ->
    busy_workers futures < QTY_THREADS ->
    pool_step retries delay expiry
      {| pool_main := main; pool_futures := futures; pool_sink := st |}
      {| pool_main := main; pool_futures := <[i := (contact_url, Running)]> futures;
         pool_sink := st |}
| step_worker_run main futures st i contact_url r st' :
    futures !! i = Some (contact_url, Running) ->
    _update_photo contact_url retries delay expiry st = (r, st') ->
    pool_step retries delay expiry
      {| pool_main := main; pool_futures := futures; pool_sink := st |}
      {| pool_main := main; pool_futures := <[i := (contact_url, Done r)]> futures;
         pool_sink := st' |}
| step_result_return i keys futures st contact_url a :
    futures !! i = Some (contact_url, Done (Return a)) ->
    pool_step retries delay expiry
      {| pool_main := Waiting i keys; pool_futures := futures; pool_sink := st |}
      {| pool_main := Submitting keys; pool_futures := futures; pool_sink := st |}
| step_result_stop i keys futures st contact_url cause :
    futures !! i = Some (contact_url, Done (Raise (StopIteration cause))) ->
    pool_step retries delay expiry
      {| pool_main := Waiting i keys; pool_futures := futures; pool_sink := st |}
      {| pool_main := ShuttingDown; pool_futures := futures;
         pool_sink := snd (print cause st) |}
| step_result_raise i keys futures st contact_url e :
    futures !! i = Some (contact_url, Done (Raise e)) ->
    is_StopIteration e = false ->
    pool_step retries delay expiry
      {| pool_main := Waiting i keys; pool_futures := futures; pool_sink := st |}
      {| pool_main := Finished (Raise e); pool_futures := futures; pool_sink := st |}
| step_shutdown futures st :
    forallb is_done futures = true ->
    pool_step retries delay expiry
      {| pool_main := ShuttingDown; pool_futures := futures; pool_sink := st |}
      {| pool_main := Finished (Return tt); pool_futures := futures; pool_sink := st |}.

(** The pool when the loop of [_update_photos] starts on [keys]. *)
Definition pool_start (keys : list ContactUrl) (st : Sink) : Pool :=
{| pool_main := Submitting keys; pool_futures := []; pool_sink := st |}.

(** What the method makes of a pool: the outcome and state the rest of the
    run leads to, when no future but the one awaited is still to run. *)
Definition pool_outcome (retries delay expiry : Z) (p : Pool)
  : option (outcome unit * Sink) :=
match pool_main p with
| Submitting keys =>
    if forallb is_done (pool_futures p)
    then Some (_update_photos_loop keys retries delay expiry (pool_sink p))
    else None
| Waiting i keys =>
    match pool_futures p !! i with
    | Some (contact_url, f) =>
        if forallb is_done (delete i (pool_futures p)) then
          match f with
          | Done (Return _) =>
              Some (_update_photos_loop keys retries delay expiry (pool_sink p))
          | Done (Raise (StopIteration cause)) => Some (print cause (pool_sink p))
          | Done (Raise e) => Some (Raise e, pool_sink p)
          | _ =>
              Some (_update_photos_loop (contact_url :: keys) retries delay expiry
                      (pool_sink p))
          end
        else None
    | None => None
    end
| ShuttingDown =>
    if forallb is_done (pool_futures p)
    then Some (Return tt, pool_sink p) else None
| Finished r =>
    if forallb is_done (pool_futures p)
    then Some (r, pool_sink p) else None
end.

(** *** Predicates of the statements *)

Implicit Types (st : Sink) (contact_url friend_url user_id name line : string).
Implicit Types (p : Pool).

(** [time.sleep] takes the delay in world [w]: it is not negative, it is
    not too large to be converted, and the system sleeps that long. *)
Definition sleep_taken (delay : Z) (w : World P) : Prop :=
  (0 <= delay <= SLEEP_MAX)%Z /\ fst (time_sleep P delay w) = true.

(** A key is settled when [_clean_links] would keep what it maps to. *)
Definition settled st contact_url : Prop :=
  forall v, Dict.get contact_url (links st) = Some v -> is_stale st contact_url v = false.

(** The record is linked to a friend, it is due, and the page of the friend
    gives a user id; [w] is the world after that. *)
Definition resolves st contact_url expiry friend_url user_id (w : World P) : Prop :=
  Dict.get contact_url (links st) = Some (Some friend_url)
  /\ friend_url <> ""
  /\ exists st1,
       _should_update contact_url expiry st = (Return true, st1)
       /\ facebook_get_user_id P friend_url (world st1) = (Some user_id, w)
       /\ user_id <> "".

(** What a method can see of the object without calling out. *)
Definition memory st :=
  (contacts st, friends st, links st, checksums st, timestamps st, shelf st,
   stdout st, stdin st).

(** Each of the first [n] attempts to push [picture] fails, from world [w]. *)
Fixpoint all_attempts_fail contact_url (picture : list Byte.byte) (n : nat) (w : World P)
  : Prop :=
  match n with
  | O => True
  | S n' =>
      fst (google_update_photo P contact_url picture w) = false
      /\ all_attempts_fail contact_url picture n'
           (snd (google_update_photo P contact_url picture w))
  end.

Fixpoint world_after_attempts contact_url (picture : list Byte.byte) (n : nat) (w : World P)
  : World P :=
  match n with
  | O => w
  | S n' =>
      world_after_attempts contact_url picture n'
        (snd (google_update_photo P contact_url picture w))
  end.

(** [_update_photo] returned for each of [keys] in turn, from [st] to [st']. *)
Inductive photos_done (retries delay expiry : Z) : list string -> Sink -> Sink -> Prop :=
| photos_done_nil st : photos_done retries delay expiry [] st st
| photos_done_cons contact_url keys st st1 st2 :
    _update_photo contact_url retries delay expiry st = (Return tt, st1) ->
    photos_done retries delay expiry keys st1 st2 ->
    photos_done retries delay expiry (contact_url :: keys) st st2.

(** The record is linked to a friend and due, and the page of the friend
    gives no user id; [w] is the world after that. *)
Definition resolution_fails st contact_url expiry friend_url (w : World P) : Prop :=
  Dict.get contact_url (links st) = Some (Some friend_url)
  /\ friend_url <> ""
  /\ exists st1 (found : option string),
       _should_update contact_url expiry st = (Return true, st1)
       /\ facebook_get_user_id P friend_url (world st1) = (found, w)
       /\ falsy found = true.

(** The matches on the screen after the lines [typed], none of which ended
    the loop: those of the last name typed, or [matches] when only numbers
    were typed. *)
Definition shown_after (fs : list (string * string)) (match_limit : Z)
    (typed : list string) (matches : list (string * Z * string))
  : list (string * Z * string) :=
  fold_left
    (fun shown line =>
       if isdigit line then shown else process_extract P line fs match_limit)
    typed matches.

(** A line after which [_get_link] prompts again: a number out of range, or
    a name whose search does not end in an automatic link. *)
Definition prompts_again (fs : list (string * string)) (score_threshold match_limit : Z)
    (auto_match : bool) line : Prop :=
  accepted match_limit line = false
  \/ (isdigit line = false /\ line <> ""
      /\ (auto_match = false
          \/ top_match (process_extract P line fs match_limit) score_threshold = None)).

(** How [_get_link] ended on the line [last], with [shown] on the screen
    and [v] the link it made. *)
Definition ends_on (fs : list (string * string)) (score_threshold match_limit : Z)
    (auto_match : bool) (shown : list (string * Z * string)) (last : string)
    (v : option string) : Prop :=
  (last = "" /\ v = None)
  \/ (isdigit last = true /\ (0 < int last <= match_limit)%Z
      /\ exists friend_name score friend_url,
           nth_error shown (Z.to_nat (int last - 1))
           = Some (friend_name, score, friend_url)
           /\ v = Some friend_url)
  \/ (auto_match = true /\ isdigit last = false /\ last <> ""
      /\ exists friend_url,
           top_match (process_extract P last fs match_limit) score_threshold
           = Some friend_url
           /\ v = Some friend_url).

(** The pool [p] runs on to the end of the method with outcome [o]. *)
Definition finishes_with (retries delay expiry : Z) p (o : outcome unit * Sink) : Prop :=
  exists p',
    rtc (pool_step retries delay expiry) p p'
    /\ pool_main p' = Finished (fst o) /\ pool_sink p' = snd o.


End Sink.

(** ** A run to try the model on

    Two friends with a picture, one with a silhouette, one whose page does
    not resolve; a Google account that refuses the photo of one contact; a
    clock that is the state of the world. *)

Module Demo.

Definition jane_picture : Picture := [Byte.x4a; Byte.x31].

Definition user_id_of (friend_url : FriendUrl) : option UserId :=
if String.eqb friend_url "/jane" then Some "1001"
else if String.eqb friend_url "/jane.d" then Some "1002"
else if String.eqb friend_url "/john" then Some "1003"
else None.

Definition picture_of (user_id : UserId) : option Picture :=
if String.eqb user_id "1001" then Some jane_picture
else if String.eqb user_id "1002" then Some [Byte.x4a; Byte.x32; Byte.x00]
else None.

(** Score 100 for the friends of that very name, 50 for the others. *)
Definition extract (name : Name) (friends : list (FriendUrl * Name)) (limit : Z)
  : list (Name * Z * FriendUrl) :=
take (Z.to_nat limit)
  (map (fun f => (snd f, 100%Z, fst f))
     (filter (fun f => bool_decide (snd f = name)) friends)
   ++ map (fun f => (snd f, 50%Z, fst f))
     (filter (fun f => bool_decide (snd f <> name)) friends)).

Definition providers : Providers :=
{| World := Z;
   facebook_get_user_id friend_url w := (user_id_of friend_url, w);
   facebook_get_profile_picture user_id w := (picture_of user_id, w);
   google_update_photo contact_url picture w :=
     (negb (String.eqb contact_url "c/broken"), w);
   datetime_now w := (w, w);
   time_sleep delay w := (true, (w + delay * 1000000)%Z);
   md5_hexdigest picture := pretty (length picture);
   getSortKey name := name;
   process_extract := extract;
   cpu_count := 2 |}.

Definition the_contacts : list (ContactUrl * Name) :=
[("c/broken", "Bob Broken"); ("c/jane", "Jane Doe"); ("c/john", "John Roe");
 ("c/nick", "Nick Name"); ("c/zed", "Zed Gone")].

Definition the_friends : list (FriendUrl * Name) :=
[("/bob", "Bob Broken"); ("/jane.d", "Jane D."); ("/jane", "Jane Doe");
 ("/john", "John Roe"); ("/zed", "Zed Gone")].

Definition no_shelf : Shelf :=
{| shelf_links := None; shelf_checksums := None; shelf_timestamps := None |}.

(** A fresh object at time [t], with the links and the memory given. *)
Definition sink (l : list (ContactUrl * option FriendUrl))
  (c : gmap string Checksum) (ts : gmap string Time) (typed : list string) (t : Z)
  : @Sink providers :=
@Build_Sink providers the_contacts the_friends l c ts no_shelf [] typed [] t.

(** The same object as it is after loading: the shelf holds what the
    memory holds. *)
Definition loaded_sink (l : list (ContactUrl * option FriendUrl))
  (c : gmap string Checksum) (ts : gmap string Time) (t : Z) : @Sink providers :=
@Build_Sink providers the_contacts the_friends l c ts
  {| shelf_links := Some l; shelf_checksums := Some c; shelf_timestamps := Some ts |}
  [] [] [] t.

End Demo.

(** ** The rest of the class

    [print_columns], [_delete_photos] and [delete] (here [sink_delete]),
    [_edit_links] and [edit]. *)

(** [lst[start::3]]: [skip] is the number of items to pass over before the
    next one that is taken, [start] at first and 2 from then on. *)
Fixpoint every_third {A} (skip : nat) (lst : list A) : list A :=
match lst with
| [] => []
| x :: lst' =>
    match skip with
    | O => x :: every_third 2 lst'
    | S skip' => every_third skip' lst'
    end
end.

Fixpoint spaces (n : nat) : string :=
match n with
| O => ""
| S n' => String " "%char (spaces n')
end.

(** A byte that begins a character in UTF-8: any but the continuation
    bytes, 128 to 191. *)
Definition is_char_start (c : ascii) : bool :=
(nat_of_ascii c <? 128)%nat || (191 <? nat_of_ascii c)%nat.

(** [len(s)], the number of characters of [s]. *)
Fixpoint str_len (s : string) : nat :=
match s with
| EmptyString => 0
| String c s' => (if is_char_start c then 1 else 0) + str_len s'
end.

(** [format(s, '<50')], for 50 the [width]: [s] with spaces after it up to
    that many characters, and [s] itself when it is longer. *)
Definition ljust (width : nat) (s : string) : string :=
s +:+ spaces (width - str_len s).

Section Rest.
Context {P : Providers}.

(** ['{:<50}{:<50}{:<}'.format(a, b, c)] *)
Definition row_line (row : string * string * string) : string :=
let '(a, b, c) := row in ljust 50 a +:+ ljust 50 b +:+ c.

Fixpoint print_rows (rows : list (string * string * string)) : Py (@Sink P) unit :=
match rows with
| [] => ret tt
| row :: rows' => print (row_line row) ;; print_rows rows'
end.

(** [zip] of three lists stops with the shortest one. *)
Definition print_columns (lst : list string) : Py (@Sink P) unit :=
print_rows (zip (zip (every_third 0 lst) (every_third 1 lst)) (every_third 2 lst)).

(** *** Deleting *)

Definition with_world (w : World P) (st : @Sink P) : @Sink P :=
{| contacts := contacts st; friends := friends st; links := links st;
   checksums := checksums st; timestamps := timestamps st; shelf := shelf st;
   stdout := stdout st; stdin := stdin st; calls := calls st; world := w |}.

Section Delete.
(** [self.client.GetContact], as far as the world goes: whether it returns
    or raises makes no difference below. *)
Context (google_get_contact : ContactUrl -> World P -> World P).

(** [GoogleContacts.delete_photo]: the contact is fetched, and then the
    arguments of [DeletePhoto] are evaluated, the first of which is the name
    [media], that nothing defines: the call raises, [NameError] or what
    [GetContact] raised.  As for [update_photo], [false] is for a call that
    raises an [Exception]. *)
Definition delete_photo (contact_url : ContactUrl) : Py (@Sink P) bool :=
fun st => (Return false, with_world (google_get_contact contact_url (world st)) st).

Fixpoint _delete_photos_loop (keys : list ContactUrl) (retries : Z) : Py (@Sink P) unit :=
match keys with
| [] => ret tt
| contact_url :: keys' =>
    ok <- _retry (delete_photo contact_url) retries ;;
    (if ok : bool then
       name <- contacts_getitem contact_url ;;
       print ("SUCCESS: " +:+ name)
     else
       name <- contacts_getitem contact_url ;;
       print ("FAILURE: " +:+ name)) ;;
    _delete_photos_loop keys' retries
end.

Definition _delete_photos (retries : Z) : Py (@Sink P) unit :=
print "Deleting photos..." ;;
_clean_links ;;
st <- get_state ;;
_delete_photos_loop (Dict.keys (links st)) retries.

(** [Sink.delete] *)
Definition sink_delete (delete_links : bool) (retries : Z) : Py (@Sink P) unit :=
_delete_photos retries ;;
if delete_links then _delete_links else ret tt.

End Delete.

(** *** Editing *)

Definition EDIT_INSTRUCTIONS : string :=
"You will be presented with a name prompt.  Type the name of the Google contact you wish to edit and press Enter.  Press Enter without typing anything to exit." +:+ NL +:+
"If the contact exists, their name will be displayed along with list of suggested Facebook friends." +:+ NL +:+
"You will be presented with a prompt. There are three options." +:+ NL +:+
"  1. Type the list number of a suggested Facebook friend and press Enter to create a link with that friend." +:+ NL +:+
"  2. Type a name and press Enter to perform another search of Facebook friends." +:+ NL +:+
"     A link will be automatically created if the search name and a Facebook friend name are a close enough match." +:+ NL +:+
"     This is helpful if a contact's name does not closely match their Facebook name." +:+ NL +:+
"  3. Press Enter without typing anything to ignore the contact." +:+ NL +:+
"     Sink will ignore this contact during updates.".

(** The bytes of [s] that continue a character, and what follows them. *)
Fixpoint rest_of_char (s : string) : string * string :=
match s with
| EmptyString => ("", "")
| String c s' =>
    if is_char_start c then ("", s)
    else let (more, after) := rest_of_char s' in (String c more, after)
end.

(** [s[0]] and [s[1:]], when [s] is not empty. *)
Definition first_char (s : string) : option (string * string) :=
match s with
| EmptyString => None
| String c s' => let (more, after) := rest_of_char s' in Some (String c more, after)
end.

(** The key function of the [sorted] call of [_edit_links], which is applied
    to names: [kv[0]] and [kv[1]] are the first two characters of the name,
    and a name without a second character is an [IndexError]. *)
Definition names_sort_key (kv : Name) : outcome (string * option string) :=
match first_char kv with
| None => Raise IndexError
| Some (c0, after) =>
    match first_char after with
    | None => Raise IndexError
    | Some (c1, _) => Return (getSortKey P c0, Some c1)
    end
end.

(** The dictionary comprehension of [_edit_links], from names to contact
    urls: a name that comes again keeps its place and takes the later
    url. *)
Fixpoint link_contacts_from (keys : list ContactUrl) (acc : list (Name * ContactUrl))
  : Py (@Sink P) (list (Name * ContactUrl)) :=
match keys with
| [] => ret acc
| contact_url :: keys' =>
    name <- contacts_getitem contact_url ;;
    link_contacts_from keys' (Dict.set name contact_url acc)
end.

(** [_edit_links] up to its loop; the value is [link_contacts]. *)
Definition _edit_links_intro : Py (@Sink P) (list (Name * ContactUrl)) :=
_clean_links ;;
st <- get_state ;;
link_contacts <- link_contacts_from (Dict.keys (links st)) [] ;;
print NL ;;
match sorted names_sort_key (Dict.keys link_contacts) with
| Raise e => raise e
| Return names =>
    print_columns names ;;
    print (NL +:+ EDIT_INSTRUCTIONS) ;;
    ret link_contacts
end.

(** The loop of [_edit_links], for at most [fuel] rounds; [None] when the
    rounds are used up before the loop has ended. *)
Fixpoint _edit_links_loop (fuel : nat) (link_contacts : list (Name * ContactUrl))
  (score_threshold match_limit : Z) : Py (@Sink P) (option unit) :=
match fuel with
| O => ret None
| S fuel' =>
    print "" ;;
    name <- input "Name: " ;;
    if String.eqb name "" then ret (Some tt)
    else
      match Dict.get name link_contacts with
      | None =>
          print "Invalid name" ;;
          _edit_links_loop fuel' link_contacts score_threshold match_limit
      | Some contact_url =>
          _print_link contact_url "Status: " ;;
          _get_link contact_url score_threshold match_limit false ;;
          _edit_links_loop fuel' link_contacts score_threshold match_limit
      end
end.

Definition _edit_links (fuel : nat) (score_threshold match_limit : Z)
  : Py (@Sink P) (option unit) :=
link_contacts <- _edit_links_intro ;;
_edit_links_loop fuel link_contacts score_threshold match_limit.

Definition edit (fuel : nat) (score_threshold match_limit : Z)
  : Py (@Sink P) (option unit) :=
_edit_links fuel score_threshold match_limit.

End Rest.

(** ** Relations between the states of a run *)

(** [m] relates the state it is run on to the state it leaves by [R],
    whether it returns or raises. *)
Definition preserves {S A} (R : S -> S -> Prop) (m : Py S A) : Prop :=
  forall st o st', m st = (o, st') -> R st st'.

(** Every run of [m] that returns takes a state to one that [R] relates to
    it. *)
Definition returns_in {S A} (R : S -> S -> Prop) (m : Py S A) : Prop :=
  forall st a st', m st = (Return a, st') -> R st st'.

(** The names of some rows of three, one after the other. *)
Definition names_of_rows (rows : list (string * string * string)) : list string :=
  concat (map (fun row => let '(a, b, c) := row in [a; b; c]) rows).

Section Relations.
Context {P : Providers}.
Implicit Types (st : @Sink P) (contact_url friend_url user_id name line : string).

(** *** Predicates of the statements *)

(** The first [k] attempts to push [picture] fail and the next one goes
    through, from world [w]. *)
Fixpoint succeeds_after contact_url (picture : list Byte.byte) (k : nat) (w : World P)
  : Prop :=
  match k with
  | O => fst (google_update_photo P contact_url picture w) = true
  | S k' =>
      fst (google_update_photo P contact_url picture w) = false
      /\ succeeds_after contact_url picture k'
           (snd (google_update_photo P contact_url picture w))
  end.

(** Every link is from a contact that exists to a friend that exists, or to
    [None]. *)
Definition links_valid st : Prop :=
  forall contact_url v,
    Dict.get contact_url (links st) = Some v -> is_stale st contact_url v = false.

(** No checksum and no timestamp without a link. *)
Definition bookkeeping_linked st : Prop :=
  forall contact_url,
    is_Some (checksums st !! contact_url) \/ is_Some (timestamps st !! contact_url) ->
    is_Some (Dict.get contact_url (links st)).

(** Each item of a sorted list is not after the next one: comparing the
    next one with it says "not less". *)
Fixpoint in_order (keys : list (string * option string)) : Prop :=
  match keys with
  | a :: (b :: _) as keys' => sort_key_lt b a = Return false /\ in_order keys'
  | _ => True
  end.

(** What [_update_photo] on [contact_url] leaves as it is: the links, the
    two collections, the lines to be typed and the links on the shelf, and
    the checksums and timestamps of the other records; and it takes no
    checksum and no timestamp away. *)
Definition photo_touch contact_url st st' : Prop :=
  links st' = links st /\ contacts st' = contacts st /\ friends st' = friends st
  /\ stdin st' = stdin st /\ shelf_links (shelf st') = shelf_links (shelf st)
  /\ (forall k, k <> contact_url ->
        checksums st' !! k = checksums st !! k
        /\ timestamps st' !! k = timestamps st !! k)
  /\ (forall k, is_Some (checksums st !! k) -> is_Some (checksums st' !! k))
  /\ (forall k, is_Some (timestamps st !! k) -> is_Some (timestamps st' !! k)).

(** The links that [_clean_links] keeps, in their order. *)
Definition fresh_links st : list (string * option string) :=
  filter (fun kv => is_stale st (fst kv) (snd kv) = false) (links st).

(** The record has a link, and [_clean_links] drops it. *)
Definition dropped st contact_url : bool :=
  match Dict.get contact_url (links st) with
  | Some v => is_stale st contact_url v
  | None => false
  end.

(** [st'] is [st] but for the links, the checksums and the timestamps. *)
Definition same_but_maps st st' : Prop :=
  contacts st' = contacts st /\ friends st' = friends st /\ shelf st' = shelf st
  /\ stdout st' = stdout st /\ stdin st' = stdin st /\ calls st' = calls st
  /\ world st' = world st.

(** The links are in the order [_save_links] puts them in: no item has a key
    below the key of the item before it. *)
Definition links_in_order st : Prop :=
  exists d,
    decorate (@links_sort_key P (contacts st)) (links st) = Return d
    /\ in_order (map fst d).

(** The links are a dictionary and each of them is valid. *)
Definition tidy st : Prop := NoDup (Dict.keys (links st)) /\ links_valid st.

(** From tidy links to tidy links, over the same contacts and friends, and
    no record loses its link. *)
Definition links_grow st st' : Prop :=
  tidy st ->
  tidy st' /\ contacts st' = contacts st /\ friends st' = friends st
  /\ forall k, is_Some (Dict.get k (links st)) -> is_Some (Dict.get k (links st')).

(** [st'] has the checksums and the timestamps of [st], and a link for every
    record that has one in [st]. *)
Definition keeps_sums st st' : Prop :=
  checksums st' = checksums st /\ timestamps st' = timestamps st
  /\ forall k, is_Some (Dict.get k (links st)) -> is_Some (Dict.get k (links st')).

End Relations.
(** * Proofs *)

(** Unfolds the plumbing of the monad and the accessors of the dictionaries. *)
Ltac py_unfold :=
  cbv beta iota zeta delta
    [bind ret raise get_state modify print links_getitem contacts_getitem
     friends_getitem links_delitem].

(** ** Dictionaries *)

Section DictFacts.
Context {V : Type}.
Implicit Types (d : list (string * V)) (k : string) (v : V).

Lemma dict_get_set_eq d k v : Dict.get k (Dict.set k v d) = Some v.
Proof.
  induction d as [|[k' v'] d IH]; simpl.
  - by rewrite String.eqb_refl.
  - destruct (String.eqb_spec k k') as [->|Hne]; simpl.
    + by rewrite String.eqb_refl.
    + by apply String.eqb_neq in Hne as ->.
Qed.

Lemma dict_get_set_ne d k k' v :
  k <> k' -> Dict.get k' (Dict.set k v d) = Dict.get k' d.
Proof.
  intros Hne. induction d as [|[k0 v0] d IH]; simpl.
  - apply not_eq_sym, String.eqb_neq in Hne. by rewrite Hne.
  - destruct (String.eqb_spec k k0) as [->|Hk]; simpl.
    + apply not_eq_sym, String.eqb_neq in Hne. by rewrite !Hne.
    + by rewrite IH.
Qed.

Lemma dict_get_None d k : Dict.get k d = None <-> k ∉ Dict.keys d.
Proof.
  unfold Dict.keys. induction d as [|[k' v'] d IH]; simpl.
  - split; [intros _; apply not_elem_of_nil | done].
  - rewrite not_elem_of_cons. destruct (String.eqb_spec k k') as [->|Hne].
    + split; [done | by intros [? _]].
    + rewrite IH. tauto.
Qed.

Lemma dict_get_elem_of d k v : Dict.get k d = Some v -> (k, v) ∈ d.
Proof.
  induction d as [|[k' v'] d IH]; simpl; [done|].
  destruct (String.eqb_spec k k') as [->|Hne].
  - intros [= ->]. apply elem_of_cons; by left.
  - intros H. apply elem_of_cons; right; auto.
Qed.

Lemma dict_elem_of_get d k v :
  NoDup (Dict.keys d) -> (k, v) ∈ d -> Dict.get k d = Some v.
Proof.
  unfold Dict.keys. induction d as [|[k' v'] d IH]; simpl.
  - intros _ H. by apply elem_of_nil in H.
  - rewrite NoDup_cons. intros [Hk' Hd] [Heq|Hin]%elem_of_cons.
    + injection Heq as -> ->. by rewrite String.eqb_refl.
    + destruct (String.eqb_spec k k') as [->|Hne]; [|by apply IH].
      exfalso. apply Hk'. apply (list_elem_of_fmap_2 fst) in Hin. exact Hin.
Qed.

(** Two dictionaries with the same items answer alike. *)
Lemma dict_get_Permutation d d' k :
  NoDup (Dict.keys d) -> d ≡ₚ d' -> Dict.get k d' = Dict.get k d.
Proof.
  intros Hnd Hp.
  assert (Hnd' : NoDup (Dict.keys d')).
  { unfold Dict.keys in *. by rewrite <- Hp. }
  destruct (Dict.get k d) as [v|] eqn:Hg.
  - apply dict_elem_of_get; [done|]. rewrite <- Hp. by apply dict_get_elem_of.
  - apply dict_get_None. apply dict_get_None in Hg.
    unfold Dict.keys in *. by rewrite <- Hp.
Qed.

Lemma dict_keys_set d k v :
  Dict.keys (Dict.set k v d)
  = if Dict.mem k d then Dict.keys d else (Dict.keys d ++ [k])%list.
Proof.
  unfold Dict.keys, Dict.mem. induction d as [|[k' v'] d IH]; simpl; [done|].
  destruct (String.eqb_spec k k') as [->|Hne]; simpl; [done|].
  rewrite IH. by destruct (Dict.get k d).
Qed.

Lemma dict_NoDup_set d k v :
  NoDup (Dict.keys d) -> NoDup (Dict.keys (Dict.set k v d)).
Proof.
  intros Hnd. rewrite dict_keys_set. unfold Dict.mem.
  destruct (Dict.get k d) eqn:Hg; [done|].
  apply dict_get_None in Hg.
  apply NoDup_app. split_and!; [done| |apply NoDup_singleton].
  intros x Hx ->%list_elem_of_singleton. done.
Qed.

Lemma dict_get_del_ne d k k' :
  k <> k' -> Dict.get k' (Dict.del k d) = Dict.get k' d.
Proof.
  intros Hne. induction d as [|[k0 v0] d IH]; simpl; [done|].
  destruct (String.eqb_spec k k0) as [->|Hk]; simpl.
  - apply not_eq_sym, String.eqb_neq in Hne. by rewrite Hne.
  - by rewrite IH.
Qed.

Lemma dict_get_del_eq d k :
  NoDup (Dict.keys d) -> Dict.get k (Dict.del k d) = None.
Proof.
  unfold Dict.keys. induction d as [|[k0 v0] d IH]; simpl; [done|].
  rewrite NoDup_cons. intros [Hk0 Hd].
  destruct (String.eqb_spec k k0) as [->|Hk]; simpl.
  - by apply dict_get_None.
  - apply String.eqb_neq in Hk as ->. by apply IH.
Qed.

Lemma dict_keys_del_sublist d k : Dict.keys (Dict.del k d) `sublist_of` Dict.keys d.
Proof.
  unfold Dict.keys. induction d as [|[k0 v0] d IH]; simpl; [done|].
  destruct (String.eqb k k0); simpl.
  - by apply sublist_cons.
  - by apply sublist_skip.
Qed.

Lemma dict_NoDup_del d k : NoDup (Dict.keys d) -> NoDup (Dict.keys (Dict.del k d)).
Proof. intros Hnd. eapply sublist_NoDup; [exact Hnd | apply dict_keys_del_sublist]. Qed.

Lemma dict_mem_true d k : Dict.mem k d = true <-> k ∈ Dict.keys d.
Proof.
  unfold Dict.mem. destruct (Dict.get k d) eqn:Hg.
  - split; [intros _|done]. destruct (decide (k ∈ Dict.keys d)) as [|Hn]; [done|].
    apply dict_get_None in Hn. congruence.
  - apply dict_get_None in Hg. split; [done|]. intros; contradiction.
Qed.

End DictFacts.

(** ** [sorted] keeps the items *)

Section SortedFacts.
Context {A : Type}.
Implicit Types (l : list A) (d : list ((string * option string) * A)).

Lemma insert_sorted_Permutation x d r :
  insert_sorted x d = Return r -> r ≡ₚ x :: d.
Proof.
  revert r. induction d as [|y d IH]; simpl; intros r.
  - by intros [= <-].
  - destruct (sort_key_lt (fst y) (fst x)) as [[]|]; simpl; [|by intros [= <-]|done].
    destruct (insert_sorted x d) as [r'|]; simpl; [|done].
    intros [= <-]. rewrite (IH r' eq_refl). apply Permutation_swap.
Qed.

Lemma sort_decorated_Permutation d r : sort_decorated d = Return r -> r ≡ₚ d.
Proof.
  revert r. induction d as [|x d IH]; simpl; intros r.
  - by intros [= <-].
  - destruct (sort_decorated d) as [s|]; simpl; [|done].
    intros ->%insert_sorted_Permutation. by rewrite (IH s eq_refl).
Qed.

Lemma decorate_snd key l d : decorate key l = Return d -> map snd d = l.
Proof.
  revert d. induction l as [|x l IH]; simpl; intros d.
  - by intros [= <-].
  - destruct (key x); simpl; [|done].
    destruct (decorate key l) as [r|]; simpl; [|done].
    intros [= <-]. simpl. by rewrite (IH r eq_refl).
Qed.

Lemma sorted_Permutation key l r : sorted key l = Return r -> r ≡ₚ l.
Proof.
  unfold sorted. destruct (decorate key l) as [d|] eqn:Hd; simpl; [|done].
  destruct (sort_decorated d) as [s|] eqn:Hs; simpl; [|done].
  intros [= <-]. apply decorate_snd in Hd as <-.
  apply sort_decorated_Permutation in Hs. by rewrite Hs.
Qed.

Lemma sorted_nil key : sorted key (@nil A) = Return [].
Proof. reflexivity. Qed.

End SortedFacts.

(** ** Reconciliation *)

Section Reconcile.
Context {P : Providers}.
Implicit Types (st : @Sink P) (contact_url : string).
Local Open Scope py_scope.

Lemma _clean_link_keeps st contact_url v :
  Dict.get contact_url (links st) = Some v ->
  is_stale st contact_url v = false ->
  _clean_link contact_url st = (Return tt, st).
Proof.
  intros Hget Hstale. unfold is_stale in Hstale.
  apply orb_false_elim in Hstale as [Hc Hf].
  unfold _clean_link. py_unfold.
  rewrite Hc, Hget; simpl. destruct v; simpl; by rewrite ?Hf.
Qed.

Lemma _clean_link_drops st contact_url v :
  Dict.get contact_url (links st) = Some v ->
  is_stale st contact_url v = true ->
  exists st',
    _clean_link contact_url st = (Return tt, st')
    /\ links st' = Dict.del contact_url (links st)
    /\ contacts st' = contacts st /\ friends st' = friends st.
Proof.
  intros Hget Hstale. unfold is_stale in Hstale.
  unfold _clean_link. py_unfold.
  assert (Hmem : Dict.mem contact_url (links st) = true)
    by (unfold Dict.mem; by rewrite Hget).
  destruct (negb (Dict.mem contact_url (contacts st))); simpl in *.
  - rewrite Hmem. eexists. split; [reflexivity|].
    repeat case_decide; simpl; done.
  - rewrite Hget. destruct v as [f|]; [|done]. rewrite Hstale, Hmem.
    eexists. split; [reflexivity|].
    repeat case_decide; simpl; done.
Qed.

Lemma _clean_links_loop_settles keys st :
  NoDup keys -> NoDup (Dict.keys (links st)) ->
  (forall k, k ∈ keys -> is_Some (Dict.get k (links st))) ->
  exists st',
    _clean_links_loop keys st = (Return tt, st')
    /\ NoDup (Dict.keys (links st'))
    /\ (forall k, k ∈ keys -> settled st' k)
    /\ (forall k, k ∉ keys -> Dict.get k (links st') = Dict.get k (links st))
    /\ contacts st' = contacts st /\ friends st' = friends st.
Proof.
  intros Hks. revert st.
  induction Hks as [|c keys Hc Hks IH]; intros st Hnd Hsome; simpl.
  - exists st. split_and!; try done. intros k Hk. by apply elem_of_nil in Hk.
  - destruct (Hsome c) as [v Hv]; [apply elem_of_cons; by left|].
    assert (Hone : exists st1,
      _clean_link c st = (Return tt, st1)
      /\ NoDup (Dict.keys (links st1))
      /\ settled st1 c
      /\ (forall k, k <> c -> Dict.get k (links st1) = Dict.get k (links st))
      /\ contacts st1 = contacts st /\ friends st1 = friends st).
    { destruct (is_stale st c v) eqn:Hstale.
      - destruct (_clean_link_drops st c v Hv Hstale) as (st1 & H1 & Hl & Hcs & Hfs).
        exists st1. rewrite Hl. split_and!; try done.
        + by apply dict_NoDup_del.
        + intros v'. rewrite Hl, dict_get_del_eq; done.
        + intros k Hk. by apply dict_get_del_ne.
      - exists st. split_and!; try done.
        + by apply _clean_link_keeps with v.
        + intros v'. rewrite Hv. by intros [= <-]. }
    destruct Hone as (st1 & H1 & Hnd1 & Hset1 & Hoth1 & Hcs1 & Hfs1).
    destruct (IH st1 Hnd1) as (st' & H' & Hnd' & Hset' & Hoth' & Hcs' & Hfs').
    { intros k Hk. rewrite Hoth1; [|intros ->; contradiction].
      apply Hsome, elem_of_cons. by right. }
    exists st'. unfold bind. rewrite H1. split_and!; try done.
    + intros k [->|Hk]%elem_of_cons; [|by apply Hset'].
      intros v' Hv'. rewrite Hoth' in Hv' by done.
      specialize (Hset1 v' Hv'). unfold is_stale in *. by rewrite Hcs', Hfs'.
    + intros k [Hkc Hk]%not_elem_of_cons. rewrite Hoth' by done. by apply Hoth1.
    + congruence.
    + congruence.
Qed.

Lemma _clean_links_loop_settled keys st :
  (forall k, k ∈ keys -> is_Some (Dict.get k (links st)) /\ settled st k) ->
  _clean_links_loop keys st = (Return tt, st).
Proof.
  induction keys as [|c keys IH]; intros Hall; simpl; [done|].
  destruct (Hall c) as [[v Hv] Hset]; [apply elem_of_cons; by left|].
  unfold bind. rewrite (_clean_link_keeps st c v Hv (Hset v Hv)).
  apply IH. intros k Hk. apply Hall, elem_of_cons. by right.
Qed.

(** C9. Reconciliation is idempotent: [_clean_links] returns, and run again
    on the state it leaves it returns and leaves that very state, so the
    links, the checksums and the timestamps are the ones of the first run. *)
Theorem clean_links_idempotent st :
  NoDup (Dict.keys (links st)) ->
  exists st1,
    _clean_links st = (Return tt, st1)
    /\ _clean_links st1 = (Return tt, st1)
    /\ (_clean_links ;; _clean_links) st = _clean_links st.
Proof.
  intros Hnd.
  destruct (_clean_links_loop_settles (Dict.keys (links st)) st)
    as (st1 & H1 & Hnd1 & Hset & Hoth & _ & _); try done.
  { intros k Hk. destruct (Dict.get k (links st)) eqn:Hg; [done|].
    by apply dict_get_None in Hg. }
  assert (H2 : _clean_links st1 = (Return tt, st1)).
  { unfold _clean_links, bind, get_state; simpl.
    apply _clean_links_loop_settled. intros k Hk. split.
    - destruct (Dict.get k (links st1)) eqn:Hg; [done|].
      by apply dict_get_None in Hg.
    - destruct (decide (k ∈ Dict.keys (links st))) as [Hin|Hout]; [by apply Hset|].
      intros v. rewrite Hoth by done. apply dict_get_None in Hout. congruence. }
  assert (H1' : _clean_links st = (Return tt, st1)) by exact H1.
  exists st1. split_and!; try done.
  unfold bind at 1. by rewrite H1', H2.
Qed.

End Reconcile.

(** ** Synchronising one record *)

Section Photo.
Context {P : Providers}.
Implicit Types (st : @Sink P) (contact_url friend_url user_id name : string).
Local Open Scope py_scope.

Lemma bind_Return {A B} (m : Py (@Sink P) A) (k : A -> Py Sink B) st a st' :
  m st = (Return a, st') -> (x <- m ;; k x) st = k a st'.
Proof. unfold bind. by intros ->. Qed.

Lemma bind_Raise {A B} (m : Py (@Sink P) A) (k : A -> Py Sink B) st e st' :
  m st = (Raise e, st') -> (x <- m ;; k x) st = (Raise e, st').
Proof. unfold bind. by intros ->. Qed.

Lemma links_getitem_Some st contact_url v :
  Dict.get contact_url (links st) = Some v ->
  links_getitem contact_url st = (Return v, st).
Proof. intros H. unfold links_getitem. py_unfold. by rewrite H. Qed.

Lemma contacts_getitem_Some st contact_url name :
  Dict.get contact_url (contacts st) = Some name ->
  contacts_getitem contact_url st = (Return name, st).
Proof. intros H. unfold contacts_getitem. py_unfold. by rewrite H. Qed.

Lemma falsy_Some_false s : s <> "" -> falsy (Some s) = false.
Proof. intros H. simpl. by apply String.eqb_neq. Qed.

(** When a record is due, either it has no timestamp and the clock is not
    read, or the clock is read once and is past the expiry. *)
Lemma _should_update_true st contact_url expiry st1 :
  _should_update contact_url expiry st = (Return true, st1) ->
  (timestamps st !! contact_url = None /\ st1 = st)
  \/ (exists t, timestamps st !! contact_url = Some t
        /\ (t + expiry * DAY < fst (datetime_now P (world st)))%Z
        /\ st1 = with_call CallNow (snd (datetime_now P (world st))) st).
Proof.
  unfold _should_update, now. py_unfold.
  destruct (timestamps st !! contact_url) as [t|].
  - destruct (datetime_now P (world st)) as [n w]; simpl.
    destruct (TIMEDELTA_MAX_DAYS <? Z.abs expiry)%Z; [done|].
    destruct ((t + expiry * DAY <? 0)%Z || (DATETIME_MAX <? t + expiry * DAY)%Z);
      [done|].
    intros [= Hlt <-]. right. exists t. split_and!; try done.
    by apply Z.ltb_lt.
  - intros [= <-]. by left.
Qed.

Lemma sleep_Return st delay :
  sleep_taken delay (world st) ->
  sleep delay st
  = (Return tt,
     with_call (CallSleep delay) (snd (time_sleep P delay (world st))) st).
Proof.
  intros [[Hpos Hmax] Hok]. unfold sleep.
  assert ((SLEEP_MAX <? Z.abs delay)%Z = false) as -> by (apply Z.ltb_ge; lia).
  assert ((delay <? 0)%Z = false) as -> by (apply Z.ltb_ge; lia).
  destruct (time_sleep P delay (world st)) as [ok w]. simpl in *. by subst ok.
Qed.

(** The first steps of [_update_photo] for a record that is linked and due
    and whose friend resolves: what is left is the part on the picture. *)
Lemma _update_photo_resolved st contact_url friend_url user_id retries delay expiry st1 w2 :
  Dict.get contact_url (links st) = Some (Some friend_url) ->
  friend_url <> "" ->
  _should_update contact_url expiry st = (Return true, st1) ->
  facebook_get_user_id P friend_url (world st1) = (Some user_id, w2) ->
  user_id <> "" ->
  _update_photo contact_url retries delay expiry st
  = ((picture <- get_profile_picture user_id ;;
      match picture with
      | Some picture =>
          let checksum := md5_hexdigest P picture in
          st <- get_state ;;
          (if bool_decide (checksums st !! contact_url = Some checksum) then
             name <- contacts_getitem contact_url ;;
             print ("UNCHANGED: " ++ name)
           else
             ok <- _retry (update_photo contact_url picture) retries ;;
             if ok : bool then
               name <- contacts_getitem contact_url ;;
               print ("UPDATED: " ++ name) ;;
               _set_checksum contact_url checksum
             else
               name <- contacts_getitem contact_url ;;
               print ("FAILED: " ++ name)) ;;
          _set_timestamp contact_url
      | None =>
          name <- contacts_getitem contact_url ;;
          print ("NO PICTURE: " ++ name)
      end ;;
      sleep delay) (with_call (CallGetUserId friend_url) w2 st1)).
Proof.
  intros Hlink Hf Hdue Hid Hu. unfold _update_photo.
  rewrite (bind_Return _ _ _ _ _ (links_getitem_Some _ _ _ Hlink)).
  rewrite (falsy_Some_false _ Hf).
  rewrite (bind_Return _ _ _ _ _ Hdue). change (negb true) with false. cbv iota.
  erewrite bind_Return; [|unfold get_user_id; simpl; rewrite Hid; reflexivity].
  rewrite (falsy_Some_false _ Hu). reflexivity.
Qed.


Lemma _retry_range_all_fail st contact_url picture n :
  all_attempts_fail contact_url picture n (world st) ->
  exists st',
    _retry_range (update_photo contact_url picture) n st = (Return false, st')
    /\ memory st' = memory st
    /\ world st' = world_after_attempts contact_url picture n (world st).
Proof.
  revert st. induction n as [|n IH]; intros st; simpl.
  - intros _. by exists st.
  - intros [Hfail Hrest]. unfold bind, update_photo at 1.
    destruct (google_update_photo P contact_url picture (world st)) as [ok w] eqn:Hw.
    simpl in Hfail, Hrest. subst ok.
    destruct (IH (with_call (CallUpdatePhoto contact_url picture) w st) Hrest)
      as (st' & Hrun & Hmem & Hworld).
    exists st'. by split_and!.
Qed.

(** C6. When every attempt to push the picture fails, the record is
    reported as failed, its timestamp is set to the time read after the
    last attempt and written to the shelf, and its checksum stays as it
    was, in memory and on the shelf. *)
Theorem update_photo_failed st contact_url name friend_url user_id w2 picture w3
    retries delay expiry :
  resolves st contact_url expiry friend_url user_id w2 ->
  Dict.get contact_url (contacts st) = Some name ->
  facebook_get_profile_picture P user_id w2 = (Some picture, w3) ->
  checksums st !! contact_url <> Some (md5_hexdigest P picture) ->
  all_attempts_fail contact_url picture (Z.to_nat retries) w3 ->
  sleep_taken delay
    (snd (datetime_now P
            (world_after_attempts contact_url picture (Z.to_nat retries) w3))) ->
  exists st',
    _update_photo contact_url retries delay expiry st = (Return tt, st')
    /\ stdout st' = stdout st ++ ["FAILED: " +:+ name]
    /\ timestamps st'
       = <[contact_url :=
             fst (datetime_now P
                    (world_after_attempts contact_url picture (Z.to_nat retries) w3))]>
           (timestamps st)
    /\ shelf_timestamps (shelf st') = Some (timestamps st')
    /\ checksums st' = checksums st
    /\ shelf_checksums (shelf st') = shelf_checksums (shelf st).
Proof.
  intros (Hlink & Hf & st1 & Hdue & Hid & Hu) Hname Hpic Hsum Hfail Hdelay.
  rewrite (_update_photo_resolved _ _ _ _ _ _ _ _ _ Hlink Hf Hdue Hid Hu).
  assert (Hmem1 : memory st1 = memory st).
  { by apply _should_update_true in Hdue as [[_ ->]|(t & _ & _ & ->)]. }
  injection Hmem1 as Hcs Hfs Hls Hck Hts Hsh Hout Hin.
  erewrite bind_Return; [|unfold get_profile_picture; simpl; rewrite Hpic; reflexivity].
  set (st3 := with_call (CallGetProfilePicture user_id) w3
                (with_call (CallGetUserId friend_url) w2 st1)).
  destruct (_retry_range_all_fail st3 contact_url picture (Z.to_nat retries) Hfail)
    as (st4 & Hretry & Hmem4 & Hw4).
  injection Hmem4 as Hcs4 Hfs4 Hls4 Hck4 Hts4 Hsh4 Hout4 Hin4. simpl in *.
  unfold bind at 1. unfold bind at 1. unfold get_state at 1. unfold bind at 1.
  rewrite bool_decide_eq_false_2 by (simpl; by rewrite Hck).
  unfold bind at 1. unfold _retry. rewrite Hretry.
  assert (Hname4 : Dict.get contact_url (contacts st4) = Some name) by congruence.
  rewrite (bind_Return _ _ st4 _ _ (contacts_getitem_Some st4 contact_url name Hname4)).
  unfold _set_timestamp, now. py_unfold. simpl.
  rewrite Hw4.
  destruct (datetime_now P (world_after_attempts _ _ _ w3)) as [n w5] eqn:Hnow. simpl.
  rewrite sleep_Return by exact Hdelay. eexists. split; [reflexivity|]. simpl.
  split_and!; congruence.
Qed.

(** C7. When the picture fetched hashes to the stored checksum, the record
    is reported as unchanged, no call to [update_photo] is made, and the
    timestamp is set to the time read then and written to the shelf. *)
Theorem update_photo_unchanged st contact_url name friend_url user_id w2 picture w3
    retries delay expiry :
  resolves st contact_url expiry friend_url user_id w2 ->
  Dict.get contact_url (contacts st) = Some name ->
  facebook_get_profile_picture P user_id w2 = (Some picture, w3) ->
  checksums st !! contact_url = Some (md5_hexdigest P picture) ->
  sleep_taken delay (snd (datetime_now P w3)) ->
  exists st',
    _update_photo contact_url retries delay expiry st = (Return tt, st')
    /\ stdout st' = stdout st ++ ["UNCHANGED: " +:+ name]
    /\ (exists made, calls st' = calls st ++ made
          /\ forall c p, CallUpdatePhoto c p ∉ made)
    /\ timestamps st' = <[contact_url := fst (datetime_now P w3)]> (timestamps st)
    /\ shelf_timestamps (shelf st') = Some (timestamps st')
    /\ checksums st' = checksums st.
Proof.
  intros (Hlink & Hf & st1 & Hdue & Hid & Hu) Hname Hpic Hsum Hdelay.
  rewrite (_update_photo_resolved _ _ _ _ _ _ _ _ _ Hlink Hf Hdue Hid Hu).
  erewrite bind_Return; [|unfold get_profile_picture; simpl; rewrite Hpic; reflexivity].
  unfold _set_timestamp, now. py_unfold.
  apply _should_update_true in Hdue as [[_ ->]|(t & _ & _ & ->)]; simpl;
    rewrite bool_decide_eq_true_2 by done; simpl; rewrite Hname; simpl;
    destruct (datetime_now P w3) as [n w4]; simpl in Hdelay |- *;
    rewrite sleep_Return by exact Hdelay; simpl;
    (eexists; split_and!; try reflexivity).
  - eexists. split; [simpl; by rewrite <- !(assoc_L (++)) | ].
    intros c p [?|[?|[?|[?|[]%elem_of_nil]%elem_of_cons]%elem_of_cons]%elem_of_cons]%elem_of_cons; done.
  - eexists. split; [simpl; by rewrite <- !(assoc_L (++)) | ].
    intros c p [?|[?|[?|[?|[?|[]%elem_of_nil]%elem_of_cons]%elem_of_cons]%elem_of_cons]%elem_of_cons]%elem_of_cons; done.
Qed.

(** ** Synchronising every record *)

Lemma _update_photos_loop_app retries delay expiry keys rest st st' :
  photos_done retries delay expiry keys st st' ->
  _update_photos_loop (keys ++ rest) retries delay expiry st
  = _update_photos_loop rest retries delay expiry st'.
Proof.
  induction 1 as [|c keys st st1 st2 Hone _ IH]; simpl; [done|].
  by rewrite Hone.
Qed.

Lemma _update_photo_rate_limited st contact_url name friend_url w retries delay expiry :
  resolution_fails st contact_url expiry friend_url w ->
  Dict.get contact_url (contacts st) = Some name ->
  exists st',
    _update_photo contact_url retries delay expiry st
    = (Raise (StopIteration ("RATE LIMITED: " +:+ name)), st')
    /\ memory st' = memory st
    /\ world st' = w
    /\ (calls st' = calls st ++ [CallGetUserId friend_url]
        \/ calls st' = calls st ++ [CallNow; CallGetUserId friend_url]).
Proof.
  intros (Hlink & Hf & st1 & found & Hdue & Hid & Hu) Hname.
  unfold _update_photo.
  rewrite (bind_Return _ _ _ _ _ (links_getitem_Some _ _ _ Hlink)).
  rewrite (falsy_Some_false _ Hf).
  rewrite (bind_Return _ _ _ _ _ Hdue). change (negb true) with false. cbv iota.
  erewrite bind_Return; [|unfold get_user_id; simpl; rewrite Hid; reflexivity].
  rewrite Hu. py_unfold.
  apply _should_update_true in Hdue as [[_ ->]|(t & _ & _ & ->)]; simpl;
    rewrite Hname; eexists; split_and!; try reflexivity.
  - by left.
  - right. simpl. by rewrite <- (assoc_L (++)).
Qed.

(** C5. When the friend of a record does not resolve, the loop stops there:
    whatever records follow, the method returns, the failure is printed
    once, the failed call is the last call made, and the checksums, the
    timestamps and the shelf are as the records before left them. *)
Theorem update_photos_rate_limited st keys st1 contact_url name friend_url w
    retries delay expiry :
  photos_done retries delay expiry keys st st1 ->
  resolution_fails st1 contact_url expiry friend_url w ->
  Dict.get contact_url (contacts st1) = Some name ->
  exists st',
    (forall rest,
       _update_photos_loop (keys ++ contact_url :: rest) retries delay expiry st
       = (Return tt, st'))
    /\ stdout st' = stdout st1 ++ ["RATE LIMITED: " +:+ name]
    /\ (calls st' = calls st1 ++ [CallGetUserId friend_url]
        \/ calls st' = calls st1 ++ [CallNow; CallGetUserId friend_url])
    /\ checksums st' = checksums st1
    /\ timestamps st' = timestamps st1
    /\ shelf st' = shelf st1.
Proof.
  intros Hdone Hfail Hname.
  destruct (_update_photo_rate_limited st1 contact_url name friend_url w
              retries delay expiry Hfail Hname)
    as (st2 & Hraise & Hmem & _ & Hcalls).
  injection Hmem as _ _ _ Hck Hts Hsh Hout _.
  exists (with_stdout (stdout st2 ++ ["RATE LIMITED: " +:+ name]) st2).
  split_and!; simpl; try congruence.
  intros rest. rewrite (_update_photos_loop_app _ _ _ _ _ _ _ Hdone).
  simpl. by rewrite Hraise.
Qed.

End Photo.

(** ** Creating links *)

Section Links.
Context {P : Providers}.
Implicit Types (st : @Sink P) (contact_url friend_url name : string).
Local Open Scope py_scope.

Lemma _save_links_Return st st' :
  _save_links st = (Return tt, st') ->
  exists l,
    sorted (@links_sort_key P (contacts st)) (links st) = Return l
    /\ st' = with_shelf (shelf_set_links l (shelf st)) (with_links l st).
Proof.
  unfold _save_links. py_unfold.
  destruct (sorted (@links_sort_key P (contacts st)) (links st)) as [l|e]; [|done].
  intros [= <-]. by exists l.
Qed.

Lemma _print_link_memory st contact_url prefix st' :
  _print_link contact_url prefix st = (Return tt, st') ->
  exists line, st' = with_stdout (stdout st ++ [line]) st.
Proof.
  unfold _print_link. py_unfold.
  destruct (Dict.get contact_url (links st)) as [[f|]|]; [| |done];
    destruct (Dict.get contact_url (contacts st)) as [name|]; try done.
  - destruct (Dict.get f (friends st)) as [friend|]; [|done].
    intros [= <-]. by eexists.
  - intros [= <-]. by eexists.
Qed.

(** What [_add_link] leaves when it returns: the links are those with the
    new item, sorted, in memory and on the shelf. *)
Lemma _add_link_Return st contact_url v st' :
  _add_link contact_url v st = (Return tt, st') ->
  exists l line,
    sorted (@links_sort_key P (contacts st)) (Dict.set contact_url v (links st)) = Return l
    /\ st' = with_stdout (stdout st ++ [line])
               (with_shelf (shelf_set_links l (shelf st)) (with_links l st)).
Proof.
  unfold _add_link. unfold bind at 1. unfold modify at 1. unfold bind at 1.
  destruct (_save_links _) as [ [ [] | e ] st1 ] eqn:Hsave; [|done].
  apply _save_links_Return in Hsave as (l & Hsorted & ->).
  intros Hprint. apply _print_link_memory in Hprint as (line & ->).
  exists l. by exists line.
Qed.

Lemma _add_link_links st contact_url v st' :
  NoDup (Dict.keys (links st)) ->
  _add_link contact_url v st = (Return tt, st') ->
  NoDup (Dict.keys (links st'))
  /\ Dict.get contact_url (links st') = Some v
  /\ (forall c, c <> contact_url -> Dict.get c (links st') = Dict.get c (links st))
  /\ shelf_links (shelf st') = Some (links st')
  /\ contacts st' = contacts st /\ friends st' = friends st.
Proof.
  intros Hnd Hadd. apply _add_link_Return in Hadd as (l & line & Hsorted & ->).
  apply sorted_Permutation in Hsorted. simpl.
  pose proof (dict_NoDup_set _ contact_url v Hnd) as Hnd'.
  split_and!; try done.
  - unfold Dict.keys in *. by rewrite Hsorted.
  - rewrite (dict_get_Permutation _ l) by done. apply dict_get_set_eq.
  - intros c Hc. rewrite (dict_get_Permutation _ l) by done.
    by apply dict_get_set_ne.
Qed.

Lemma top_match_Some matches score_threshold friend_url :
  top_match matches score_threshold = Some friend_url
  <-> exists name rest, matches = (name, score_threshold, friend_url) :: rest.
Proof.
  unfold top_match. destruct matches as [|[[n s] f] rest].
  - split; [done | by intros (? & ? & ?)].
  - destruct (Z.eqb_spec s score_threshold) as [->|Hne]; split.
    + intros [= ->]. exists n, rest. done.
    + by intros (? & ? & [= _ ->]).
    + done.
    + intros (? & ? & [= _ ? _]). done.
Qed.

Lemma top_match_None matches score_threshold :
  top_match matches score_threshold = None
  <-> matches = []
      \/ exists name score friend_url rest,
           matches = (name, score, friend_url) :: rest /\ score <> score_threshold.
Proof.
  unfold top_match. destruct matches as [|[[n s] f] rest].
  - split; [by left | done].
  - destruct (Z.eqb_spec s score_threshold) as [->|Hne]; split.
    + done.
    + intros [?|(? & ? & ? & ? & [= _ <- _] & ?)]; done.
    + intros _. right. exists n, s, f, rest. done.
    + done.
Qed.

(** One round of the first loop of [_update_links]. *)
Lemma _update_links_auto_one_Return update_ignored score_threshold match_limit
    contact_url unlinks st unlinks' st' :
  NoDup (Dict.keys (links st)) ->
  _update_links_auto_one update_ignored score_threshold match_limit contact_url
    unlinks st = (Return unlinks', st') ->
  contacts st' = contacts st /\ friends st' = friends st
  /\ NoDup (Dict.keys (links st'))
  /\ (forall c, c <> contact_url -> Dict.get c (links st') = Dict.get c (links st))
  /\ (unlinks' = unlinks \/ unlinks' = unlinks ++ [contact_url])
  /\ (wants_link update_ignored st contact_url = true ->
      forall name, Dict.get contact_url (contacts st) = Some name ->
      match top_match (process_extract P name (friends st) match_limit)
              score_threshold with
      | Some friend_url =>
          Dict.get contact_url (links st') = Some (Some friend_url)
          /\ unlinks' = unlinks
      | None =>
          Dict.get contact_url (links st') = Dict.get contact_url (links st)
          /\ unlinks' = unlinks ++ [contact_url]
      end).
Proof.
  intros Hnd. unfold _update_links_auto_one, _get_matches.
  unfold bind at 1. unfold get_state at 1.
  destruct (wants_link update_ignored st contact_url).
  - unfold contacts_getitem. py_unfold.
    destruct (Dict.get contact_url (contacts st)) as [name|]; [|done].
    destruct (top_match _ _) as [f|] eqn:Htop.
    + destruct (_add_link _ _ _) as [ [ [] | e ] st1 ] eqn:Hadd; [|done].
      intros [= <- <-].
      destruct (_add_link_links _ _ _ _ Hnd Hadd) as (? & ? & ? & ? & ? & ?).
      split_and!; try done; [by left|].
      intros _ name' [= <-]. by rewrite Htop.
    + intros [= <- <-]. split_and!; try done; [by right|].
      intros _ name' [= <-]. by rewrite Htop.
  - py_unfold. intros [= <- <-]. split_and!; try done. by left.
Qed.

Lemma wants_link_ext update_ignored st st' contact_url :
  Dict.get contact_url (links st') = Dict.get contact_url (links st) ->
  wants_link update_ignored st' contact_url = wants_link update_ignored st contact_url.
Proof. unfold wants_link. by intros ->. Qed.

(** The first loop of [_update_links], over contacts [cs]. *)
Lemma _update_links_auto_Return update_ignored score_threshold match_limit cs :
  NoDup cs ->
  forall unlinks st unlinks' st',
  NoDup (Dict.keys (links st)) ->
  _update_links_auto update_ignored score_threshold match_limit cs unlinks st
  = (Return unlinks', st') ->
  contacts st' = contacts st /\ friends st' = friends st
  /\ NoDup (Dict.keys (links st'))
  /\ (forall c, c ∉ cs ->
        Dict.get c (links st') = Dict.get c (links st)
        /\ (c ∈ unlinks' <-> c ∈ unlinks))
  /\ (forall c name,
        c ∈ cs ->
        wants_link update_ignored st c = true ->
        Dict.get c (contacts st) = Some name ->
        match top_match (process_extract P name (friends st) match_limit)
                score_threshold with
        | Some friend_url =>
            Dict.get c (links st') = Some (Some friend_url)
            /\ (c ∈ unlinks' <-> c ∈ unlinks)
        | None =>
            Dict.get c (links st') = Dict.get c (links st) /\ c ∈ unlinks'
        end).
Proof.
  induction 1 as [|c0 cs Hc0 Hcs IH]; intros unlinks st unlinks' st' Hnd; simpl.
  - py_unfold. intros [= <- <-]. split_and!; try done.
    intros c name Hc. by apply elem_of_nil in Hc.
  - unfold bind at 1.
    destruct (_update_links_auto_one _ _ _ _ _ _) as [[u1|e] st1] eqn:Hone; [|done].
    intros Hrest.
    destruct (_update_links_auto_one_Return _ _ _ _ _ _ _ _ Hnd Hone)
      as (Hcs1 & Hfs1 & Hnd1 & Hoth1 & Hu1 & Hwant1).
    destruct (IH _ _ _ _ Hnd1 Hrest) as (Hcs' & Hfs' & Hnd' & Hout' & Hin').
    assert (Hmem1 : forall c, c <> c0 -> c ∈ u1 <-> c ∈ unlinks).
    { intros c Hc. destruct Hu1 as [->| ->]; [done|].
      rewrite elem_of_app, list_elem_of_singleton. tauto. }
    split_and!; try congruence.
    + intros c [Hcc0 Hc]%not_elem_of_cons.
      destruct (Hout' c Hc) as [-> ->]. split; [by apply Hoth1 | by apply Hmem1].
    + intros c name [->|Hc]%elem_of_cons Hwant Hname.
      * destruct (Hout' c0 Hc0) as [Hget Hmem].
        specialize (Hwant1 Hwant name Hname). rewrite Hget.
        destruct (top_match _ _) as [f|]; destruct Hwant1 as [? ->];
          rewrite Hmem; split; try done.
        rewrite elem_of_app, list_elem_of_singleton. by right.
      * assert (Hne : c <> c0) by (intros ->; contradiction).
        specialize (Hin' c name Hc).
        rewrite (wants_link_ext _ st st1), Hcs1, Hfs1 in Hin' by (by apply Hoth1).
        specialize (Hin' Hwant Hname).
        destruct (top_match _ _) as [f|]; destruct Hin' as [Hg Hm].
        -- split; [done | rewrite Hm; by apply Hmem1].
        -- split; [rewrite Hg; by apply Hoth1 | done].
Qed.

(** C3. In the first loop of [_update_links], a contact without a link (or
    an ignored one, when [update_ignored] is set) gets a link to the best
    match exactly when the score of the best match is equal to the
    threshold, and is queued for the prompt otherwise: when there is no
    match or the score of the best one is any other number. *)
Theorem update_links_auto_exact_score st update_ignored score_threshold match_limit
    unlinks st' :
  NoDup (Dict.keys (contacts st)) ->
  NoDup (Dict.keys (links st)) ->
  _update_links_auto update_ignored score_threshold match_limit
    (Dict.keys (contacts st)) [] st = (Return unlinks, st') ->
  forall contact_url name,
    Dict.get contact_url (contacts st) = Some name ->
    Dict.get contact_url (links st) = None
    \/ (update_ignored = true /\ Dict.get contact_url (links st) = Some None) ->
    let matches := process_extract P name (friends st) match_limit in
    (forall friend_name score friend_url rest,
       matches = (friend_name, score, friend_url) :: rest ->
       score = score_threshold ->
       Dict.get contact_url (links st') = Some (Some friend_url)
       /\ contact_url ∉ unlinks)
    /\ (matches = []
        \/ (exists friend_name score friend_url rest,
              matches = (friend_name, score, friend_url) :: rest
              /\ score <> score_threshold) ->
        contact_url ∈ unlinks
        /\ Dict.get contact_url (links st') = Dict.get contact_url (links st)).
Proof.
  intros Hcs Hnd Hrun contact_url name Hname Hlink matches.
  destruct (_update_links_auto_Return _ _ _ _ Hcs _ _ _ _ Hnd Hrun)
    as (_ & _ & _ & _ & Hin).
  assert (Hwant : wants_link update_ignored st contact_url = true).
  { unfold wants_link. destruct Hlink as [->|[-> ->]]; [done|].
    by rewrite bool_decide_eq_true_2. }
  assert (Hkey : contact_url ∈ Dict.keys (contacts st)).
  { destruct (decide (contact_url ∈ Dict.keys (contacts st))) as [|Hn]; [done|].
    apply dict_get_None in Hn. congruence. }
  specialize (Hin contact_url name Hkey Hwant Hname). fold matches in Hin.
  split.
  - intros friend_name score friend_url rest Hm ->.
    assert (Htop : top_match matches score_threshold = Some friend_url).
    { apply top_match_Some. by exists friend_name, rest. }
    rewrite Htop in Hin. destruct Hin as [Hget Hmem]. split; [done|].
    rewrite Hmem. apply not_elem_of_nil.
  - intros Hnone%top_match_None. rewrite Hnone in Hin. by destruct Hin.
Qed.

End Links.

(** ** The prompt *)

Section Prompt.
Context {P : Providers}.
Implicit Types (st : @Sink P) (contact_url friend_url name line : string).
Local Open Scope py_scope.

(** [_get_link_prompt] reads its lines as [input] does: the prompt is
    written, then the first line of [stdin] is taken, or [EOFError] is raised
    when there is none. *)
Lemma input_line st prompt line rest :
  stdin st = line :: rest ->
  input prompt st
  = (Return line, with_stdin rest (with_stdout (stdout st ++ [prompt]) st)).
Proof. intros Hin. unfold input. py_unfold. simpl. by rewrite Hin. Qed.

Lemma input_eof st prompt :
  stdin st = [] ->
  input prompt st = (Raise EOFError, with_stdout (stdout st ++ [prompt]) st).
Proof. intros Hin. unfold input. py_unfold. simpl. by rewrite Hin. Qed.

Lemma print_matches_Return i matches st :
  exists lines,
    print_matches i matches st = (Return tt, with_stdout (stdout st ++ lines) st).
Proof.
  revert i st. induction matches as [|[[n s] f] matches IH]; intros i st; simpl.
  - exists []. py_unfold. rewrite app_nil_r. by destruct st.
  - py_unfold. edestruct IH as [lines ->]. simpl.
    eexists (_ :: lines). by rewrite <- (assoc_L (++)).
Qed.

Lemma isdigit_nonempty line : isdigit line = true -> line <> "".
Proof. by intros H ->. Qed.

Lemma _get_link_prompt_Return contact_url score_threshold match_limit auto_match inp :
  forall matches st st',
  NoDup (Dict.keys (links st)) ->
  _get_link_prompt inp contact_url score_threshold match_limit auto_match matches st
  = (Return tt, st') ->
  exists typed last rest v,
    inp = typed ++ last :: rest
    /\ stdin st' = rest
    /\ Forall (prompts_again (P := P) (friends st) score_threshold match_limit auto_match) typed
    /\ ends_on (P := P) (friends st) score_threshold match_limit auto_match
         (shown_after (P := P) (friends st) match_limit typed matches) last v
    /\ Dict.get contact_url (links st') = Some v.
Proof.
  induction inp as [|command inp IH]; intros matches st st' Hnd; simpl.
  - py_unfold. done.
  - unfold bind at 1. unfold print at 1. unfold modify at 1.
    unfold bind at 1. unfold modify at 1.
    set (st0 := with_stdin inp (with_stdout (stdout st ++ ["> "]) st)).
    assert (Hnd0 : NoDup (Dict.keys (links st0))) by done.
    destruct (accepted match_limit command) eqn:Hacc.
    + destruct (String.eqb_spec command "") as [->|Hne].
      { intros Hadd. destruct (_add_link_links _ _ _ _ Hnd0 Hadd) as (_ & Hget & _).
        apply _add_link_Return in Hadd as (l & out & _ & ->).
        exists [], "", inp, None. split_and!; try done. by left. }
      destruct (isdigit command) eqn:Hdig.
      { destruct (nth_error matches _) as [[[n s] f]|] eqn:Hnth; [|done].
        intros Hadd. destruct (_add_link_links _ _ _ _ Hnd0 Hadd) as (_ & Hget & _).
        apply _add_link_Return in Hadd as (l & out & _ & ->).
        exists [], command, inp, (Some f). split_and!; try done.
        right; left. unfold accepted in Hacc. rewrite Hdig in Hacc. simpl in Hacc.
        apply andb_true_iff in Hacc as [?%Z.ltb_lt ?%Z.leb_le].
        split_and!; try done. by exists n, s, f. }
      unfold _get_link_search, _get_matches. py_unfold.
      change (friends st0) with (friends st).
      destruct auto_match eqn:Hauto;
        [destruct (top_match _ _) as [f|] eqn:Htop|].
      { intros Hadd. destruct (_add_link_links _ _ _ _ Hnd0 Hadd) as (_ & Hget & _).
        apply _add_link_Return in Hadd as (l & out & _ & ->).
        exists [], command, inp, (Some f). split_and!; try done.
        right; right. split_and!; try done. by exists f. }
      all: destruct (print_matches_Return 0 (process_extract P command (friends st)
                       match_limit) st0) as [lines ->].
      all: intros Hrun; apply IH in Hrun as (typed & last & rest & v & -> & ? & ? & ? & ?);
             [|done].
      all: exists (command :: typed), last, rest, v; simpl; rewrite Hdig.
      all: split_and!; try done.
      all: apply Forall_cons; split; [|done].
      all: right; split_and!; try done; first [by left | by right].
    + intros Hrun. apply IH in Hrun as (typed & last & rest & v & -> & ? & ? & ? & ?);
        [|done].
      exists (command :: typed), last, rest, v. simpl.
      assert (Hdig : isdigit command = true).
      { unfold accepted in Hacc. by destruct (isdigit command). }
      rewrite Hdig. split_and!; try done.
      apply Forall_cons. split; [by left | done].
Qed.

(** C8, as the code has it, for lines typed in ASCII (on other lines
    [str.isdigit] and [int] are not the [isdigit] and [int] of this file).
    When [_get_link] returns it has read lines up
    to the first one that is empty, or a number from 1 to [match_limit], or,
    with [auto_match], a name whose best match has exactly the threshold as
    score; it may also return before any line is read, when [auto_match] is
    set and the name of the contact has such a match.  The link it made is
    [None] for the empty line, the friend listed at that number for a
    number, and the best match for a name; the list on the screen is that
    of the last name typed. *)
Theorem get_link_ends st contact_url score_threshold match_limit auto_match st' :
  NoDup (Dict.keys (links st)) ->
  Forall (fun line => ascii_only line = true) (stdin st) ->
  _get_link contact_url score_threshold match_limit auto_match st = (Return tt, st') ->
  exists name,
    Dict.get contact_url (contacts st) = Some name
    /\ let first := process_extract P name (friends st) match_limit in
       (auto_match = true /\ stdin st' = stdin st
        /\ exists friend_url,
             top_match first score_threshold = Some friend_url
             /\ Dict.get contact_url (links st') = Some (Some friend_url))
       \/ ((auto_match = false \/ top_match first score_threshold = None)
           /\ exists typed last rest v,
                stdin st = typed ++ last :: rest
                /\ stdin st' = rest
                /\ Forall (prompts_again (P := P) (friends st) score_threshold match_limit
                             auto_match) typed
                /\ ends_on (P := P) (friends st) score_threshold match_limit auto_match
                     (shown_after (P := P) (friends st) match_limit typed first) last v
                /\ Dict.get contact_url (links st') = Some v).
Proof.
  intros Hnd _. unfold _get_link, _get_link_search, _get_matches, contacts_getitem.
  py_unfold.
  destruct (Dict.get contact_url (contacts st)) as [name|]; [|done].
  intros Hrun. exists name. split; [done|]. simpl in *.
  set (st0 := with_stdout (stdout st ++ [name]) st) in *.
  assert (Hnd0 : NoDup (Dict.keys (links st0))) by done.
  change (friends st0) with (friends st) in Hrun.
  destruct auto_match eqn:Hauto;
    [destruct (top_match _ _) as [f|] eqn:Htop|].
  { left. destruct (_add_link_links _ _ _ _ Hnd0 Hrun) as (_ & Hget & _).
    apply _add_link_Return in Hrun as (l & out & _ & ->).
    split_and!; try done. by exists f. }
  all: right; split; [first [by left | by right]|].
  all: destruct (print_matches_Return 0 (process_extract P name (friends st)
                   match_limit) st0) as [lines Hprint]; rewrite Hprint in Hrun.
  all: by apply _get_link_prompt_Return in Hrun.
Qed.

End Prompt.

(** ** The thread pool *)

Section PoolFacts.
Context {P : Providers}.
Implicit Types (st : @Sink P) (futures : list (string * Future)) (p : @Pool P).

Lemma all_done_lookup futures i f :
  forallb is_done futures = true -> futures !! i = Some f -> is_done f = true.
Proof.
  revert i. induction futures as [|x futures IH]; intros [|i]; simpl; try done.
  - intros [? _]%andb_true_iff [= <-]. done.
  - intros [_ ?]%andb_true_iff. by apply IH.
Qed.

Lemma all_done_delete futures i f :
  futures !! i = Some f -> is_done f = true ->
  forallb is_done (delete i futures) = true -> forallb is_done futures = true.
Proof.
  revert i. induction futures as [|x futures IH]; intros [|i]; simpl; try done.
  - intros [= ->] -> ->. done.
  - intros Hf Hd [-> ?]%andb_true_iff. simpl. by apply (IH i).
Qed.

Lemma delete_insert_same futures i f : delete i (<[i := f]> futures) = delete i futures.
Proof.
  revert i. induction futures as [|x futures IH]; intros [|i]; simpl; try done.
  by rewrite IH.
Qed.

Lemma delete_snoc futures f : delete (length futures) (futures ++ [f]) = futures.
Proof. induction futures as [|x futures IH]; simpl; [done | by rewrite IH]. Qed.

Lemma busy_workers_all_done futures :
  forallb is_done futures = true -> busy_workers futures = 0.
Proof.
  unfold busy_workers. induction futures as [|[c f] futures IH]; simpl; [done|].
  intros [Hd ?]%andb_true_iff. rewrite filter_cons.
  destruct f; try done. rewrite decide_False by (simpl; auto). by apply IH.
Qed.

Lemma busy_workers_one futures i f :
  futures !! i = Some f ->
  forallb is_done (delete i futures) = true ->
  busy_workers futures = if is_running f then 1 else 0.
Proof.
  unfold busy_workers. revert i.
  induction futures as [|x futures IH]; intros [|i]; simpl; try done.
  - intros [= ->] Hd. rewrite filter_cons.
    apply busy_workers_all_done in Hd. unfold busy_workers in Hd.
    destruct (is_running f) eqn:Hr.
    + rewrite decide_True by done. simpl. by rewrite Hd.
    + rewrite decide_False by (by intros []). done.
  - intros Hf [Hx Hd]%andb_true_iff. rewrite filter_cons.
    rewrite decide_False; [by apply (IH i)|].
    destruct x as [c []]; simpl in *; try done. by intros [].
Qed.

Lemma print_Return st line : fst (print line st) = Return tt.
Proof. reflexivity. Qed.

(** A step of the pool does not change what the method is going to return
    and leave. *)
Lemma pool_step_outcome retries delay expiry p p' o :
  pool_step retries delay expiry p p' ->
  pool_outcome retries delay expiry p = Some o ->
  pool_outcome retries delay expiry p' = Some o.
Proof.
  destruct 1 as [c keys futures st | futures st | main futures st i c Hi Hbusy
    | main futures st i c r st' Hi Hrun | i keys futures st c a Hi
    | i keys futures st c cause Hi | i keys futures st c e Hi He | futures st Hall];
    unfold pool_outcome; simpl.
  - destruct (forallb is_done futures) eqn:Hall; [|done]. intros <-.
    rewrite lookup_app_r, Nat.sub_diag by done. simpl.
    by rewrite delete_snoc, Hall.
  - destruct (forallb is_done futures); [|done]. by intros <-.
  - assert (Hq : forallb is_done futures = false).
    { destruct (forallb is_done futures) eqn:Hall; [|done].
      by apply (all_done_lookup _ _ _ Hall) in Hi. }
    destruct main as [keys|j keys| |r]; rewrite ?Hq; try done.
    destruct (futures !! j) as [[cj fj]|] eqn:Hj; [|done].
    destruct (forallb is_done (delete j futures)) eqn:Hothers; [|done].
    destruct (decide (i = j)) as [->|Hne].
    + rewrite list_lookup_insert_eq by (by eapply lookup_lt_Some).
      rewrite delete_insert_same, Hothers. rewrite Hi in Hj. by injection Hj as <- <-.
    + exfalso. assert (Hd : is_done (c, Queued) = true); [|done].
      apply (all_done_lookup (delete j futures) (if decide (i < j) then i else pred i));
        [done|].
      case_decide.
      * by rewrite list_lookup_delete_lt.
      * rewrite list_lookup_delete_ge by lia.
        replace (S (pred i)) with i by lia. done.
  - assert (Hq : forallb is_done futures = false).
    { destruct (forallb is_done futures) eqn:Hall; [|done].
      by apply (all_done_lookup _ _ _ Hall) in Hi. }
    destruct main as [keys|j keys| |r0]; rewrite ?Hq; try done.
    destruct (futures !! j) as [[cj fj]|] eqn:Hj; [|done].
    destruct (forallb is_done (delete j futures)) eqn:Hothers; [|done].
    destruct (decide (i = j)) as [->|Hne].
    + rewrite list_lookup_insert_eq by (by eapply lookup_lt_Some).
      rewrite delete_insert_same, Hothers. rewrite Hi in Hj. injection Hj as <- <-.
      intros <-. simpl. rewrite Hrun. by destruct r as [[]|[]].
    + exfalso. assert (Hd : is_done (c, Running) = true); [|done].
      apply (all_done_lookup (delete j futures) (if decide (i < j) then i else pred i));
        [done|].
      case_decide.
      * by rewrite list_lookup_delete_lt.
      * rewrite list_lookup_delete_ge by lia.
        replace (S (pred i)) with i by lia. done.
  - rewrite Hi. destruct (forallb is_done (delete i futures)) eqn:Hothers; [|done].
    by rewrite (all_done_delete _ _ _ Hi eq_refl Hothers).
  - rewrite Hi. destruct (forallb is_done (delete i futures)) eqn:Hothers; [|done].
    rewrite (all_done_delete _ _ _ Hi eq_refl Hothers). intros <-.
    reflexivity.
  - rewrite Hi. destruct (forallb is_done (delete i futures)) eqn:Hothers; [|done].
    rewrite (all_done_delete _ _ _ Hi eq_refl Hothers). by destruct e.
  - by rewrite Hall.
Qed.

(** While the method has an outcome ahead, at most one future is not done:
    the one the main thread waits for. *)
Lemma pool_outcome_busy retries delay expiry p o :
  pool_outcome retries delay expiry p = Some o ->
  busy_workers (pool_futures p) <= 1.
Proof.
  unfold pool_outcome. destruct p as [[keys|i keys| |r] futures st]; simpl.
  2: { destruct (futures !! i) as [[c f]|] eqn:Hi; [|done].
       destruct (forallb is_done (delete i futures)) eqn:Hothers; [|done].
       intros _. rewrite (busy_workers_one _ _ _ Hi Hothers).
       destruct (is_running _); lia. }
  all: destruct (forallb is_done futures) eqn:Hall; [|done].
  all: intros _; rewrite busy_workers_all_done by done; lia.
Qed.

Lemma shutting_down_finishes retries delay expiry futures st :
  forallb is_done futures = true ->
  finishes_with retries delay expiry
    {| pool_main := ShuttingDown; pool_futures := futures; pool_sink := st |}
    (Return tt, st).
Proof.
  intros Hall. eexists. split; [apply rtc_once; by apply step_shutdown | done].
Qed.

(** From [future.result()] on, given that the loop finishes from its head
    on the keys left. *)
Lemma waiting_finishes retries delay expiry keys :
  (forall futures st,
     forallb is_done futures = true ->
     finishes_with retries delay expiry
       {| pool_main := Submitting keys; pool_futures := futures; pool_sink := st |}
       (_update_photos_loop keys retries delay expiry st)) ->
  forall i futures st o,
    pool_outcome retries delay expiry
      {| pool_main := Waiting i keys; pool_futures := futures; pool_sink := st |}
    = Some o ->
    finishes_with retries delay expiry
      {| pool_main := Waiting i keys; pool_futures := futures; pool_sink := st |} o.
Proof.
  intros Hhead i futures st o. unfold pool_outcome. simpl.
  destruct (futures !! i) as [[c f]|] eqn:Hi; [|done].
  destruct (forallb is_done (delete i futures)) eqn:Hothers; [|done].
  assert (Hlt : i < length futures) by (by eapply lookup_lt_Some).
  assert (Hdone : forall r st',
    finishes_with retries delay expiry
      {| pool_main := Waiting i keys;
         pool_futures := <[i := (c, Done r)]> futures; pool_sink := st' |}
      match r with
      | Return _ => _update_photos_loop keys retries delay expiry st'
      | Raise (StopIteration cause) => print cause st'
      | Raise e => (Raise e, st')
      end).
  { intros r st'.
    assert (Hr : <[i := (c, Done r)]> futures !! i = Some (c, Done r))
      by (by apply list_lookup_insert_eq).
    assert (Hall : forallb is_done (<[i := (c, Done r)]> futures) = true).
    { apply (all_done_delete _ i _ Hr eq_refl). by rewrite delete_insert_same. }
    destruct r as [a|e].
    - destruct (Hhead _ st' Hall) as (p' & Hsteps & Hp').
      exists p'. split; [|done]. eapply rtc_l; [|exact Hsteps].
      by eapply step_result_return.
    - destruct (is_StopIteration e) eqn:He.
      + destruct e as [cause| | | | | | |]; try done.
        destruct (shutting_down_finishes retries delay expiry _ (snd (print cause st')) Hall)
          as (p' & Hsteps & Hp').
        exists p'. split; [|done]. eapply rtc_l; [|exact Hsteps].
        by eapply step_result_stop.
      + eexists. split; [apply rtc_once; by eapply step_result_raise|].
        by destruct e. }
  assert (Hrunning : forall futures1,
    futures1 !! i = Some (c, Running) ->
    <[i := (c, Running)]> futures = <[i := (c, Running)]> futures1 ->
    finishes_with retries delay expiry
      {| pool_main := Waiting i keys; pool_futures := futures1; pool_sink := st |}
      (_update_photos_loop (c :: keys) retries delay expiry st)).
  { intros futures1 H1 Heq. simpl.
    destruct (_update_photo c retries delay expiry st) as [r st'] eqn:Hrun.
    destruct (Hdone r st') as (p' & Hsteps & Hp').
    exists p'. split; [|by destruct r as [[]|[]]].
    eapply rtc_l; [by eapply step_worker_run|].
    replace (<[i := (c, Done r)]> futures1) with (<[i := (c, Done r)]> futures);
      [done|].
    rewrite <- (list_insert_insert_eq futures i (c, Done r) (c, Running)), Heq.
    by rewrite list_insert_insert_eq. }
  destruct f as [| |r].
  - intros [= <-].
    destruct (Hrunning (<[i := (c, Running)]> futures)) as (p' & Hsteps & Hp').
    { by apply list_lookup_insert_eq. }
    { by rewrite list_insert_insert_eq. }
    exists p'. split; [|done]. eapply rtc_l; [|exact Hsteps].
    apply step_worker_start; [done|].
    rewrite (busy_workers_one _ _ _ Hi Hothers). unfold QTY_THREADS. simpl. lia.
  - intros [= <-]. by apply Hrunning.
  - intros Ho. specialize (Hdone r st).
    rewrite list_insert_id in Hdone by done.
    by destruct r as [[]|[]]; injection Ho as <-.
Qed.

Lemma submitting_finishes retries delay expiry keys :
  forall futures st,
    forallb is_done futures = true ->
    finishes_with retries delay expiry
      {| pool_main := Submitting keys; pool_futures := futures; pool_sink := st |}
      (_update_photos_loop keys retries delay expiry st).
Proof.
  induction keys as [|c keys IH]; intros futures st Hall.
  - destruct (shutting_down_finishes retries delay expiry futures st Hall)
      as (p' & Hsteps & Hp').
    exists p'. split; [|done]. eapply rtc_l; [apply step_loop_end | exact Hsteps].
  - destruct (waiting_finishes retries delay expiry keys IH (length futures)
                (futures ++ [(c, Queued)]) st
                (_update_photos_loop (c :: keys) retries delay expiry st))
      as (p' & Hsteps & Hp').
    { unfold pool_outcome. simpl.
      rewrite lookup_app_r, Nat.sub_diag by done. simpl.
      by rewrite delete_snoc, Hall. }
    exists p'. split; [|done]. eapply rtc_l; [apply step_submit | exact Hsteps].
Qed.

Lemma pool_outcome_finishes retries delay expiry p o :
  pool_outcome retries delay expiry p = Some o ->
  finishes_with retries delay expiry p o.
Proof.
  destruct p as [[keys|i keys| |r] futures st].
  - unfold pool_outcome. simpl.
    destruct (forallb is_done futures) eqn:Hall; [|done].
    intros [= <-]. by apply submitting_finishes.
  - apply waiting_finishes, submitting_finishes.
  - unfold pool_outcome. simpl.
    destruct (forallb is_done futures) eqn:Hall; [|done].
    intros [= <-]. by apply shutting_down_finishes.
  - unfold pool_outcome. simpl.
    destruct (forallb is_done futures) eqn:Hall; [|done].
    intros [= <-]. eexists. by split; [apply rtc_refl|].
Qed.

(** C10. However the workers of the pool are scheduled, [_update_photos]
    on its thread pool is the plain loop over the links: in every state the
    pool can reach at most one worker is busy, the method can still run to
    its end, and when the method has ended it has returned or raised what
    the loop does and left the object as the loop does. *)
Theorem update_photos_pool_is_sequential retries delay expiry keys st p :
  rtc (pool_step retries delay expiry) (pool_start keys st) p ->
  busy_workers (pool_futures p) <= 1
  /\ (exists p', rtc (pool_step retries delay expiry) p p'
                /\ exists r, pool_main p' = Finished r)
  /\ (forall r, pool_main p = Finished r ->
        (r, pool_sink p) = _update_photos_loop keys retries delay expiry st).
Proof.
  intros Hreach.
  assert (Hout : pool_outcome retries delay expiry p
                 = Some (_update_photos_loop keys retries delay expiry st)).
  { revert p Hreach. apply rtc_ind_r; [done|].
    intros p1 p2 _ Hstep Hp1. by eapply pool_step_outcome. }
  split_and!.
  - by eapply pool_outcome_busy.
  - destruct (pool_outcome_finishes _ _ _ _ _ Hout) as (p' & Hsteps & Hmain & _).
    exists p'. split; [done|]. by eexists.
  - intros r Hr. unfold pool_outcome in Hout. rewrite Hr in Hout.
    destruct (forallb is_done (pool_futures p)); [|done]. by injection Hout.
Qed.

End PoolFacts.

(** ** What reconciliation and deletion do not do *)

Section Shelf.
Context {P : Providers}.
Implicit Types (st : @Sink P) (contact_url : string).
Local Open Scope py_scope.

(** [_clean_links] never writes to the shelf. *)
Lemma _clean_links_loop_shelf keys st r st' :
  _clean_links_loop keys st = (r, st') -> shelf st' = shelf st.
Proof.
  revert st. induction keys as [|c keys IH]; intros st; simpl.
  - by intros [= _ <-].
  - unfold bind at 1.
    destruct (_clean_link c st) as [[[]|e] st1] eqn:Hone.
    + intros Hrest. rewrite (IH _ Hrest). clear Hrest IH.
      revert Hone. unfold _clean_link. py_unfold.
      destruct (negb (Dict.mem c (contacts st))).
      * destruct (Dict.mem c (links st)); [|done].
        intros [= <-]. by repeat case_decide.
      * destruct (Dict.get c (links st)) as [[f|]|]; try done.
        -- destruct (negb (Dict.mem f (friends st))).
           ++ destruct (Dict.mem c (links st)); [|done].
              intros [= <-]. by repeat case_decide.
           ++ by intros [= <-].
        -- by intros [= <-].
    + intros [= _ <-]. revert Hone. unfold _clean_link. py_unfold.
      destruct (negb (Dict.mem c (contacts st))).
      * destruct (Dict.mem c (links st)); [done|]. by intros [= _ <-].
      * destruct (Dict.get c (links st)) as [[f|]|]; try done.
        -- destruct (negb (Dict.mem f (friends st))); [|done].
           destruct (Dict.mem c (links st)); [done|]. by intros [= _ <-].
        -- by intros [= _ <-].
Qed.

(** [_delete_links] empties the links, in memory and on the shelf, and
    leaves the checksums and the timestamps where they are; [_clean_links]
    then finds no link to go through. *)
Lemma _delete_links_then_clean st :
  exists st',
    (_delete_links ;; _clean_links) st = (Return tt, st')
    /\ links st' = [] /\ shelf_links (shelf st') = Some []
    /\ checksums st' = checksums st /\ timestamps st' = timestamps st
    /\ shelf_checksums (shelf st') = shelf_checksums (shelf st)
    /\ shelf_timestamps (shelf st') = shelf_timestamps (shelf st).
Proof. eexists. split; [reflexivity|]. by simpl. Qed.

(** The other methods that change a map write it to the shelf at once. *)
Lemma _set_checksum_write_through st contact_url checksum :
  exists st',
    _set_checksum contact_url checksum st = (Return tt, st')
    /\ checksums st' = <[contact_url := checksum]> (checksums st)
    /\ shelf_checksums (shelf st') = Some (checksums st').
Proof. by eexists. Qed.

Lemma _set_timestamp_write_through st contact_url :
  exists st',
    _set_timestamp contact_url st = (Return tt, st')
    /\ timestamps st' = <[contact_url := fst (datetime_now P (world st))]> (timestamps st)
    /\ shelf_timestamps (shelf st') = Some (timestamps st').
Proof.
  unfold _set_timestamp, now. py_unfold.
  destruct (datetime_now P (world st)) as [n w]. by eexists.
Qed.

Lemma _save_links_write_through st st' :
  _save_links st = (Return tt, st') -> shelf_links (shelf st') = Some (links st').
Proof. intros H. by apply _save_links_Return in H as (l & _ & ->). Qed.

End Shelf.

(** ** The claims on a run *)

Module Runs.
Import Demo.
Local Open Scope py_scope.

(** C1. Jane is linked, with a checksum and a timestamp.  After
    [_delete_links] and [_clean_links] the links are empty, in memory and
    on the shelf, but her checksum and her timestamp are still there. *)
Theorem delete_links_leaves_checksums :
  let st := loaded_sink [("c/jane", Some "/jane")] {["c/jane" := "2"]}
              {["c/jane" := 0%Z]} 1000 in
  exists st',
    (_delete_links ;; _clean_links) st = (Return tt, st')
    /\ links st' = [] /\ shelf_links (shelf st') = Some []
    /\ checksums st' !! "c/jane" = Some "2"
    /\ timestamps st' !! "c/jane" = Some 0%Z
    /\ shelf_checksums (shelf st') = Some {["c/jane" := "2"]}
    /\ shelf_timestamps (shelf st') = Some {["c/jane" := 0%Z]}.
Proof.
  intros st.
  destruct (_delete_links_then_clean st) as (st' & Hrun & Hl & Hsl & Hc & Ht & Hsc & Hst).
  exists st'. rewrite Hc, Ht, Hsc, Hst. by split_and!.
Qed.

(** C4. Jane is linked to a friend who is gone, and the shelf holds what
    the memory holds.  [_clean_links] drops her link, her checksum and her
    timestamp from memory and writes nothing: the three maps on the shelf
    are no longer those in memory. *)
Theorem clean_links_is_not_persisted :
  let st := loaded_sink [("c/jane", Some "/unfriended")] {["c/jane" := "2"]}
              {["c/jane" := 0%Z]} 1000 in
  exists st',
    _clean_links st = (Return tt, st')
    /\ links st' = [] /\ checksums st' = ∅ /\ timestamps st' = ∅
    /\ shelf_links (shelf st') = Some [("c/jane", Some "/unfriended")]
    /\ shelf_checksums (shelf st') = Some {["c/jane" := "2"]}
    /\ shelf_timestamps (shelf st') = Some {["c/jane" := 0%Z]}
    /\ shelf_links (shelf st') <> Some (links st')
    /\ shelf_checksums (shelf st') <> Some (checksums st')
    /\ shelf_timestamps (shelf st') <> Some (timestamps st').
Proof.
  intros st. eexists. split; [vm_compute; reflexivity|].
  split_and!; try (vm_compute; reflexivity); vm_compute; discriminate.
Qed.

(** Decides a closed [NoDup]. *)
Ltac nodup := apply (bool_decide_unpack _); vm_compute; exact I.



(** The first loop on the five contacts, none of them linked yet: Jane has
    a friend of her name, Nick has none. *)
Lemma update_links_auto_run :
  let st := sink [] ∅ ∅ [] 0 in
  let run := _update_links_auto false 100 5 (Dict.keys (contacts st)) [] st in
  let unlinks := match fst run with Return u => u | Raise _ => [] end in
  (Dict.get "c/jane" (links (snd run)) = Some (Some "/jane") /\ "c/jane" ∉ unlinks)
  /\ ("c/nick" ∈ unlinks
      /\ Dict.get "c/nick" (links (snd run)) = Dict.get "c/nick" (links st)).
Proof.
  intros st run unlinks.
  assert (Hrun : _update_links_auto false 100 5 (Dict.keys (contacts st)) [] st
                 = (Return unlinks, snd run)) by (vm_compute; reflexivity).
  assert (Hcs : NoDup (Dict.keys (contacts st))) by nodup.
  assert (Hls : NoDup (Dict.keys (links st))) by nodup.
  split.
  - destruct (update_links_auto_exact_score st false 100 5 unlinks (snd run)
                Hcs Hls Hrun "c/jane" "Jane Doe" eq_refl (or_introl eq_refl))
      as [Hlinked _].
    eapply Hlinked; [vm_compute; reflexivity | reflexivity].
  - destruct (update_links_auto_exact_score st false 100 5 unlinks (snd run)
                Hcs Hls Hrun "c/nick" "Nick Name" eq_refl (or_introl eq_refl))
      as [_ Hqueued].
    apply Hqueued. right. do 4 eexists.
    split; [vm_compute; reflexivity | discriminate].
Defined.

(** Jane is synced, then the page of Bob does not resolve. *)
Lemma update_photos_rate_limited_run :
  let st := sink [("c/jane", Some "/jane"); ("c/broken", Some "/bob");
                  ("c/john", Some "/john")] ∅ ∅ [] 1000 in
  let st1 := snd (_update_photo "c/jane" 3 0 30 st) in
  exists st',
    (forall rest,
       _update_photos_loop (["c/jane"] ++ "c/broken" :: rest) 3 0 30 st
       = (Return tt, st'))
    /\ stdout st' = stdout st1 ++ ["RATE LIMITED: " +:+ "Bob Broken"]
    /\ (calls st' = calls st1 ++ [CallGetUserId "/bob"]
        \/ calls st' = calls st1 ++ [CallNow; CallGetUserId "/bob"])
    /\ checksums st' = checksums st1
    /\ timestamps st' = timestamps st1
    /\ shelf st' = shelf st1.
Proof.
  intros st st1.
  apply (update_photos_rate_limited st ["c/jane"] st1 "c/broken" "Bob Broken" "/bob"
           1000%Z 3 0 30).
  - apply photos_done_cons with st1; [vm_compute; reflexivity | apply photos_done_nil].
  - split_and!; [vm_compute; reflexivity | done |].
    exists st1, None. split_and!; vm_compute; reflexivity.
  - vm_compute. reflexivity.
Defined.

(** Google refuses the photo of Bob three times. *)
Lemma update_photo_failed_run :
  let st := sink [("c/broken", Some "/jane")] ∅ ∅ [] 1000 in
  exists st',
    _update_photo "c/broken" 3 0 30 st = (Return tt, st')
    /\ stdout st' = stdout st ++ ["FAILED: " +:+ "Bob Broken"]
    /\ timestamps st'
       = <["c/broken" :=
             fst (datetime_now providers
                    (world_after_attempts (P := providers) "c/broken" jane_picture
                       (Z.to_nat 3) 1000%Z))]>
           (timestamps st)
    /\ shelf_timestamps (shelf st') = Some (timestamps st')
    /\ checksums st' = checksums st
    /\ shelf_checksums (shelf st') = shelf_checksums (shelf st).
Proof.
  intros st.
  apply (update_photo_failed st "c/broken" "Bob Broken" "/jane" "1001" 1000%Z
           jane_picture 1000%Z 3 0 30).
  - split_and!; [reflexivity | done |]. exists st. by split_and!.
  - reflexivity.
  - reflexivity.
  - vm_compute. discriminate.
  - vm_compute. by split_and!.
  - split; [unfold SLEEP_MAX; lia | reflexivity].
Defined.

(** Jane after thirty-one days, with the picture she had. *)
Lemma update_photo_unchanged_run :
  let t := (31 * DAY)%Z in
  let st := sink [("c/jane", Some "/jane")] {["c/jane" := "2"]} {["c/jane" := 0%Z]}
              [] t in
  exists st',
    _update_photo "c/jane" 3 0 30 st = (Return tt, st')
    /\ stdout st' = stdout st ++ ["UNCHANGED: " +:+ "Jane Doe"]
    /\ (exists made, calls st' = calls st ++ made
          /\ forall c p, CallUpdatePhoto c p ∉ made)
    /\ timestamps st' = <["c/jane" := fst (datetime_now providers t)]> (timestamps st)
    /\ shelf_timestamps (shelf st') = Some (timestamps st')
    /\ checksums st' = checksums st.
Proof.
  intros t st.
  apply (update_photo_unchanged st "c/jane" "Jane Doe" "/jane" "1001" t
           jane_picture t 3 0 30).
  - split_and!; [reflexivity | done |].
    exists (@with_call providers CallNow t st). split_and!; [vm_compute; reflexivity | reflexivity | done].
  - reflexivity.
  - reflexivity.
  - vm_compute. reflexivity.
  - split; [unfold SLEEP_MAX; lia | reflexivity].
Defined.

(** C8, as the specification has it, fails.  With [auto_match], Nick has no
    friend of his name; the operator types the name of Jane, whose best
    match has the threshold as score: [_get_link] links Nick to her and
    returns, and the one line it has read is neither empty nor a number. *)
Lemma get_link_ends_on_a_name :
  let st := sink [] ∅ ∅ ["Jane Doe"; "1"] 0 in
  exists st',
    _get_link "c/nick" 100 5 true st = (Return tt, st')
    /\ stdin st = "Jane Doe" :: stdin st'
    /\ "Jane Doe" <> "" /\ isdigit "Jane Doe" = false
    /\ links st' = [("c/nick", Some "/jane")].
Proof.
  intros st. eexists. split; [vm_compute; reflexivity|].
  split_and!; try reflexivity. discriminate.
Qed.

(** A number out of range, a name, then the second friend listed. *)
Lemma get_link_run :
  let st := sink [] ∅ ∅ ["9"; "Zed Gone"; "2"] 0 in
  let st' := snd (_get_link "c/jane" 100 5 false st) in
  exists name,
    Dict.get "c/jane" (contacts st) = Some name
    /\ let first := process_extract providers name (friends st) 5 in
       (false = true /\ stdin st' = stdin st
        /\ exists friend_url,
             top_match first 100 = Some friend_url
             /\ Dict.get "c/jane" (links st') = Some (Some friend_url))
       \/ ((false = false \/ top_match first 100 = None)
           /\ exists typed last rest v,
                stdin st = typed ++ last :: rest
                /\ stdin st' = rest
                /\ Forall (prompts_again (P := providers) (friends st) 100 5 false) typed
                /\ ends_on (P := providers) (friends st) 100 5 false
                     (shown_after (P := providers) (friends st) 5 typed first) last v
                /\ Dict.get "c/jane" (links st') = Some v).
Proof.
  intros st st'.
  apply (get_link_ends st "c/jane" 100 5 false st').
  - nodup.
  - repeat constructor.
  - vm_compute. reflexivity.
Defined.

(** Four links, two of them stale. *)
Lemma clean_links_run :
  let st := sink [("c/gone", Some "/jane"); ("c/jane", Some "/unfriended");
                  ("c/john", None); ("c/zed", Some "/zed")]
              {["c/jane" := "2"]} {["c/jane" := 0%Z]} [] 1000 in
  exists st1,
    _clean_links st = (Return tt, st1)
    /\ _clean_links st1 = (Return tt, st1)
    /\ (_clean_links ;; _clean_links) st = _clean_links st.
Proof. intros st. apply (clean_links_idempotent st). nodup. Defined.

(** The pool after [submit] and the start of a worker on Jane. *)
Lemma update_photos_pool_run :
  let st := sink [("c/jane", Some "/jane"); ("c/john", Some "/john")] ∅ ∅ [] 1000 in
  let p := {| pool_main := Waiting 0 ["c/john"];
              pool_futures := [("c/jane", Running)]; pool_sink := st |} in
  busy_workers (pool_futures p) <= 1
  /\ (exists p', rtc (pool_step 3 0 30) p p' /\ exists r, pool_main p' = Finished r)
  /\ (forall r, pool_main p = Finished r ->
        (r, pool_sink p) = _update_photos_loop ["c/jane"; "c/john"] 3 0 30 st).
Proof.
  intros st p.
  apply (update_photos_pool_is_sequential 3 0 30 ["c/jane"; "c/john"] st p).
  eapply rtc_l; [apply step_submit|].
  eapply rtc_l; [|apply rtc_refl].
  apply (step_worker_start 3 0 30 (Waiting 0 ["c/john"]) [("c/jane", Queued)] st 0 "c/jane").
  - reflexivity.
  - vm_compute. lia.
Defined.

End Runs.

(** * More on the class *)

(** ** Running a method step by step *)

Section Preserves.
Context {S : Type} (R : S -> S -> Prop).
Context (Rrefl : forall st, R st st).
Context (Rtrans : forall a b c, R a b -> R b c -> R a c).

Lemma preserves_ret {A} (a : A) : preserves R (ret a).
Proof using Rrefl. intros st o st' [= _ <-]. apply Rrefl. Qed.

Lemma preserves_raise {A} e : preserves R (@raise S A e).
Proof using Rrefl. intros st o st' [= _ <-]. apply Rrefl. Qed.

Lemma preserves_get_state : preserves R (@get_state S).
Proof using Rrefl. intros st o st' [= _ <-]. apply Rrefl. Qed.

Lemma preserves_bind {A B} (m : Py S A) (k : A -> Py S B) :
  preserves R m -> (forall a, preserves R (k a)) -> preserves R (x <- m ;; k x).
Proof using Rtrans.
  intros Hm Hk st o st'. unfold bind.
  destruct (m st) as [[a|e] st1] eqn:Hrun.
  - intros Hrest. eapply Rtrans; [by eapply Hm | by eapply Hk].
  - intros [= _ <-]. by eapply Hm.
Qed.

Lemma preserves_modify (f : S -> S) :
  (forall st, R st (f st)) -> preserves R (modify f).
Proof. intros Hf st o st' [= _ <-]. apply Hf. Qed.

End Preserves.

(** ** The other ways of [_update_photo] *)

Section PhotoPaths.
Context {P : Providers}.
Implicit Types (st : @Sink P) (contact_url friend_url user_id name : string).

Lemma _should_update_Some st contact_url expiry t :
  timestamps st !! contact_url = Some t ->
  (Z.abs expiry <= TIMEDELTA_MAX_DAYS)%Z ->
  (0 <= t + expiry * DAY <= DATETIME_MAX)%Z ->
  _should_update contact_url expiry st
  = (Return (t + expiry * DAY <? fst (datetime_now P (world st)))%Z,
     with_call CallNow (snd (datetime_now P (world st))) st).
Proof.
  intros Hts Hdays [Hmin Hmax]. unfold _should_update, now. py_unfold. rewrite Hts.
  destruct (datetime_now P (world st)). simpl.
  assert ((TIMEDELTA_MAX_DAYS <? Z.abs expiry)%Z = false) as ->
    by (by apply Z.ltb_ge).
  assert ((t + expiry * DAY <? 0)%Z = false) as -> by (by apply Z.ltb_ge).
  assert ((DATETIME_MAX <? t + expiry * DAY)%Z = false) as -> by (by apply Z.ltb_ge).
  done.
Qed.

Lemma _should_update_None st contact_url expiry :
  timestamps st !! contact_url = None ->
  _should_update contact_url expiry st = (Return true, st).
Proof. intros Hts. unfold _should_update. py_unfold. by rewrite Hts. Qed.

(** X1. A record that is ignored (its link is [None], or an empty url) is
    left alone: [_update_photo] returns at once, prints nothing, calls
    nothing and changes nothing. *)
Theorem update_photo_ignored st contact_url v retries delay expiry :
  Dict.get contact_url (links st) = Some v ->
  falsy v = true ->
  _update_photo contact_url retries delay expiry st = (Return tt, st).
Proof.
  intros Hlink Hv. unfold _update_photo.
  rewrite (bind_Return _ _ _ _ _ (links_getitem_Some _ _ _ Hlink)).
  by rewrite Hv.
Qed.

(** X2. A linked record whose timestamp is not older than [expiry] days is
    skipped: the clock is read once, SKIPPED is printed, no provider is
    called, nothing is stored and there is no sleep.  This is for an
    [expiry] that [timedelta] takes, at most [TIMEDELTA_MAX_DAYS] days in
    size, and a time of expiry that is a [datetime], from the year 1 to the
    year 9999. *)
Theorem update_photo_skipped st contact_url name friend_url t retries delay expiry :
  Dict.get contact_url (links st) = Some (Some friend_url) ->
  friend_url <> "" ->
  Dict.get contact_url (contacts st) = Some name ->
  timestamps st !! contact_url = Some t ->
  (Z.abs expiry <= TIMEDELTA_MAX_DAYS)%Z ->
  (0 <= t + expiry * DAY <= DATETIME_MAX)%Z ->
  (fst (datetime_now P (world st)) <= t + expiry * DAY)%Z ->
  _update_photo contact_url retries delay expiry st
  = (Return tt,
     with_stdout (stdout st ++ ["SKIPPED: " +:+ name])
       (with_call CallNow (snd (datetime_now P (world st))) st)).
Proof.
  intros Hlink Hf Hname Hts Hdays Hrange Hle. unfold _update_photo.
  rewrite (bind_Return _ _ _ _ _ (links_getitem_Some _ _ _ Hlink)).
  rewrite (falsy_Some_false _ Hf).
  rewrite (bind_Return _ _ _ _ _ (_should_update_Some _ _ expiry _ Hts Hdays Hrange)).
  apply Z.ltb_ge in Hle. rewrite Hle. simpl.
  unfold contacts_getitem. py_unfold. simpl. by rewrite Hname.
Qed.

(** Splits a method into its steps, for a relation that every call, print
    and read of a line keeps. *)
Ltac preserves_steps Hrefl Htrans :=
  repeat first
    [ apply (preserves_ret _ Hrefl)
    | apply (preserves_raise _ Hrefl)
    | apply (preserves_get_state _ Hrefl)
    | apply (preserves_bind _ Htrans); [|intros ?]
    | match goal with
      | |- preserves _ (if ?b then _ else _) => destruct b
      | |- preserves _ (match ?x with _ => _ end) => destruct x
      end ].

Lemma photo_touch_refl contact_url st : photo_touch contact_url st st.
Proof. by repeat split. Qed.

Lemma photo_touch_trans contact_url (a b c : @Sink P) :
  photo_touch contact_url a b -> photo_touch contact_url b c ->
  photo_touch contact_url a c.
Proof.
  intros (Hl & Hc & Hf & Hi & Hs & Ho & Hck & Hts)
         (Hl' & Hc' & Hf' & Hi' & Hs' & Ho' & Hck' & Hts').
  split_and!; try congruence; auto.
  intros k Hk. destruct (Ho k Hk) as [<- <-]. by apply Ho'.
Qed.

Lemma photo_touch_call contact_url c w st :
  photo_touch contact_url st (with_call c w st).
Proof. by repeat split. Qed.

Lemma photo_touch_stdout contact_url o st :
  photo_touch contact_url st (with_stdout o st).
Proof. by repeat split. Qed.

Lemma preserves_print {R : @Sink P -> Sink -> Prop} line :
  (forall o st, R st (with_stdout o st)) -> preserves R (print line).
Proof. intros Hout. apply preserves_modify. intros st. apply Hout. Qed.

Lemma preserves_retry_range {R : @Sink P -> Sink -> Prop} func n :
  (forall st, R st st) -> (forall a b c, R a b -> R b c -> R a c) ->
  preserves R func -> preserves R (_retry_range func n).
Proof.
  intros Hrefl Htrans Hfunc. induction n as [|n IH]; simpl.
  - by apply preserves_ret.
  - preserves_steps Hrefl Htrans; done.
Qed.

Lemma photo_touch_update_photo contact_url retries delay expiry :
  preserves (photo_touch (P := P) contact_url) (_update_photo contact_url retries delay expiry).
Proof.
  pose proof (photo_touch_refl contact_url) as Hrefl.
  pose proof (photo_touch_trans contact_url) as Htrans.
  assert (Hprint : forall line, preserves (photo_touch (P := P) contact_url) (print line)).
  { intros line. apply preserves_print, photo_touch_stdout. }
  assert (Hcall : forall A (f : World P -> A * World P) c,
    preserves (photo_touch (P := P) contact_url)
      (fun st => let (r, w) := f (world st) in (Return r, with_call c w st))).
  { intros A f c st o st'. destruct (f (world st)). intros [= _ <-].
    apply photo_touch_call. }
  assert (Hsleep : preserves (photo_touch (P := P) contact_url) (sleep delay)).
  { intros st o st'. unfold sleep.
    destruct (SLEEP_MAX <? Z.abs delay)%Z; [intros [= _ <-]; apply Hrefl|].
    destruct (delay <? 0)%Z; [intros [= _ <-]; apply Hrefl|].
    destruct (time_sleep P delay (world st)). intros [= _ <-].
    apply photo_touch_call. }
  unfold _update_photo, links_getitem, contacts_getitem, _should_update, now,
    _retry, _set_checksum, _set_timestamp.
  preserves_steps Hrefl Htrans; try apply Hprint; try apply Hsleep;
    try (apply (Hcall _ (datetime_now P)));
    try (apply (Hcall _ (facebook_get_user_id P _)));
    try (apply (Hcall _ (facebook_get_profile_picture P _))).
  all: try (apply preserves_retry_range; [done | done |];
            apply (Hcall _ (google_update_photo P _ _))).
  all: apply preserves_modify; intros st0; repeat split; simpl; try done.
  all: try (by rewrite lookup_insert_ne).
  all: intros k; destruct (decide (contact_url = k)) as [->|Hne];
         rewrite ?lookup_insert_eq, ?lookup_insert_ne by done; done.
Qed.

Lemma _update_photo_KeyError st contact_url retries delay expiry :
  Dict.get contact_url (links st) = None ->
  _update_photo contact_url retries delay expiry st = (Raise (KeyError contact_url), st).
Proof.
  intros Hnone. unfold _update_photo, links_getitem. py_unfold. by rewrite Hnone.
Qed.

(** Whatever the attempts give, [_retry] returns a boolean and leaves the
    memory as it is. *)
Lemma _retry_range_memory st contact_url picture n :
  exists ok st',
    _retry_range (update_photo contact_url picture) n st = (Return ok, st')
    /\ memory st' = memory st.
Proof.
  revert st. induction n as [|n IH]; intros st; simpl.
  - by exists false, st.
  - unfold bind, update_photo at 1.
    destruct (google_update_photo P contact_url picture (world st)) as [[] w].
    + by eexists true, _.
    + destruct (IH (with_call (CallUpdatePhoto contact_url picture) w st))
        as (ok & st' & Hrun & Hmem).
      by exists ok, st'.
Qed.

Lemma _retry_range_succeeds st contact_url picture k n :
  k < n ->
  succeeds_after contact_url picture k (world st) ->
  exists st',
    _retry_range (update_photo contact_url picture) n st = (Return true, st')
    /\ memory st' = memory st
    /\ world st'
       = snd (google_update_photo P contact_url picture
                (world_after_attempts contact_url picture k (world st)))
    /\ calls st' = calls st ++ replicate (S k) (CallUpdatePhoto contact_url picture).
Proof.
  revert st n. induction k as [|k IH]; intros st [|n] Hlt; try lia; simpl.
  - intros Hok. unfold bind, update_photo.
    destruct (google_update_photo P contact_url picture (world st)) as [ok w].
    simpl in *. subst ok. by eexists.
  - intros [Hfail Hrest]. unfold bind, update_photo at 1.
    destruct (google_update_photo P contact_url picture (world st)) as [ok w].
    simpl in *. subst ok.
    destruct (IH (with_call (CallUpdatePhoto contact_url picture) w st) n)
      as (st' & Hrun & Hmem & Hw & Hcalls); [lia | done |].
    exists st'. split_and!; try done.
    rewrite Hcalls. simpl. by rewrite <- (assoc_L (++)).
Qed.

(** X3. When the picture is new and the push goes through at the attempt
    after [k] failed ones, with [k] less than [retries], and [time.sleep]
    takes the delay: the record is reported as updated, [update_photo] has
    been called [k + 1] times and no more, the checksum of the picture and
    the time read after the push are stored, and both maps are written to
    the shelf. *)
Theorem update_photo_updated st contact_url name friend_url user_id w2 picture w3 k
    retries delay expiry :
  resolves st contact_url expiry friend_url user_id w2 ->
  Dict.get contact_url (contacts st) = Some name ->
  facebook_get_profile_picture P user_id w2 = (Some picture, w3) ->
  checksums st !! contact_url <> Some (md5_hexdigest P picture) ->
  k < Z.to_nat retries ->
  succeeds_after contact_url picture k w3 ->
  sleep_taken delay
    (snd (datetime_now P
            (snd (google_update_photo P contact_url picture
                    (world_after_attempts contact_url picture k w3))))) ->
  exists st',
    _update_photo contact_url retries delay expiry st = (Return tt, st')
    /\ stdout st' = stdout st ++ ["UPDATED: " +:+ name]
    /\ (exists before,
          calls st'
          = calls st ++ before
            ++ replicate (S k) (CallUpdatePhoto contact_url picture)
            ++ [CallNow; CallSleep delay]
          /\ forall c p, CallUpdatePhoto c p ∉ before)
    /\ checksums st' = <[contact_url := md5_hexdigest P picture]> (checksums st)
    /\ shelf_checksums (shelf st') = Some (checksums st')
    /\ timestamps st'
       = <[contact_url :=
             fst (datetime_now P
                    (snd (google_update_photo P contact_url picture
                            (world_after_attempts contact_url picture k w3))))]>
           (timestamps st)
    /\ shelf_timestamps (shelf st') = Some (timestamps st').
Proof.
  intros (Hlink & Hf & st1 & Hdue & Hid & Hu) Hname Hpic Hsum Hk Hok Hdelay.
  rewrite (_update_photo_resolved _ _ _ _ _ _ _ _ _ Hlink Hf Hdue Hid Hu).
  assert (Hst1 : memory st1 = memory st
                 /\ exists clock, calls st1 = calls st ++ clock
                                  /\ forall c p, CallUpdatePhoto c p ∉ clock).
  { apply _should_update_true in Hdue as [[_ ->]|(t & _ & _ & ->)].
    - split; [done|]. exists []. split; [by rewrite app_nil_r|].
      intros c p. apply not_elem_of_nil.
    - split; [done|]. exists [CallNow]. split; [done|].
      intros c p [?|[]%elem_of_nil]%elem_of_cons. done. }
  destruct Hst1 as [Hmem1 (clock & Hclock & Hnone)].
  injection Hmem1 as Hcs Hfs Hls Hck Hts Hsh Hout Hin.
  erewrite bind_Return; [|unfold get_profile_picture; simpl; rewrite Hpic; reflexivity].
  set (st3 := with_call (CallGetProfilePicture user_id) w3
                (with_call (CallGetUserId friend_url) w2 st1)).
  destruct (_retry_range_succeeds st3 contact_url picture k (Z.to_nat retries) Hk Hok)
    as (st4 & Hretry & Hmem4 & Hw4 & Hcalls4).
  injection Hmem4 as Hcs4 Hfs4 Hls4 Hck4 Hts4 Hsh4 Hout4 Hin4. simpl in *.
  unfold bind at 1. unfold bind at 1. unfold get_state at 1. unfold bind at 1.
  rewrite bool_decide_eq_false_2 by (simpl; by rewrite Hck).
  unfold bind at 1. unfold _retry. rewrite Hretry.
  assert (Hname4 : Dict.get contact_url (contacts st4) = Some name) by congruence.
  rewrite (bind_Return _ _ st4 _ _ (contacts_getitem_Some st4 contact_url name Hname4)).
  unfold _set_checksum, _set_timestamp, now. py_unfold. simpl.
  rewrite Hw4.
  destruct (datetime_now P (snd (google_update_photo P contact_url picture _)))
    as [n w5] eqn:Hnow. simpl in Hdelay |- *.
  rewrite sleep_Return by exact Hdelay. eexists. split; [reflexivity|]. simpl.
  split_and!; try congruence.
  exists (clock ++ [CallGetUserId friend_url; CallGetProfilePicture user_id]).
  split.
  - rewrite Hcalls4, Hclock. rewrite <- !(assoc_L (++)). simpl. done.
  - intros c p [Hin1|Hin2]%elem_of_app; [by apply (Hnone c p)|].
    by repeat (apply elem_of_cons in Hin2 as [?|Hin2]; [done|]);
      apply elem_of_nil in Hin2.
Qed.

(** X4. With [retries] zero or less no attempt is made: a new picture is
    reported as failed without one call to [update_photo], and the
    timestamp is recorded all the same; this when [time.sleep] takes the
    delay. *)
Theorem update_photo_no_retries st contact_url name friend_url user_id w2 picture w3
    retries delay expiry :
  resolves st contact_url expiry friend_url user_id w2 ->
  Dict.get contact_url (contacts st) = Some name ->
  facebook_get_profile_picture P user_id w2 = (Some picture, w3) ->
  checksums st !! contact_url <> Some (md5_hexdigest P picture) ->
  (retries <= 0)%Z ->
  sleep_taken delay (snd (datetime_now P w3)) ->
  exists st',
    _update_photo contact_url retries delay expiry st = (Return tt, st')
    /\ stdout st' = stdout st ++ ["FAILED: " +:+ name]
    /\ (exists made, calls st' = calls st ++ made
          /\ forall c p, CallUpdatePhoto c p ∉ made)
    /\ timestamps st' = <[contact_url := fst (datetime_now P w3)]> (timestamps st)
    /\ checksums st' = checksums st.
Proof.
  intros (Hlink & Hf & st1 & Hdue & Hid & Hu) Hname Hpic Hsum Hretries Hdelay.
  rewrite (_update_photo_resolved _ _ _ _ _ _ _ _ _ Hlink Hf Hdue Hid Hu).
  erewrite bind_Return; [|unfold get_profile_picture; simpl; rewrite Hpic; reflexivity].
  unfold _set_timestamp, now, _retry. replace (Z.to_nat retries) with 0 by lia.
  py_unfold.
  apply _should_update_true in Hdue as [[_ ->]|(t & _ & _ & ->)]; simpl;
    rewrite bool_decide_eq_false_2 by done; simpl; rewrite Hname; simpl;
    destruct (datetime_now P w3) as [n w4]; simpl in Hdelay |- *;
    rewrite sleep_Return by exact Hdelay; simpl;
    (eexists; split_and!; try reflexivity).
  - eexists. split; [simpl; by rewrite <- !(assoc_L (++)) | ].
    intros c p [?|[?|[?|[?|[]%elem_of_nil]%elem_of_cons]%elem_of_cons]%elem_of_cons]%elem_of_cons; done.
  - eexists. split; [simpl; by rewrite <- !(assoc_L (++)) | ].
    intros c p [?|[?|[?|[?|[?|[]%elem_of_nil]%elem_of_cons]%elem_of_cons]%elem_of_cons]%elem_of_cons]%elem_of_cons; done.
Qed.

(** X5. With a negative [delay] a record that is linked and due and whose
    friend resolves never gets to the end: [time.sleep] raises, [ValueError]
    or, for a delay below [- SLEEP_MAX], [OverflowError], after the provider
    calls and the bookkeeping are done, so that a picture that was fetched
    has its timestamp recorded all the same. *)
Theorem update_photo_negative_delay st contact_url name friend_url user_id w2
    retries delay expiry :
  resolves st contact_url expiry friend_url user_id w2 ->
  Dict.get contact_url (contacts st) = Some name ->
  (delay < 0)%Z ->
  exists st',
    _update_photo contact_url retries delay expiry st
    = (Raise (if (delay <? - SLEEP_MAX)%Z then OverflowError else ValueError), st')
    /\ (is_Some (fst (facebook_get_profile_picture P user_id w2)) ->
        is_Some (timestamps st' !! contact_url)
        /\ shelf_timestamps (shelf st') = Some (timestamps st')).
Proof.
  intros (Hlink & Hf & st1 & Hdue & Hid & Hu) Hname Hdelay.
  rewrite (_update_photo_resolved _ _ _ _ _ _ _ _ _ Hlink Hf Hdue Hid Hu).
  assert (Hmem1 : memory st1 = memory st).
  { by apply _should_update_true in Hdue as [[_ ->]|(t & _ & _ & ->)]. }
  injection Hmem1 as Hcs Hfs Hls Hck Hts Hsh Hout Hin.
  assert (Hsleep : forall st0,
    sleep delay st0
    = (Raise (if (delay <? - SLEEP_MAX)%Z then OverflowError else ValueError), st0)).
  { intros st0. unfold sleep.
    destruct (Z.ltb_spec SLEEP_MAX (Z.abs delay)), (Z.ltb_spec delay (- SLEEP_MAX));
      try done; try lia.
    by apply Z.ltb_lt in Hdelay as ->. }
  unfold bind at 1. unfold get_profile_picture at 1. simpl.
  destruct (facebook_get_profile_picture P user_id w2) as [[picture|] w3]; simpl.
  - set (st3 := with_call (CallGetProfilePicture user_id) w3
                  (with_call (CallGetUserId friend_url) w2 st1)).
    unfold bind at 1. unfold bind at 1. unfold get_state at 1. unfold bind at 1.
    assert (Hstamp : forall st0,
      exists st', _set_timestamp contact_url st0 = (Return tt, st')
        /\ is_Some (timestamps st' !! contact_url)
        /\ shelf_timestamps (shelf st') = Some (timestamps st')).
    { intros st0. unfold _set_timestamp, now. py_unfold.
      destruct (datetime_now P (world st0)) as [n w]. eexists. split; [done|].
      simpl. by rewrite lookup_insert_eq. }
    case_bool_decide.
    + rewrite (bind_Return _ _ st3 _ _ (contacts_getitem_Some st3 contact_url name
                 ltac:(unfold st3; simpl; congruence))).
      unfold print at 1, modify at 1.
      destruct (Hstamp (with_stdout (stdout st3 ++ ["UNCHANGED: " +:+ name]) st3))
        as (st5 & -> & ? & ?).
      rewrite Hsleep. by eexists.
    + unfold bind at 1. unfold _retry.
      destruct (_retry_range_memory st3 contact_url picture (Z.to_nat retries))
        as (ok & st4 & -> & Hmem4).
      injection Hmem4 as Hcs4 _ _ _ _ _ _ _.
      assert (Hname4 : Dict.get contact_url (contacts st4) = Some name)
        by (simpl in *; congruence).
      destruct ok.
      * rewrite (bind_Return _ _ st4 _ _ (contacts_getitem_Some st4 _ _ Hname4)).
        unfold bind at 1. unfold print at 1, modify at 1.
        unfold _set_checksum at 1. unfold bind at 1, modify at 1, modify at 1.
        match goal with |- context [_set_timestamp contact_url ?s] =>
          destruct (Hstamp s) as (st5 & -> & ? & ?) end.
        rewrite Hsleep. by eexists.
      * rewrite (bind_Return _ _ st4 _ _ (contacts_getitem_Some st4 _ _ Hname4)).
        unfold print at 1, modify at 1.
        match goal with |- context [_set_timestamp contact_url ?s] =>
          destruct (Hstamp s) as (st5 & -> & ? & ?) end.
        rewrite Hsleep. by eexists.
  - set (st3 := with_call (CallGetProfilePicture user_id) w3
                  (with_call (CallGetUserId friend_url) w2 st1)).
    unfold bind at 1.
    rewrite (bind_Return _ _ st3 _ _ (contacts_getitem_Some st3 contact_url name
               ltac:(unfold st3; simpl; congruence))).
    unfold print at 1, modify at 1. rewrite Hsleep. eexists. split; [done|].
    by intros [? [=]].
Qed.

End PhotoPaths.

(** ** What a pass over the photos leaves alone *)

Section PhotosFrame.
Context {P : Providers}.
Implicit Types (st : @Sink P) (contact_url : string).

Lemma _update_photos_loop_touch keys retries delay expiry st o st' :
  _update_photos_loop keys retries delay expiry st = (o, st') ->
  links st' = links st /\ contacts st' = contacts st /\ friends st' = friends st
  /\ stdin st' = stdin st /\ shelf_links (shelf st') = shelf_links (shelf st)
  /\ (forall k, k ∉ keys ->
        checksums st' !! k = checksums st !! k
        /\ timestamps st' !! k = timestamps st !! k)
  /\ (bookkeeping_linked st -> bookkeeping_linked st').
Proof.
  revert st. induction keys as [|c keys IH]; intros st; simpl.
  - intros [= _ <-]. by split_and!.
  - destruct (_update_photo c retries delay expiry st) as [r st1] eqn:Hone.
    pose proof (photo_touch_update_photo c retries delay expiry st r st1 Hone)
      as (Hl & Hc & Hf & Hi & Hs & Ho & Hck & Hts).
    assert (Hbook : bookkeeping_linked st -> bookkeeping_linked st1).
    { intros Hb k Hk. rewrite Hl.
      destruct (Dict.get c (links st)) as [v|] eqn:Hget.
      - destruct (decide (k = c)) as [->|Hne]; [by rewrite Hget|].
        apply Hb. destruct (Ho k Hne) as [<- <-]. done.
      - rewrite (_update_photo_KeyError st c retries delay expiry Hget) in Hone.
        injection Hone as _ <-. by apply Hb. }
    assert (Hhere : forall st2,
      links st2 = links st1 -> contacts st2 = contacts st1 ->
      friends st2 = friends st1 -> stdin st2 = stdin st1 ->
      shelf_links (shelf st2) = shelf_links (shelf st1) ->
      (forall k, k ∉ keys -> checksums st2 !! k = checksums st1 !! k
                            /\ timestamps st2 !! k = timestamps st1 !! k) ->
      (bookkeeping_linked st1 -> bookkeeping_linked st2) ->
      links st2 = links st /\ contacts st2 = contacts st /\ friends st2 = friends st
      /\ stdin st2 = stdin st /\ shelf_links (shelf st2) = shelf_links (shelf st)
      /\ (forall k, k ∉ c :: keys ->
            checksums st2 !! k = checksums st !! k
            /\ timestamps st2 !! k = timestamps st !! k)
      /\ (bookkeeping_linked st -> bookkeeping_linked st2)).
    { intros st2 Hl2 Hc2 Hf2 Hi2 Hs2 Ho2 Hb2. split_and!; try congruence; [|auto].
      intros k [Hkc Hk]%not_elem_of_cons.
      destruct (Ho2 k Hk) as [-> ->]. by apply Ho. }
    destruct r as [[]|e].
    + intros Hrest. destruct (IH st1 Hrest) as (? & ? & ? & ? & ? & ? & ?).
      by apply Hhere.
    + destruct e; intros [= _ <-]; apply Hhere; done.
Qed.

End PhotosFrame.

(** ** What reconciliation keeps *)

Section CleanFilter.
Context {P : Providers}.
Implicit Types (st : @Sink P) (contact_url : string).

Lemma dict_get_app {V} (d1 d2 : list (string * V)) k :
  Dict.get k (d1 ++ d2)
  = match Dict.get k d1 with Some v => Some v | None => Dict.get k d2 end.
Proof.
  induction d1 as [|[k' v'] d1 IH]; simpl; [done|].
  by destruct (String.eqb k k').
Qed.

Lemma dict_del_app_r {V} (d1 d2 : list (string * V)) k :
  Dict.get k d1 = None -> Dict.del k (d1 ++ d2) = d1 ++ Dict.del k d2.
Proof.
  induction d1 as [|[k' v'] d1 IH]; simpl; [done|].
  destruct (String.eqb k k'); [done|]. intros H. by rewrite IH.
Qed.

Lemma is_stale_ext st st' contact_url v :
  contacts st' = contacts st -> friends st' = friends st ->
  is_stale st' contact_url v = is_stale st contact_url v.
Proof. unfold is_stale. by intros -> ->. Qed.

Lemma _clean_link_stale st contact_url v :
  Dict.get contact_url (links st) = Some v ->
  is_stale st contact_url v = true ->
  exists st',
    _clean_link contact_url st = (Return tt, st')
    /\ links st' = Dict.del contact_url (links st)
    /\ checksums st' = delete contact_url (checksums st)
    /\ timestamps st' = delete contact_url (timestamps st)
    /\ same_but_maps st st'.
Proof.
  intros Hget Hstale. unfold is_stale in Hstale.
  unfold _clean_link. py_unfold.
  assert (Hmem : Dict.mem contact_url (links st) = true)
    by (unfold Dict.mem; by rewrite Hget).
  assert (Hdel : forall (A : Type) (m : gmap string A),
            ¬ is_Some (m !! contact_url) -> m = delete contact_url m).
  { intros A m Hn. symmetry. apply delete_id.
    destruct (m !! contact_url) eqn:E; [|done]. exfalso. by apply Hn. }
  destruct (negb (Dict.mem contact_url (contacts st))); simpl in *.
  - rewrite Hmem. eexists. split; [reflexivity|].
    repeat case_decide; simpl; split_and!; auto; by repeat split.
  - rewrite Hget. destruct v as [f|]; [|done]. rewrite Hstale, Hmem.
    eexists. split; [reflexivity|].
    repeat case_decide; simpl; split_and!; auto; by repeat split.
Qed.

Lemma _clean_links_loop_filter st rest :
  forall pre st0,
    links st0 = pre ++ rest ->
    NoDup (Dict.keys (pre ++ rest)) ->
    contacts st0 = contacts st -> friends st0 = friends st ->
    exists st',
      _clean_links_loop (Dict.keys rest) st0 = (Return tt, st')
      /\ links st'
         = pre ++ filter (fun kv => is_stale st (fst kv) (snd kv) = false) rest
      /\ (forall k,
            checksums st' !! k
            = if match Dict.get k rest with
                 | Some v => is_stale st k v | None => false end
              then None else checksums st0 !! k)
      /\ (forall k,
            timestamps st' !! k
            = if match Dict.get k rest with
                 | Some v => is_stale st k v | None => false end
              then None else timestamps st0 !! k)
      /\ same_but_maps st0 st'.
Proof.
  induction rest as [|[c v] rest IH]; intros pre st0 Hlinks Hnd Hcs Hfs; simpl.
  - exists st0. split_and!; try done; try (by rewrite Hlinks); by repeat split.
  - assert (Hpre : Dict.get c pre = None).
    { apply dict_get_None. unfold Dict.keys in *. rewrite fmap_app in Hnd.
      apply NoDup_app in Hnd as (_ & Hdisj & _). intros Hin.
      apply (Hdisj c Hin). simpl. apply elem_of_cons. by left. }
    assert (Hrest : Dict.get c rest = None).
    { apply dict_get_None. unfold Dict.keys in *. rewrite fmap_app in Hnd.
      apply NoDup_app in Hnd as (_ & _ & Hr). simpl in Hr.
      by apply NoDup_cons in Hr as [? _]. }
    assert (Hget : Dict.get c (links st0) = Some v).
    { rewrite Hlinks, dict_get_app, Hpre. simpl. by rewrite String.eqb_refl. }
    unfold bind.
    destruct (is_stale st c v) eqn:Hstale.
    + destruct (_clean_link_stale st0 c v Hget) as (st1 & -> & Hl1 & Hck1 & Hts1 & Hsame1).
      { by rewrite (is_stale_ext st st0). }
      destruct Hsame1 as (Hc1 & Hf1 & Hsh1 & Ho1 & Hi1 & Hca1 & Hw1).
      destruct (IH pre st1) as (st' & -> & Hl' & Hck' & Hts' & Hsame').
      { rewrite Hl1, Hlinks, dict_del_app_r by done. simpl.
        by rewrite String.eqb_refl. }
      { unfold Dict.keys in *. rewrite !fmap_app in *. simpl in Hnd.
        apply NoDup_app in Hnd as (Hp & Hdisj & Hr). apply NoDup_app.
        split_and!; [done| |by apply NoDup_cons in Hr as [_ ?]].
        intros x Hx Hin. apply (Hdisj x Hx). apply elem_of_cons. by right. }
      { congruence. } { congruence. }
      exists st'. split_and!; try done.
      * rewrite Hl'. rewrite filter_cons_False; [done|]. simpl. by rewrite Hstale.
      * intros k. rewrite Hck', Hck1.
        destruct (String.eqb_spec k c) as [->|Hne].
        -- rewrite Hrest, Hstale. by rewrite lookup_delete_eq.
        -- destruct (Dict.get k rest) as [v'|]; [destruct (is_stale st k v')|];
             try done; by rewrite lookup_delete_ne.
      * intros k. rewrite Hts', Hts1.
        destruct (String.eqb_spec k c) as [->|Hne].
        -- rewrite Hrest, Hstale. by rewrite lookup_delete_eq.
        -- destruct (Dict.get k rest) as [v'|]; [destruct (is_stale st k v')|];
             try done; by rewrite lookup_delete_ne.
      * destruct Hsame' as (? & ? & ? & ? & ? & ? & ?). repeat split; congruence.
    + rewrite (_clean_link_keeps st0 c v Hget) by (by rewrite (is_stale_ext st st0)).
      destruct (IH (pre ++ [(c, v)]) st0) as (st' & -> & Hl' & Hck' & Hts' & Hsame').
      { by rewrite <- (assoc_L (++)). }
      { by rewrite <- (assoc_L (++)). }
      { done. } { done. }
      exists st'. split_and!; try done.
      * rewrite Hl', <- (assoc_L (++)). simpl.
        rewrite filter_cons_True; [done|]. simpl. by rewrite Hstale.
      * intros k. rewrite Hck'.
        destruct (String.eqb_spec k c) as [->|Hne]; [|done].
        by rewrite Hrest, Hstale.
      * intros k. rewrite Hts'.
        destruct (String.eqb_spec k c) as [->|Hne]; [|done].
        by rewrite Hrest, Hstale.
Qed.

(** X6. [_clean_links] is a filter.  It returns; the links it leaves are, in
    their order, the links whose contact still exists and whose friend, if
    they have one, still exists; a record keeps its checksum and its
    timestamp unless its link is dropped, and then it has neither; and
    nothing else of the object changes, the shelf included. *)
Theorem clean_links_is_a_filter st :
  NoDup (Dict.keys (links st)) ->
  exists st',
    _clean_links st = (Return tt, st')
    /\ links st' = fresh_links st
    /\ (forall k, checksums st' !! k
                  = if dropped st k then None else checksums st !! k)
    /\ (forall k, timestamps st' !! k
                  = if dropped st k then None else timestamps st !! k)
    /\ same_but_maps st st'.
Proof.
  intros Hnd.
  destruct (_clean_links_loop_filter st (links st) [] st) as (st' & Hrun & H);
    try done.
  by exists st'.
Qed.

End CleanFilter.

(** ** The order of the links *)

Section InOrder.
Context {A : Type}.
Implicit Types (l : list A) (d : list ((string * option string) * A)).

Lemma ltb_asym (x y : string) : String.ltb x y = true -> String.ltb y x = false.
Proof.
  unfold String.ltb. rewrite (String.compare_antisym y x).
  by destruct (String.compare x y).
Qed.

Lemma sort_key_lt_asym (a b : string * option string) :
  sort_key_lt a b = Return true -> sort_key_lt b a = Return false.
Proof.
  unfold sort_key_lt. rewrite (String.eqb_sym (fst b) (fst a)).
  destruct (String.eqb (fst a) (fst b)).
  - destruct (snd a), (snd b); try done. intros [= H]. by rewrite (ltb_asym _ _ H).
  - intros [= H]. by rewrite (ltb_asym _ _ H).
Qed.

Lemma insert_sorted_in_order x d r :
  in_order (map fst d) -> insert_sorted x d = Return r ->
  in_order (map fst r)
  /\ (r = x :: d \/ exists y d' r', d = y :: d' /\ r = y :: r').
Proof.
  revert r. induction d as [|y d IH]; intros r Hd; simpl.
  - intros [= <-]. split; [done | by left].
  - destruct (sort_key_lt (fst y) (fst x)) as [[]|e] eqn:Hlt; simpl; [| |done].
    + destruct (insert_sorted x d) as [r'|e] eqn:Hins; simpl; [|done].
      intros [= <-].
      assert (Hd' : in_order (map fst d)).
      { destruct d as [|z d]; [done|]. by destruct Hd as [_ ?]. }
      destruct (IH r' Hd' eq_refl) as [Hr' Hshape].
      split; [|right; by exists y, d, r'].
      destruct Hshape as [->|(z & d' & r'' & -> & ->)]; simpl.
      * split; [by apply sort_key_lt_asym | done].
      * split; [by destruct Hd as [? _] | done].
    + intros [= <-]. split; [|by left]. simpl. by split.
Qed.

Lemma sort_decorated_in_order d r :
  sort_decorated d = Return r -> in_order (map fst r).
Proof.
  revert r. induction d as [|x d IH]; intros r; simpl.
  - by intros [= <-].
  - destruct (sort_decorated d) as [r'|e]; simpl; [|done].
    intros Hins. by apply (insert_sorted_in_order x r' r (IH r' eq_refl)) in Hins as [? _].
Qed.

(** Sorting a list that is in order gives the list. *)
Lemma sort_decorated_id d : in_order (map fst d) -> sort_decorated d = Return d.
Proof.
  induction d as [|x d IH]; [done|]. intros Hd. simpl.
  rewrite IH by (destruct d; [done | by destruct Hd as [_ ?]]). simpl.
  destruct d as [|y d]; [done|]. simpl. destruct Hd as [Hlt _]. simpl in Hlt.
  by rewrite Hlt.
Qed.

Lemma decorate_keys key l d :
  decorate key l = Return d -> Forall (fun p => key (snd p) = Return (fst p)) d.
Proof.
  revert d. induction l as [|x l IH]; intros d; simpl.
  - intros [= <-]. constructor.
  - destruct (key x) as [k|e] eqn:Hk; simpl; [|done].
    destruct (decorate key l) as [r|e]; simpl; [|done].
    intros [= <-]. constructor; [done | by apply IH].
Qed.

Lemma decorate_map_snd key d :
  Forall (fun p => key (snd p) = Return (fst p)) d ->
  decorate key (map snd d) = Return d.
Proof.
  induction 1 as [|[k x] d Hk _ IH]; [done|]. simpl in *.
  by rewrite Hk, IH.
Qed.

(** The list [sorted] gives is in order, and sorting it again gives it
    again. *)
Lemma sorted_in_order key l r :
  sorted key l = Return r ->
  exists s,
    decorate key r = Return s /\ in_order (map fst s) /\ sorted key r = Return r.
Proof.
  unfold sorted.
  destruct (decorate key l) as [d|e] eqn:Hd; simpl; [|done].
  destruct (sort_decorated d) as [s|e] eqn:Hs; simpl; [|done].
  intros [= <-]. exists s.
  assert (Hdec : decorate key (map snd s) = Return s).
  { apply decorate_map_snd. apply decorate_keys in Hd.
    apply sort_decorated_Permutation in Hs. by rewrite Hs. }
  pose proof (sort_decorated_in_order _ _ Hs) as Hord.
  split_and!; try done.
  rewrite Hdec. simpl. by rewrite (sort_decorated_id s Hord).
Qed.

(** [sorted] computes the keys before it compares any: it raises what the
    key function raises on the first item that has no key. *)
Lemma decorate_Raise (key : A -> outcome (string * option string))
    (pre : list A) (x : A) (post : list A) e :
  Forall (fun y => exists k, key y = Return k) pre ->
  key x = Raise e ->
  decorate key (pre ++ x :: post) = Raise e.
Proof.
  intros Hpre Hx. induction Hpre as [|y pre [k Hk] _ IH]; simpl.
  - by rewrite Hx.
  - by rewrite Hk, IH.
Qed.

End InOrder.

Section SaveLinks.
Context {P : Providers}.
Implicit Types (st : @Sink P) (contact_url : string).

(** X7. When [_save_links] returns, the links are the same items as before,
    in the order of their keys (the collation key of the name of the
    contact, then the friend url); the shelf holds that very list; and
    nothing else of the object has changed. *)
Theorem save_links_sorts st st' :
  _save_links st = (Return tt, st') ->
  links st' ≡ₚ links st
  /\ links_in_order st'
  /\ shelf_links (shelf st') = Some (links st')
  /\ st' = with_shelf (shelf_set_links (links st') (shelf st)) (with_links (links st') st).
Proof.
  intros Hsave. apply _save_links_Return in Hsave as (l & Hsorted & ->). simpl.
  split_and!; try done.
  - by apply sorted_Permutation in Hsorted.
  - apply sorted_in_order in Hsorted as (s & Hs & Hord & _). by exists s.
Qed.

Lemma _save_links_in_order st :
  links_in_order st ->
  _save_links st
  = (Return tt, with_shelf (shelf_set_links (links st) (shelf st)) st).
Proof.
  intros (d & Hd & Hord). unfold _save_links. py_unfold. unfold sorted.
  rewrite Hd. simpl. rewrite (sort_decorated_id d Hord). simpl.
  rewrite (decorate_snd _ _ _ Hd). by destruct st.
Qed.

(** X8. Saving is idempotent: when [_save_links] has returned, calling it
    again returns and changes nothing, neither the object nor the shelf. *)
Theorem save_links_idempotent st st' :
  _save_links st = (Return tt, st') ->
  _save_links st' = (Return tt, st').
Proof.
  intros Hsave. apply _save_links_Return in Hsave as (l & Hsorted & ->).
  apply sorted_in_order in Hsorted as (s & Hs & Hord & Hagain).
  unfold _save_links. py_unfold. simpl. by rewrite Hagain.
Qed.

(** X9. A link whose contact is not among the contacts makes [_save_links]
    raise [KeyError] with the url of the first such contact, before
    anything is sorted or written: the object and the shelf are as they
    were. *)
Theorem save_links_missing_contact st pre contact_url v post :
  links st = pre ++ (contact_url, v) :: post ->
  Forall (fun kv => Dict.mem (fst kv) (contacts st) = true) pre ->
  Dict.mem contact_url (contacts st) = false ->
  _save_links st = (Raise (KeyError contact_url), st).
Proof.
  intros Hlinks Hpre Hmiss. unfold _save_links. py_unfold. unfold sorted.
  rewrite Hlinks.
  rewrite (decorate_Raise _ pre (contact_url, v) post (KeyError contact_url)); [done| |].
  - eapply Forall_impl; [exact Hpre|]. intros [k w]. unfold Dict.mem, links_sort_key.
    simpl. destruct (Dict.get k (contacts st)); [by eexists | done].
  - unfold links_sort_key, Dict.mem in *. simpl.
    by destruct (Dict.get contact_url (contacts st)).
Qed.

End SaveLinks.

(** ** Ties between a link and an ignored contact *)

Section Ties.
Context {A : Type}.
Implicit Types (d : list ((string * option string) * A)).
Implicit Types (a b : string * option string) (x y z : string).

Lemma compare_refl x : String.compare x x = Eq.
Proof. by apply OrderedTypeEx.String_as_OT.cmp_eq. Qed.

Lemma compare_le_trans x y z :
  String.compare x y <> Gt -> String.compare y z <> Gt -> String.compare x z <> Gt.
Proof.
  intros Hxy Hyz.
  destruct (String.compare x y) eqn:E1; [| |done].
  { apply String.compare_eq_iff in E1 as ->. done. }
  destruct (String.compare y z) eqn:E2; [| |done].
  { apply String.compare_eq_iff in E2 as <-. by rewrite E1. }
  assert (String.compare x z = Lt) as ->; [|done].
  apply OrderedTypeEx.String_as_OT.cmp_lt.
  apply OrderedTypeEx.String_as_OT.cmp_lt in E1, E2.
  eapply OrderedTypeEx.String_as_OT.lt_trans; eassumption.
Qed.

Lemma compare_le_antisym x y :
  String.compare x y <> Gt -> String.compare y x <> Gt -> x = y.
Proof.
  intros Hxy Hyx. rewrite (String.compare_antisym y x) in Hyx.
  destruct (String.compare x y) eqn:E; [|done|done].
  by apply String.compare_eq_iff.
Qed.

(** What two neighbours of a list in order have to be. *)
Lemma sort_key_lt_false a b :
  sort_key_lt b a = Return false ->
  String.compare (fst a) (fst b) <> Gt
  /\ (fst a = fst b -> (snd a = None <-> snd b = None)).
Proof.
  unfold sort_key_lt. destruct (String.eqb_spec (fst b) (fst a)) as [Heq|Hne].
  - rewrite Heq, compare_refl. split; [done|].
    intros _. destruct (snd a), (snd b); try done.
  - unfold String.ltb. rewrite (String.compare_antisym (fst a) (fst b)).
    destruct (String.compare (fst b) (fst a)); try done.
    all: intros _; split; [done | by intros ->].
Qed.

Lemma in_order_head a ks :
  in_order (a :: ks) ->
  forall b, b ∈ ks ->
    String.compare (fst a) (fst b) <> Gt
    /\ (fst a = fst b -> (snd a = None <-> snd b = None)).
Proof.
  revert a. induction ks as [|c ks IH]; intros a Hord b Hb.
  - by apply elem_of_nil in Hb.
  - destruct Hord as [Hac Hord]. apply sort_key_lt_false in Hac as [Hle Hkind].
    apply elem_of_cons in Hb as [->|Hb]; [done|].
    destruct (IH c Hord b Hb) as [Hle' Hkind'].
    split; [by eapply compare_le_trans|].
    intros Heq.
    assert (Hca : fst a = fst c).
    { apply compare_le_antisym; [done|]. by rewrite Heq. }
    rewrite (Hkind Hca). apply Hkind'. congruence.
Qed.

Lemma in_order_tail a ks : in_order (a :: ks) -> in_order ks.
Proof. destruct ks; [done|]. by intros [_ ?]. Qed.

(** A list in order holds no ignored item and linked item of one key. *)
Lemma in_order_no_mixed_tie ks x (f : string) :
  in_order ks -> (x, None) ∈ ks -> (x, Some f) ∈ ks -> False.
Proof.
  induction ks as [|a ks IH]; intros Hord Hn Hs.
  - by apply elem_of_nil in Hn.
  - apply elem_of_cons in Hn as [<-|Hn]; apply elem_of_cons in Hs as [Hs|Hs];
      try done.
    + destruct (in_order_head _ _ Hord _ Hs) as [_ Hkind].
      by destruct (Hkind eq_refl) as [H _]; specialize (H eq_refl).
    + subst a. destruct (in_order_head _ _ Hord _ Hn) as [_ Hkind].
      by destruct (Hkind eq_refl) as [_ H]; specialize (H eq_refl).
    + apply IH; [by eapply in_order_tail | done | done].
Qed.

Lemma sort_key_lt_Raise a b e : sort_key_lt a b = Raise e -> e = TypeError.
Proof.
  unfold sort_key_lt. destruct (String.eqb _ _); [|done].
  destruct (snd a), (snd b); try done; by intros [= <-].
Qed.

Lemma insert_sorted_Raise (p : (string * option string) * A) d e :
  insert_sorted p d = Raise e -> e = TypeError.
Proof.
  induction d as [|q d IH]; simpl; [done|].
  destruct (sort_key_lt (fst q) (fst p)) as [[]|e'] eqn:Hlt; simpl.
  - destruct (insert_sorted p d) as [r|e'']; simpl; [done|].
    intros [= <-]. by apply IH.
  - done.
  - intros [= <-]. by apply sort_key_lt_Raise in Hlt.
Qed.

Lemma sort_decorated_Raise d e : sort_decorated d = Raise e -> e = TypeError.
Proof.
  induction d as [|p d IH]; simpl; [done|].
  destruct (sort_decorated d) as [r|e']; simpl.
  - apply insert_sorted_Raise.
  - intros [= <-]. by apply IH.
Qed.

Lemma decorate_Return (key : A -> outcome (string * option string)) (l : list A) :
  Forall (fun item => exists k, key item = Return k) l ->
  exists d, decorate key l = Return d.
Proof.
  induction 1 as [|item l [k Hk] _ [d IH]]; simpl; [by eexists|].
  rewrite Hk, IH. simpl. by eexists.
Qed.

Lemma decorate_elem_of (key : A -> outcome (string * option string)) (l : list A) d
    (item : A) k :
  decorate key l = Return d -> item ∈ l -> key item = Return k -> (k, item) ∈ d.
Proof.
  revert d. induction l as [|item' l IH]; intros d; simpl.
  - intros _ Hy. by apply elem_of_nil in Hy.
  - destruct (key item') as [kx|e] eqn:Hx; simpl; [|done].
    destruct (decorate key l) as [r|e]; simpl; [|done].
    intros [= <-] [->|Hy]%elem_of_cons Hk.
    + rewrite Hx in Hk. injection Hk as ->. apply elem_of_cons. by left.
    + apply elem_of_cons. right. by apply IH.
Qed.

End Ties.

Section SaveTies.
Context {P : Providers}.
Implicit Types (st : @Sink P) (contact_url : string).

(** X10. An ignored contact and a linked contact whose names have the same
    collation key (two contacts of one name, say) cannot be ordered: their
    keys tie on the name, and [None] is then compared with a string.  With
    every linked contact among the contacts, [_save_links] raises
    [TypeError] and leaves the object and the shelf as they were. *)
Theorem save_links_tie_with_ignored st ignored linked friend_url name1 name2 :
  Forall (fun kv => Dict.mem (fst kv) (contacts st) = true) (links st) ->
  Dict.get ignored (links st) = Some None ->
  Dict.get linked (links st) = Some (Some friend_url) ->
  Dict.get ignored (contacts st) = Some name1 ->
  Dict.get linked (contacts st) = Some name2 ->
  getSortKey P name1 = getSortKey P name2 ->
  _save_links st = (Raise TypeError, st).
Proof.
  intros Hall Hi Hl Hn1 Hn2 Hkey. unfold _save_links. py_unfold. unfold sorted.
  destruct (decorate_Return (@links_sort_key P (contacts st)) (links st)) as [d Hd].
  { eapply Forall_impl; [exact Hall|]. intros [k w]. unfold Dict.mem, links_sort_key.
    simpl. destruct (Dict.get k (contacts st)); [by eexists | done]. }
  rewrite Hd. simpl.
  destruct (sort_decorated d) as [s|e] eqn:Hs; simpl.
  - exfalso.
    pose proof (sort_decorated_in_order _ _ Hs) as Hord.
    apply sort_decorated_Permutation in Hs.
    apply (in_order_no_mixed_tie (map fst s) (getSortKey P name1) friend_url Hord).
    + apply (list_elem_of_fmap_2' fst _ ((getSortKey P name1, None), (ignored, None)));
        [|done].
      rewrite Hs. eapply decorate_elem_of; [exact Hd | by apply dict_get_elem_of |].
      unfold links_sort_key. simpl. by rewrite Hn1.
    + apply (list_elem_of_fmap_2' fst _
               ((getSortKey P name1, Some friend_url), (linked, Some friend_url)));
        [|done].
      rewrite Hs. eapply decorate_elem_of; [exact Hd | by apply dict_get_elem_of |].
      unfold links_sort_key. simpl. by rewrite Hn2, Hkey.
  - by apply sort_decorated_Raise in Hs as ->.
Qed.

End SaveTies.

(** ** What linking keeps *)

Section ReturnsIn.
Context {S : Type} (R : S -> S -> Prop).
Context (Rrefl : forall st, R st st).
Context (Rtrans : forall a b c, R a b -> R b c -> R a c).

Lemma returns_in_ret {A} (a : A) : returns_in R (ret a).
Proof using Rrefl. intros st o st' [= _ <-]. apply Rrefl. Qed.

Lemma returns_in_raise {A} e : returns_in R (@raise S A e).
Proof. intros st o st' [=]. Qed.

Lemma returns_in_get_state : returns_in R (@get_state S).
Proof using Rrefl. intros st o st' [= _ <-]. apply Rrefl. Qed.

Lemma returns_in_bind {A B} (m : Py S A) (k : A -> Py S B) :
  returns_in R m -> (forall a, returns_in R (k a)) -> returns_in R (x <- m ;; k x).
Proof using Rtrans.
  intros Hm Hk st o st'. unfold bind.
  destruct (m st) as [[a|e] st1] eqn:Hrun; [|done].
  intros Hrest. eapply Rtrans; [by eapply Hm | by eapply Hk].
Qed.

Lemma returns_in_modify (f : S -> S) :
  (forall st, R st (f st)) -> returns_in R (modify f).
Proof. intros Hf st o st' [= _ <-]. apply Hf. Qed.

End ReturnsIn.

Ltac returns_in_steps Hrefl Htrans :=
  repeat match goal with
    | |- returns_in _ (ret _) => apply (returns_in_ret _ Hrefl)
    | |- returns_in _ (raise _) => apply returns_in_raise
    | |- returns_in _ get_state => apply (returns_in_get_state _ Hrefl)
    | |- returns_in _ (bind _ _) =>
        apply (returns_in_bind _ Htrans); [|intros ?; cbv beta]
    | |- returns_in _ (if ?b then _ else _) => destruct b
    | |- returns_in _ (match ?x with _ => _ end) => destruct x
    end.

Section LinksGrow.
Context {P : Providers}.
Implicit Types (st : @Sink P) (contact_url friend_url name : string).

Lemma links_grow_refl st : links_grow st st.
Proof. by intros Ht. Qed.

Lemma links_grow_trans (a b c : @Sink P) :
  links_grow a b -> links_grow b c -> links_grow a c.
Proof.
  intros Hab Hbc Ha. destruct (Hab Ha) as (Hb & Hc1 & Hf1 & Hk1).
  destruct (Hbc Hb) as (Hc & Hc2 & Hf2 & Hk2).
  split_and!; [done | congruence | congruence | auto].
Qed.

Lemma links_grow_same st st' :
  links st' = links st -> contacts st' = contacts st -> friends st' = friends st ->
  links_grow st st'.
Proof.
  intros Hl Hc Hf [Hnd Hv]. unfold tidy, links_valid. rewrite Hl.
  split_and!; try done.
  intros k v Hget. rewrite (is_stale_ext st st') by done. by apply Hv.
Qed.

Lemma returns_in_print line : returns_in (links_grow (P := P)) (print line).
Proof. apply returns_in_modify. intros st. by apply links_grow_same. Qed.

Lemma _print_link_valid st contact_url prefix st' :
  _print_link contact_url prefix st = (Return tt, st') ->
  exists v, Dict.get contact_url (links st) = Some v /\ is_stale st contact_url v = false.
Proof.
  unfold _print_link, is_stale, Dict.mem. py_unfold.
  destruct (Dict.get contact_url (links st)) as [[f|]|]; [| |done];
    destruct (Dict.get contact_url (contacts st)) as [name|]; try done.
  - destruct (Dict.get f (friends st)) as [friend|] eqn:Hf; [|done].
    intros _. eexists. split; [reflexivity|]. simpl. by rewrite Hf.
  - intros _. eexists. split; [reflexivity | done].
Qed.

Lemma dict_get_is_Some_Permutation {V} (d d' : list (string * V)) k :
  d ≡ₚ d' -> is_Some (Dict.get k d) -> is_Some (Dict.get k d').
Proof.
  intros Hp [v Hv]. destruct (Dict.get k d') as [v'|] eqn:E; [done|].
  apply dict_get_None in E. exfalso. apply E.
  unfold Dict.keys. rewrite <- Hp.
  apply dict_get_elem_of in Hv. by apply (list_elem_of_fmap_2' fst _ (k, v)).
Qed.

Lemma dict_get_is_Some_set {V} (d : list (string * V)) k k' v :
  is_Some (Dict.get k d) -> is_Some (Dict.get k (Dict.set k' v d)).
Proof.
  intros Hk. destruct (decide (k = k')) as [->|Hne].
  - by rewrite dict_get_set_eq.
  - by rewrite dict_get_set_ne.
Qed.

(** What [_add_link] leaves when it returns on tidy links. *)
Lemma _add_link_tidy st contact_url v st' :
  tidy st ->
  _add_link contact_url v st = (Return tt, st') ->
  tidy st' /\ contacts st' = contacts st /\ friends st' = friends st
  /\ (forall k, is_Some (Dict.get k (links st)) -> is_Some (Dict.get k (links st')))
  /\ Dict.get contact_url (links st') = Some v
  /\ is_stale st contact_url v = false.
Proof.
  intros [Hnd Hv] Hadd.
  destruct (_add_link_links _ _ _ _ Hnd Hadd) as (Hnd' & Hget & Hoth & _ & Hc & Hf).
  assert (Hstale : is_stale st contact_url v = false).
  { revert Hadd. unfold _add_link. unfold bind at 1. unfold modify at 1.
    unfold bind at 1.
    destruct (_save_links _) as [ [ [] | e ] st1 ] eqn:Hsave; [|done].
    intros Hprint. pose proof Hprint as Hmem.
    apply _print_link_memory in Hmem as (line & ->). simpl in *.
    apply _print_link_valid in Hprint as (v' & Hget' & Hst).
    rewrite Hget in Hget'. injection Hget' as <-.
    by rewrite <- (is_stale_ext st st1). }
  split_and!; try done.
  - split; [done|]. intros k w Hk. rewrite (is_stale_ext st st') by done.
    destruct (decide (k = contact_url)) as [->|Hne].
    + rewrite Hget in Hk. by injection Hk as <-.
    + rewrite Hoth in Hk by done. by apply Hv.
  - intros k Hk. destruct (decide (k = contact_url)) as [->|Hne].
    + by rewrite Hget.
    + by rewrite Hoth.
Qed.

Lemma returns_in_add_link contact_url v :
  returns_in (links_grow (P := P)) (_add_link contact_url v).
Proof.
  intros st [] st' Hadd Ht.
  by destruct (_add_link_tidy _ _ _ _ Ht Hadd) as (? & ? & ? & ? & _).
Qed.

Lemma returns_in_print_matches i matches :
  returns_in (links_grow (P := P)) (print_matches i matches).
Proof.
  intros st [] st' Hrun.
  destruct (print_matches_Return i matches st) as [lines Hl].
  rewrite Hl in Hrun. injection Hrun as <-. by apply links_grow_same.
Qed.

Lemma returns_in_get_link_search contact_url score_threshold match_limit auto_match
    name prompt :
  (forall matches, returns_in (links_grow (P := P)) (prompt matches)) ->
  returns_in (links_grow (P := P))
    (_get_link_search contact_url score_threshold match_limit auto_match name prompt).
Proof.
  intros Hprompt.
  pose proof (@links_grow_refl) as Hrefl. pose proof links_grow_trans as Htrans.
  unfold _get_link_search, _get_matches.
  returns_in_steps Hrefl Htrans;
    first [apply returns_in_add_link | apply returns_in_print_matches | apply Hprompt].
Qed.

Lemma returns_in_get_link_prompt inp contact_url score_threshold match_limit auto_match :
  forall matches,
    returns_in (links_grow (P := P))
      (_get_link_prompt inp contact_url score_threshold match_limit auto_match matches).
Proof.
  pose proof (@links_grow_refl) as Hrefl. pose proof links_grow_trans as Htrans.
  induction inp as [|command inp IH]; intros matches; simpl.
  - returns_in_steps Hrefl Htrans. apply returns_in_print.
  - returns_in_steps Hrefl Htrans;
      first [ apply returns_in_print | apply returns_in_add_link | apply IH
            | apply returns_in_get_link_search, IH
            | apply returns_in_modify; intros st; by apply links_grow_same ].
Qed.

Lemma returns_in_get_link contact_url score_threshold match_limit auto_match :
  returns_in (links_grow (P := P))
    (_get_link contact_url score_threshold match_limit auto_match).
Proof.
  pose proof (@links_grow_refl) as Hrefl. pose proof links_grow_trans as Htrans.
  unfold _get_link, contacts_getitem.
  returns_in_steps Hrefl Htrans; try apply returns_in_print.
  apply returns_in_get_link_search. intros matches.
  intros st [] st'. unfold bind, get_state. apply returns_in_get_link_prompt.
Qed.

(** When [_get_link] returns, the contact has a link. *)
Lemma _get_link_linked st contact_url score_threshold match_limit auto_match st' :
  NoDup (Dict.keys (links st)) ->
  _get_link contact_url score_threshold match_limit auto_match st = (Return tt, st') ->
  is_Some (Dict.get contact_url (links st')).
Proof.
  intros Hnd. unfold _get_link, contacts_getitem. py_unfold.
  destruct (Dict.get contact_url (contacts st)) as [name|]; [|done].
  unfold _get_link_search, _get_matches. py_unfold. simpl.
  set (st0 := with_stdout (stdout st ++ [name]) st).
  assert (Hnd0 : NoDup (Dict.keys (links st0))) by done.
  destruct (if auto_match then top_match _ _ else None) as [f|].
  - intros Hadd. by destruct (_add_link_links _ _ _ _ Hnd0 Hadd) as (_ & -> & _).
  - destruct (print_matches_Return 0 (process_extract P name (friends st) match_limit)
                st0) as [lines ->].
    intros Hrun. apply _get_link_prompt_Return in Hrun; [|done].
    destruct Hrun as (typed & last & rest & v & _ & _ & _ & _ & ->). done.
Qed.

Lemma _update_links_interactive_linked score_threshold match_limit unlinks :
  forall st st',
    tidy st ->
    _update_links_interactive score_threshold match_limit unlinks st = (Return tt, st') ->
    links_grow st st'
    /\ forall c, c ∈ unlinks -> is_Some (Dict.get c (links st')).
Proof.
  induction unlinks as [|c0 unlinks IH]; intros st st' Ht; simpl.
  - intros [= <-]. split; [apply links_grow_refl|].
    intros c Hc. by apply elem_of_nil in Hc.
  - unfold bind at 1. unfold print at 1, modify at 1.
    set (st0 := with_stdout (stdout st ++ [""]) st).
    assert (Ht0 : tidy st0).
    { destruct (links_grow_same st st0 eq_refl eq_refl eq_refl Ht) as [? _]. done. }
    unfold bind at 1.
    destruct (_get_link c0 _ _ true st0) as [[[]|e] st1] eqn:Hget; [|done].
    intros Hrest.
    pose proof (returns_in_get_link _ _ _ _ _ _ _ Hget Ht0) as (Ht1 & Hc1 & Hf1 & Hk1).
    destruct (IH _ _ Ht1 Hrest) as (Hgrow & Hall).
    destruct (Hgrow Ht1) as (Ht' & Hc' & Hf' & Hk').
    split.
    + intros _. split_and!; [done | by rewrite Hc', Hc1 | by rewrite Hf', Hf1 |].
      intros k Hk. apply Hk', Hk1. exact Hk.
    + intros c [->|Hc]%elem_of_cons; [|by apply Hall].
      apply Hk'. eapply _get_link_linked; [|exact Hget]. by destruct Ht0.
Qed.

Lemma returns_in_update_links_auto update_ignored score_threshold match_limit cs :
  forall unlinks,
    returns_in (links_grow (P := P))
      (_update_links_auto update_ignored score_threshold match_limit cs unlinks).
Proof.
  pose proof (@links_grow_refl) as Hrefl. pose proof links_grow_trans as Htrans.
  induction cs as [|c cs IH]; intros unlinks; simpl.
  - returns_in_steps Hrefl Htrans.
  - apply (returns_in_bind _ Htrans); [|intros ?; apply IH].
    unfold _update_links_auto_one, contacts_getitem, _get_matches.
    returns_in_steps Hrefl Htrans. apply returns_in_add_link.
Qed.

End LinksGrow.

Section UpdateLinks.
Context {P : Providers}.
Implicit Types (st : @Sink P) (contact_url friend_url name : string).

Lemma _add_link_live st contact_url v st' :
  NoDup (Dict.keys (links st)) ->
  _add_link contact_url v st = (Return tt, st') ->
  is_stale st contact_url v = false.
Proof.
  intros Hnd Hadd.
  destruct (_add_link_links _ _ _ _ Hnd Hadd) as (Hnd' & Hget & Hoth & _ & Hc & Hf).
  revert Hadd. unfold _add_link. unfold bind at 1. unfold modify at 1.
  unfold bind at 1.
  destruct (_save_links _) as [ [ [] | e ] st1 ] eqn:Hsave; [|done].
  intros Hprint. pose proof Hprint as Hmem.
  apply _print_link_memory in Hmem as (line & ->). simpl in *.
  apply _print_link_valid in Hprint as (v' & Hget' & Hst).
  rewrite Hget in Hget'. injection Hget' as <-.
  by rewrite <- (is_stale_ext st st1).
Qed.

(** X11. When [_add_link] returns, the link is a valid one (the contact is
    among the contacts, and the friend, when there is one, among the
    friends), it is the link of the contact, no other record has changed
    its link, the links are in order and the shelf holds them; checksums
    and timestamps are untouched. *)
Theorem add_link_returns st contact_url v st' :
  NoDup (Dict.keys (links st)) ->
  _add_link contact_url v st = (Return tt, st') ->
  is_stale st contact_url v = false
  /\ Dict.get contact_url (links st') = Some v
  /\ (forall k, k <> contact_url -> Dict.get k (links st') = Dict.get k (links st))
  /\ links_in_order st'
  /\ shelf_links (shelf st') = Some (links st')
  /\ checksums st' = checksums st /\ timestamps st' = timestamps st.
Proof.
  intros Hnd Hadd.
  pose proof (_add_link_live _ _ _ _ Hnd Hadd) as Hlive.
  destruct (_add_link_links _ _ _ _ Hnd Hadd) as (_ & Hget & Hoth & Hshelf & _ & _).
  apply _add_link_Return in Hadd as (l & line & Hsorted & ->).
  split_and!; try done.
  apply sorted_in_order in Hsorted as (s & Hs & Hord & _). by exists s.
Qed.

Lemma _clean_links_tidy st :
  NoDup (Dict.keys (links st)) ->
  exists st',
    _clean_links st = (Return tt, st')
    /\ tidy st' /\ contacts st' = contacts st /\ friends st' = friends st.
Proof.
  intros Hnd.
  destruct (_clean_links_loop_filter st (links st) [] st)
    as (st' & Hrun & Hl & _ & _ & Hc & Hf & _); try done.
  exists st'. split_and!; try done. simpl in Hl. split.
  - rewrite Hl. eapply sublist_NoDup; [exact Hnd|].
    unfold Dict.keys. apply fmap_sublist, sublist_filter.
  - intros k v Hget. rewrite Hl in Hget. apply dict_get_elem_of in Hget.
    apply list_elem_of_filter in Hget as [Hlive _].
    by rewrite (is_stale_ext st st').
Qed.

(** X12. When [_update_links] returns, every link is valid, and the contacts
    and friends are those it started with.  Unless [auto_only] is set, every
    contact then has a link: to a friend, or [None] for the ones the
    operator chose to ignore. *)
Theorem update_links_decides_all st update_ignored auto_only score_threshold
    match_limit st' :
  NoDup (Dict.keys (links st)) ->
  NoDup (Dict.keys (contacts st)) ->
  _update_links update_ignored auto_only score_threshold match_limit st
  = (Return tt, st') ->
  links_valid st'
  /\ NoDup (Dict.keys (links st'))
  /\ contacts st' = contacts st /\ friends st' = friends st
  /\ (auto_only = false ->
      forall contact_url,
        contact_url ∈ Dict.keys (contacts st) ->
        is_Some (Dict.get contact_url (links st'))).
Proof.
  intros Hnd Hndc. unfold _update_links.
  unfold bind at 1. unfold print at 1, modify at 1.
  set (st0 := with_stdout (stdout st ++ ["Updating links..."]) st).
  unfold bind at 1.
  destruct (_clean_links_tidy st0 Hnd) as (st1 & -> & Ht1 & Hc1 & Hf1).
  unfold bind at 1, get_state at 1. unfold bind at 1.
  destruct (_update_links_auto _ _ _ _ _ st1) as [[unlinks|e] st2] eqn:Hauto; [|done].
  pose proof (returns_in_update_links_auto _ _ _ _ _ _ _ _ Hauto Ht1)
    as (Ht2 & Hc2 & Hf2 & Hk2).
  assert (Hndc1 : NoDup (Dict.keys (contacts st1))) by (by rewrite Hc1).
  destruct (_update_links_auto_Return _ _ _ _ Hndc1 _ _ _ _ (proj1 Ht1) Hauto)
    as (_ & _ & _ & _ & Hin).
  assert (Hdecided : forall c, c ∈ Dict.keys (contacts st) ->
            is_Some (Dict.get c (links st2)) \/ c ∈ unlinks).
  { intros c Hc. 
    destruct (wants_link update_ignored st1 c) eqn:Hwant.
    - destruct (Dict.get c (contacts st1)) as [name|] eqn:Hname.
      + assert (Hc' : c ∈ Dict.keys (contacts st1)) by (by rewrite Hc1).
        specialize (Hin c name Hc' Hwant Hname).
        destruct (top_match _ _) as [f|]; destruct Hin as [Hg Hm].
        * left. by rewrite Hg.
        * by right.
      + apply dict_get_None in Hname. rewrite Hc1 in Hname. contradiction.
    - left. apply Hk2. unfold wants_link in Hwant.
      by destruct (Dict.get c (links st1)). }
  destruct (negb auto_only && negb (bool_decide (unlinks = []))) eqn:Hgo.
  - unfold bind at 1. unfold print at 1, modify at 1.
    set (st3 := with_stdout _ st2).
    assert (Ht3 : tidy st3).
    { by destruct (links_grow_same st2 st3 eq_refl eq_refl eq_refl Ht2) as [? _]. }
    intros Hrun.
    destruct (_update_links_interactive_linked _ _ _ _ _ Ht3 Hrun) as (Hgrow & Hall).
    destruct (Hgrow Ht3) as ([Hnd' Hv'] & Hc' & Hf' & Hk').
    split_and!; try done.
    + rewrite Hc'. unfold st3. simpl. by rewrite Hc2, Hc1.
    + rewrite Hf'. unfold st3. simpl. by rewrite Hf2, Hf1.
    + intros _ c Hc. destruct (Hdecided c Hc) as [Hl|Hu]; [by apply Hk' | by apply Hall].
  - intros [= Heq]. subst st'. destruct Ht2 as [Hnd2 Hv2].
    split_and!; try done.
    + by rewrite Hc2, Hc1.
    + by rewrite Hf2, Hf1.
    + intros -> c Hc. destruct (Hdecided c Hc) as [Hl|Hu]; [done|].
      simpl in Hgo. apply negb_false_iff, bool_decide_eq_true in Hgo. subst unlinks.
      by apply elem_of_nil in Hu.
Qed.

End UpdateLinks.

(** ** Checksums and timestamps belong to linked records *)

Ltac preserves_syn Hrefl Htrans :=
  repeat match goal with
    | |- preserves _ (ret _) => apply (preserves_ret _ Hrefl)
    | |- preserves _ (raise _) => apply (preserves_raise _ Hrefl)
    | |- preserves _ get_state => apply (preserves_get_state _ Hrefl)
    | |- preserves _ (bind _ _) =>
        apply (preserves_bind _ Htrans); [|intros ?; cbv beta]
    | |- preserves _ (if ?b then _ else _) => destruct b
    | |- preserves _ (match ?x with _ => _ end) => destruct x
    end.

Section Bookkeeping.
Context {P : Providers}.
Implicit Types (st : @Sink P) (contact_url friend_url name : string).

Lemma keeps_sums_refl st : keeps_sums st st.
Proof. by repeat split. Qed.

Lemma keeps_sums_trans (a b c : @Sink P) :
  keeps_sums a b -> keeps_sums b c -> keeps_sums a c.
Proof.
  intros (Hc1 & Ht1 & Hk1) (Hc2 & Ht2 & Hk2).
  split_and!; [congruence | congruence | auto].
Qed.

Lemma keeps_sums_print line : preserves (keeps_sums (P := P)) (print line).
Proof. apply preserves_modify. intros st. by repeat split. Qed.

Lemma keeps_sums_save_links : preserves (keeps_sums (P := P)) _save_links.
Proof.
  intros st o st'. unfold _save_links. py_unfold.
  destruct (sorted _ _) as [l|e] eqn:Hsorted; intros [= _ <-].
  - split_and!; try done. simpl. intros k.
    apply dict_get_is_Some_Permutation. symmetry. by apply sorted_Permutation in Hsorted.
  - apply keeps_sums_refl.
Qed.

Lemma keeps_sums_print_link contact_url prefix :
  preserves (keeps_sums (P := P)) (_print_link contact_url prefix).
Proof.
  pose proof (@keeps_sums_refl) as Hrefl. pose proof keeps_sums_trans as Htrans.
  unfold _print_link, links_getitem, contacts_getitem, friends_getitem.
  preserves_syn Hrefl Htrans; apply keeps_sums_print.
Qed.

Lemma keeps_sums_add_link contact_url v :
  preserves (keeps_sums (P := P)) (_add_link contact_url v).
Proof.
  pose proof (@keeps_sums_refl) as Hrefl. pose proof keeps_sums_trans as Htrans.
  unfold _add_link. preserves_syn Hrefl Htrans.
  - apply preserves_modify. intros st. split_and!; try done.
    intros k. apply dict_get_is_Some_set.
  - apply keeps_sums_save_links.
  - apply keeps_sums_print_link.
Qed.

Lemma keeps_sums_print_matches i matches :
  preserves (keeps_sums (P := P)) (print_matches i matches).
Proof.
  pose proof (@keeps_sums_refl) as Hrefl. pose proof keeps_sums_trans as Htrans.
  revert i. induction matches as [|[[n s] f] matches IH]; intros i; simpl.
  - preserves_syn Hrefl Htrans.
  - preserves_syn Hrefl Htrans; [apply keeps_sums_print | apply IH].
Qed.

Lemma keeps_sums_get_link_search contact_url score_threshold match_limit auto_match
    name prompt :
  (forall matches, preserves (keeps_sums (P := P)) (prompt matches)) ->
  preserves (keeps_sums (P := P))
    (_get_link_search contact_url score_threshold match_limit auto_match name prompt).
Proof.
  intros Hprompt.
  pose proof (@keeps_sums_refl) as Hrefl. pose proof keeps_sums_trans as Htrans.
  unfold _get_link_search, _get_matches.
  preserves_syn Hrefl Htrans;
    first [apply keeps_sums_add_link | apply keeps_sums_print_matches | apply Hprompt].
Qed.

Lemma keeps_sums_get_link_prompt inp contact_url score_threshold match_limit auto_match :
  forall matches,
    preserves (keeps_sums (P := P))
      (_get_link_prompt inp contact_url score_threshold match_limit auto_match matches).
Proof.
  pose proof (@keeps_sums_refl) as Hrefl. pose proof keeps_sums_trans as Htrans.
  induction inp as [|command inp IH]; intros matches; simpl.
  - preserves_syn Hrefl Htrans. apply keeps_sums_print.
  - preserves_syn Hrefl Htrans;
      first [ apply keeps_sums_print | apply keeps_sums_add_link | apply IH
            | apply keeps_sums_get_link_search, IH
            | apply preserves_modify; intros st; by repeat split ].
Qed.

Lemma keeps_sums_get_link contact_url score_threshold match_limit auto_match :
  preserves (keeps_sums (P := P))
    (_get_link contact_url score_threshold match_limit auto_match).
Proof.
  pose proof (@keeps_sums_refl) as Hrefl. pose proof keeps_sums_trans as Htrans.
  unfold _get_link, contacts_getitem.
  preserves_syn Hrefl Htrans; try apply keeps_sums_print.
  apply keeps_sums_get_link_search. intros matches.
  intros st o st'. unfold bind, get_state. apply keeps_sums_get_link_prompt.
Qed.

Lemma keeps_sums_update_links_interactive score_threshold match_limit unlinks :
  preserves (keeps_sums (P := P))
    (_update_links_interactive score_threshold match_limit unlinks).
Proof.
  pose proof (@keeps_sums_refl) as Hrefl. pose proof keeps_sums_trans as Htrans.
  induction unlinks as [|c unlinks IH]; simpl.
  - preserves_syn Hrefl Htrans.
  - preserves_syn Hrefl Htrans;
      [apply keeps_sums_print | apply keeps_sums_get_link | apply IH].
Qed.

Lemma keeps_sums_update_links_auto update_ignored score_threshold match_limit cs :
  forall unlinks,
    preserves (keeps_sums (P := P))
      (_update_links_auto update_ignored score_threshold match_limit cs unlinks).
Proof.
  pose proof (@keeps_sums_refl) as Hrefl. pose proof keeps_sums_trans as Htrans.
  induction cs as [|c cs IH]; intros unlinks; simpl.
  - preserves_syn Hrefl Htrans.
  - apply (preserves_bind _ Htrans); [|intros ?; apply IH].
    unfold _update_links_auto_one, contacts_getitem, _get_matches.
    preserves_syn Hrefl Htrans. apply keeps_sums_add_link.
Qed.

Lemma keeps_sums_bookkeeping st st' :
  keeps_sums st st' -> bookkeeping_linked st -> bookkeeping_linked st'.
Proof.
  intros (Hc & Ht & Hk) Hb k. rewrite Hc, Ht. intros Hsum. by apply Hk, Hb.
Qed.

Lemma _clean_links_bookkeeping st :
  NoDup (Dict.keys (links st)) ->
  exists st',
    _clean_links st = (Return tt, st')
    /\ tidy st'
    /\ (bookkeeping_linked st -> bookkeeping_linked st').
Proof.
  intros Hnd.
  destruct (_clean_links_loop_filter st (links st) [] st)
    as (st' & Hrun & Hl & Hck & Hts & Hc & Hf & _); try done.
  destruct (_clean_links_tidy st Hnd) as (st2 & Hrun2 & Ht2 & _).
  unfold _clean_links in Hrun2. unfold bind, get_state in Hrun2.
  rewrite Hrun in Hrun2. injection Hrun2 as <-.
  exists st'. split_and!; try done.
  intros Hb k. rewrite Hck, Hts. simpl in Hl. rewrite Hl.
  destruct (Dict.get k (links st)) as [v|] eqn:Hget.
  - destruct (is_stale st k v) eqn:Hstale.
    + intros [[? [=]]|[? [=]]].
    + intros _. 
      assert (Hin : (k, v) ∈ filter (fun kv => is_stale st (fst kv) (snd kv) = false)
                                (links st)).
      { apply list_elem_of_filter. split; [done | by apply dict_get_elem_of]. }
      destruct (Dict.get k (filter _ (links st))) eqn:E; [done|].
      apply dict_get_None in E. exfalso. apply E.
      by apply (list_elem_of_fmap_2' fst _ (k, v)).
  - intros Hsum. apply Hb in Hsum. rewrite Hget in Hsum. by destruct Hsum.
Qed.

(** X13. [_clean_links] leaves valid links and no orphans: every link that
    is left has its contact among the contacts and its friend, if any,
    among the friends; and when every checksum and timestamp belonged to a
    linked record before, so it does after. *)
Theorem clean_links_leaves_no_orphans st :
  NoDup (Dict.keys (links st)) ->
  let st' := snd (_clean_links st) in
  links_valid st'
  /\ (bookkeeping_linked st -> bookkeeping_linked st').
Proof.
  intros Hnd. destruct (_clean_links_bookkeeping st Hnd) as (st' & -> & [_ Hv] & Hb).
  by split.
Qed.

Lemma _update_links_bookkeeping st update_ignored auto_only score_threshold match_limit
    o st' :
  NoDup (Dict.keys (links st)) ->
  _update_links update_ignored auto_only score_threshold match_limit st = (o, st') ->
  bookkeeping_linked st -> bookkeeping_linked st'.
Proof.
  intros Hnd Hrun Hb. revert Hrun. unfold _update_links.
  unfold bind at 1. unfold print at 1, modify at 1.
  set (st0 := with_stdout (stdout st ++ ["Updating links..."]) st).
  unfold bind at 1.
  destruct (_clean_links_bookkeeping st0 Hnd) as (st1 & -> & _ & Hb1).
  specialize (Hb1 Hb).
  pose proof (@keeps_sums_refl) as Hrefl. pose proof keeps_sums_trans as Htrans.
  intros Hrun. eapply keeps_sums_bookkeeping; [|exact Hb1].
  revert Hrun. generalize st1 o st'.
  change (preserves (keeps_sums (P := P))
    (st2 <- get_state ;;
     unlinks <- _update_links_auto update_ignored score_threshold match_limit
                  (Dict.keys (contacts st2)) [] ;;
     if negb auto_only && negb (bool_decide (unlinks = []))
     then
       print (NL +:+ UPDATE_INSTRUCTIONS) ;;
       _update_links_interactive score_threshold match_limit unlinks
     else ret tt)%py).
  preserves_syn Hrefl Htrans;
    first [ apply keeps_sums_update_links_auto | apply keeps_sums_print
          | apply keeps_sums_update_links_interactive ].
Qed.

(** X14. [_update_photos] never changes the links, in memory or on the
    shelf, nor the contacts or the friends, and reads no line from the
    terminal; the checksum and the timestamp of a record without a link
    stay as they are.  This holds however the method ends. *)
Theorem update_photos_keeps_links retries delay expiry st :
  let st' := snd (_update_photos retries delay expiry st) in
  links st' = links st /\ contacts st' = contacts st /\ friends st' = friends st
  /\ stdin st' = stdin st /\ shelf_links (shelf st') = shelf_links (shelf st)
  /\ (forall k, Dict.get k (links st) = None ->
        checksums st' !! k = checksums st !! k
        /\ timestamps st' !! k = timestamps st !! k).
Proof.
  intros st'. subst st'. unfold _update_photos. py_unfold. simpl.
  set (st0 := with_stdout (stdout st ++ ["Updating photos..."]) st).
  destruct (_update_photos_loop _ retries delay expiry st0) as [o st2] eqn:Hrun.
  apply _update_photos_loop_touch in Hrun as (? & ? & ? & ? & ? & Hout & _).
  split_and!; try done.
  intros k Hk. apply Hout. by apply dict_get_None.
Qed.

(** X15. [_update_photos] gives no checksum and no timestamp to a record
    without a link: when every checksum and timestamp belongs to a linked
    record before the method runs, so it does after, however the method
    ends. *)
Theorem update_photos_bookkeeping retries delay expiry st :
  bookkeeping_linked st ->
  bookkeeping_linked (snd (_update_photos retries delay expiry st)).
Proof.
  intros Hb. unfold _update_photos. py_unfold. simpl.
  set (st0 := with_stdout (stdout st ++ ["Updating photos..."]) st).
  destruct (_update_photos_loop _ retries delay expiry st0) as [o st2] eqn:Hrun.
  apply _update_photos_loop_touch in Hrun as (_ & _ & _ & _ & _ & _ & Hkeep).
  by apply Hkeep.
Qed.

(** X16. [update] leaves no checksum and no timestamp for a record without
    a link: when every checksum and timestamp belongs to a linked record
    before the run, so it does after, whether the run returns or raises. *)
Theorem update_keeps_bookkeeping st update_ignored auto_only score_threshold
    match_limit retries delay expiry :
  NoDup (Dict.keys (links st)) ->
  bookkeeping_linked st ->
  bookkeeping_linked
    (snd (update update_ignored auto_only score_threshold match_limit
            retries delay expiry st)).
Proof.
  intros Hnd Hb. unfold update. unfold bind at 1.
  destruct (_update_links _ _ _ _ st) as [[[]|e] st1] eqn:Hlinks.
  - pose proof (_update_links_bookkeeping _ _ _ _ _ _ _ Hnd Hlinks Hb) as Hb1.
    unfold _update_photos. py_unfold. simpl.
    set (st2 := with_stdout _ st1).
    destruct (_update_photos_loop _ retries delay expiry st2) as [o st3] eqn:Hrun.
    apply _update_photos_loop_touch in Hrun as (_ & _ & _ & _ & _ & _ & Hkeep).
    by apply Hkeep.
  - simpl. by eapply _update_links_bookkeeping.
Qed.

End Bookkeeping.

(** ** [print_columns] *)

Section Columns.
Context {P : Providers}.
Implicit Types (st : @Sink P) (rows : list (string * string * string)).

Lemma every_third_row {A} (a b c : A) (l : list A) :
  every_third 0 (a :: b :: c :: l) = a :: every_third 0 l
  /\ every_third 1 (a :: b :: c :: l) = b :: every_third 1 l
  /\ every_third 2 (a :: b :: c :: l) = c :: every_third 2 l.
Proof. done. Qed.

Lemma every_third_short {A} (tail : list A) :
  length tail < 3 -> every_third 2 tail = [].
Proof. destruct tail as [|a [|b [|c tail]]]; simpl; try done. lia. Qed.

Lemma columns_rows rows tail :
  length tail < 3 ->
  zip (zip (every_third 0 (names_of_rows rows ++ tail))
           (every_third 1 (names_of_rows rows ++ tail)))
      (every_third 2 (names_of_rows rows ++ tail))
  = rows.
Proof.
  intros Htail. induction rows as [|[[a b] c] rows IH].
  - simpl. rewrite (every_third_short tail Htail).
    by destruct (zip (every_third 0 tail) (every_third 1 tail)).
  - change (names_of_rows (((a, b), c) :: rows) ++ tail)
      with (a :: b :: c :: (names_of_rows rows ++ tail)).
    destruct (every_third_row a b c (names_of_rows rows ++ tail)) as (-> & -> & ->).
    simpl. by rewrite IH.
Qed.

Lemma print_rows_Return rows st :
  print_rows rows st
  = (Return tt, with_stdout (stdout st ++ map row_line rows) st).
Proof.
  revert st. induction rows as [|row rows IH]; intros st; simpl.
  - unfold ret. rewrite app_nil_r. by destruct st.
  - unfold bind, print, modify. rewrite IH. simpl.
    by rewrite <- (assoc_L (++)).
Qed.

(** X17. [print_columns] prints the names three to a line, in their order,
    and drops what is left over: of a list of [3 * n + r] names with [r] one
    or two, the last [r] are not printed at all.  It changes nothing but the
    terminal. *)
Theorem print_columns_drops_the_rest rows tail st :
  length tail < 3 ->
  print_columns (names_of_rows rows ++ tail) st
  = (Return tt, with_stdout (stdout st ++ map row_line rows) st).
Proof.
  intros Htail. unfold print_columns. rewrite (columns_rows rows tail Htail).
  apply print_rows_Return.
Qed.

End Columns.

(** ** Deleting photos *)

Section Deleting.
Context {P : Providers} (google_get_contact : string -> World P -> World P).
Implicit Types (st : @Sink P) (contact_url : string).

Lemma _retry_range_delete_photo contact_url n st :
  exists w,
    _retry_range (delete_photo google_get_contact contact_url) n st
    = (Return false, with_world w st).
Proof.
  revert st. induction n as [|n IH]; intros st; simpl.
  - exists (world st). unfold ret. by destruct st.
  - destruct (IH (with_world (google_get_contact contact_url (world st)) st)) as [w Hw].
    exists w. unfold bind. exact Hw.
Qed.

(** The line that [_delete_photos] prints for a link. *)
Lemma _delete_photos_loop_Return keys retries :
  forall st,
    Forall (fun c => Dict.mem c (contacts st) = true) keys ->
    exists w,
      _delete_photos_loop google_get_contact keys retries st
      = (Return tt,
         with_world w
           (with_stdout
              (stdout st
               ++ map (fun c => "FAILURE: " +:+ default "" (Dict.get c (contacts st)))
                    keys) st)).
Proof.
  induction keys as [|c keys IH]; intros st Hall; simpl.
  - exists (world st). unfold ret. rewrite app_nil_r. by destruct st.
  - apply Forall_cons in Hall as [Hc Hall]. unfold bind at 1. unfold _retry.
    destruct (_retry_range_delete_photo c (Z.to_nat retries) st) as [w1 ->].
    unfold bind at 1. unfold bind at 1. unfold contacts_getitem.
    unfold bind at 1, get_state at 1. simpl.
    unfold Dict.mem in Hc. destruct (Dict.get c (contacts st)) as [name|] eqn:Hname;
      [|done].
    unfold ret at 1. unfold print, modify. simpl.
    edestruct (IH (with_stdout (stdout st ++ ["FAILURE: " +:+ name]) (with_world w1 st)))
      as [w ->]; [done|].
    exists w. simpl. by rewrite <- (assoc_L (++)).
Qed.

(** X18. [_delete_photos] deletes no photo.  [delete_photo] raises on every
    call, so every attempt fails: the method reports FAILURE for each valid
    link and SUCCESS for none, whatever the number of retries.  It never
    raises, and it leaves the links as [_clean_links] leaves them and the
    shelf as it was. *)
Theorem delete_photos_always_fails retries st :
  NoDup (Dict.keys (links st)) ->
  exists st',
    _delete_photos google_get_contact retries st = (Return tt, st')
    /\ stdout st'
       = stdout st ++ "Deleting photos..."
           :: map (fun kv => "FAILURE: " +:+ default "" (Dict.get (fst kv) (contacts st)))
                (fresh_links st)
    /\ links st' = fresh_links st
    /\ shelf st' = shelf st /\ contacts st' = contacts st /\ friends st' = friends st
    /\ stdin st' = stdin st /\ calls st' = calls st.
Proof.
  intros Hnd. unfold _delete_photos.
  unfold bind at 1. unfold print at 1, modify at 1.
  set (st0 := with_stdout (stdout st ++ ["Deleting photos..."]) st).
  unfold bind at 1.
  destruct (_clean_links_loop_filter st0 (links st0) [] st0)
    as (st1 & Hrun & Hl & _ & _ & Hc & Hf & Hsh & Ho & Hi & Hca & Hw); try done.
  destruct (_clean_links_tidy st0 Hnd) as (st2 & Hrun2 & [_ Hv] & _).
  assert (Hclean : _clean_links st0 = (Return tt, st1)).
  { unfold _clean_links. by unfold bind, get_state. }
  rewrite Hclean in Hrun2. injection Hrun2 as <-. rewrite Hclean.
  unfold bind at 1, get_state at 1.
  destruct (_delete_photos_loop_Return (Dict.keys (links st1)) retries st1) as [w ->].
  { apply Forall_forall. intros c Hc'.
    destruct (Dict.get c (links st1)) as [v|] eqn:Hget.
    - specialize (Hv c v Hget). unfold is_stale in Hv.
      apply orb_false_iff in Hv as [Hv _]. by apply negb_false_iff in Hv.
    - apply dict_get_None in Hget. contradiction. }
  eexists. split; [reflexivity|]. simpl in *.
  split_and!; try done.
  rewrite Ho, Hl, Hc. unfold fresh_links, Dict.keys.
  rewrite <- (assoc_L (++)). simpl. f_equal. f_equal.
  by rewrite <- list_fmap_compose.
Qed.

(** X19. [delete] with [delete_links] set never raises either; it ends with
    no link in memory and an empty dictionary of links on the shelf, and
    with the checksums and timestamps that [_clean_links] left, in memory
    as on the shelf. *)
Theorem delete_with_links retries st :
  NoDup (Dict.keys (links st)) ->
  exists st',
    sink_delete google_get_contact true retries st = (Return tt, st')
    /\ links st' = [] /\ shelf_links (shelf st') = Some []
    /\ shelf_checksums (shelf st') = shelf_checksums (shelf st)
    /\ shelf_timestamps (shelf st') = shelf_timestamps (shelf st)
    /\ (forall k, checksums st' !! k
                  = if dropped st k then None else checksums st !! k)
    /\ (forall k, timestamps st' !! k
                  = if dropped st k then None else timestamps st !! k).
Proof.
  intros Hnd. unfold sink_delete, _delete_photos.
  unfold bind at 1. unfold bind at 1. unfold print at 1, modify at 1.
  set (st0 := with_stdout (stdout st ++ ["Deleting photos..."]) st).
  unfold bind at 1.
  destruct (_clean_links_loop_filter st0 (links st0) [] st0)
    as (st1 & Hrun & Hl & Hck & Hts & Hc & Hf & Hsh & Ho & Hi & Hca & Hw); try done.
  destruct (_clean_links_tidy st0 Hnd) as (st2 & Hrun2 & [_ Hv] & _).
  assert (Hclean : _clean_links st0 = (Return tt, st1)).
  { unfold _clean_links. by unfold bind, get_state. }
  rewrite Hclean in Hrun2. injection Hrun2 as <-. rewrite Hclean.
  unfold bind at 1, get_state at 1.
  destruct (_delete_photos_loop_Return (Dict.keys (links st1)) retries st1) as [w ->].
  { apply Forall_forall. intros c Hc'.
    destruct (Dict.get c (links st1)) as [v|] eqn:Hget.
    - specialize (Hv c v Hget). unfold is_stale in Hv.
      apply orb_false_iff in Hv as [Hv _]. by apply negb_false_iff in Hv.
    - apply dict_get_None in Hget. contradiction. }
  unfold _delete_links, _save_links. py_unfold. simpl.
  eexists. split; [reflexivity|]. simpl. rewrite Hsh.
  split_and!; try done.
Qed.

End Deleting.

(** ** A number beyond the list *)

Section PromptIndex.
Context {P : Providers}.
Implicit Types (st : @Sink P) (contact_url name command : string).

(** X20. At the prompt of [_get_link], a number from 1 to [match_limit] is
    taken as an index into the matches on the screen, also when fewer
    matches than that are shown: the method then raises [IndexError].  No
    link is made and nothing is written to the shelf. *)
Theorem get_link_number_beyond_matches st contact_url name score_threshold match_limit
    auto_match command rest :
  Dict.get contact_url (contacts st) = Some name ->
  (auto_match = false
   \/ top_match (process_extract P name (friends st) match_limit) score_threshold
      = None) ->
  stdin st = command :: rest ->
  isdigit command = true ->
  (0 < int command <= match_limit)%Z ->
  (Z.of_nat (length (process_extract P name (friends st) match_limit)) < int command)%Z ->
  exists shown,
    _get_link contact_url score_threshold match_limit auto_match st
    = (Raise IndexError,
       with_stdin rest (with_stdout (stdout st ++ name :: shown ++ ["> "]) st)).
Proof.
  intros Hname Hauto Hin Hdig [Hpos Hlim] Hlen.
  unfold _get_link. rewrite (bind_Return _ _ st name st (contacts_getitem_Some _ _ _ Hname)).
  unfold bind at 1. unfold print at 1, modify at 1.
  set (st0 := with_stdout (stdout st ++ [name]) st).
  unfold _get_link_search, _get_matches. unfold bind at 1. unfold bind at 1.
  unfold get_state at 1. unfold ret at 1.
  change (friends st0) with (friends st).
  assert (Htop : (if auto_match
                  then top_match (process_extract P name (friends st) match_limit)
                         score_threshold
                  else None) = None).
  { destruct Hauto as [->| ->]; [done | by destruct auto_match]. }
  rewrite Htop. unfold bind at 1.
  destruct (print_matches_Return 0 (process_extract P name (friends st) match_limit) st0)
    as [lines ->].
  exists lines. unfold bind at 1, get_state at 1. simpl stdin. rewrite Hin. simpl.
  unfold bind at 1. unfold print at 1, modify at 1. unfold bind at 1.
  unfold modify at 1.
  assert (Hacc : accepted match_limit command = true).
  { unfold accepted. rewrite Hdig. simpl. apply andb_true_iff.
    split; [by apply Z.ltb_lt | by apply Z.leb_le]. }
  rewrite Hacc.
  destruct (String.eqb_spec command "") as [->|_]; [done|]. rewrite Hdig.
  assert (Hnth : nth_error (process_extract P name (friends st) match_limit)
                   (Z.to_nat (int command - 1)) = None).
  { apply nth_error_None. lia. }
  rewrite Hnth. unfold raise. simpl. f_equal. unfold st0. simpl.
  rewrite <- !(assoc_L (++)). done.
Qed.

End PromptIndex.

(** ** Editing *)

Section Editing.
Context {P : Providers}.
Implicit Types (st : @Sink P) (contact_url name line : string).
Implicit Types (link_contacts acc : list (string * string)).

Lemma link_contacts_from_cons c keys acc st name :
  Dict.get c (contacts st) = Some name ->
  link_contacts_from (c :: keys) acc st
  = link_contacts_from keys (Dict.set name c acc) st.
Proof.
  intros Hname. cbn [link_contacts_from].
  by rewrite (bind_Return _ _ st name st (contacts_getitem_Some _ _ _ Hname)).
Qed.

Lemma link_contacts_from_Return keys :
  forall acc st,
    Forall (fun c => Dict.mem c (contacts st) = true) keys ->
    exists link_contacts,
      link_contacts_from keys acc st = (Return link_contacts, st)
      /\ (forall name, name ∈ Dict.keys acc -> name ∈ Dict.keys link_contacts)
      /\ (forall c name, c ∈ keys -> Dict.get c (contacts st) = Some name ->
            name ∈ Dict.keys link_contacts)
      /\ (forall name, (forall c, c ∈ keys -> Dict.get c (contacts st) <> Some name) ->
            Dict.get name link_contacts = Dict.get name acc).
Proof.
  induction keys as [|c0 keys IH]; intros acc st Hall.
  - exists acc. split_and!; try done. intros c name Hc. by apply elem_of_nil in Hc.
  - apply Forall_cons in Hall as [Hc0 Hall]. unfold Dict.mem in Hc0.
    destruct (Dict.get c0 (contacts st)) as [name0|] eqn:Hname0; [|done].
    rewrite (link_contacts_from_cons _ _ _ _ _ Hname0).
    destruct (IH (Dict.set name0 c0 acc) st Hall) as (lc & -> & Hacc & Hkeys & Hnone).
    exists lc. split_and!; try done.
    + intros name Hname. apply Hacc. apply dict_mem_true.
      apply dict_mem_true in Hname. unfold Dict.mem in *.
      destruct (Dict.get name acc) eqn:E; [|done].
      destruct (dict_get_is_Some_set acc name name0 c0) as [x ->]; done.
    + intros c name [->|Hc]%elem_of_cons Hname; [|by eapply Hkeys].
      rewrite Hname0 in Hname. injection Hname as ->. apply Hacc.
      apply dict_mem_true. unfold Dict.mem. by rewrite dict_get_set_eq.
    + intros name Hno. rewrite Hnone.
      * apply dict_get_set_ne. intros ->. apply (Hno c0); [|done].
        apply elem_of_cons. by left.
      * intros c Hc. apply Hno. apply elem_of_cons. by right.
Qed.

(** X21. Of two linked contacts with one name, [_edit_links] can only edit
    the one that comes later among the links: in its table from names to
    contacts, a name leads to the last linked contact of that name. *)
Theorem edit_reaches_last_of_a_name st pre contact_url post name :
  Forall (fun c => Dict.mem c (contacts st) = true) (Dict.keys (links st)) ->
  Dict.keys (links st) = pre ++ contact_url :: post ->
  Dict.get contact_url (contacts st) = Some name ->
  (forall c, c ∈ post -> Dict.get c (contacts st) <> Some name) ->
  exists link_contacts,
    link_contacts_from (Dict.keys (links st)) [] st = (Return link_contacts, st)
    /\ Dict.get name link_contacts = Some contact_url.
Proof.
  intros Hall Hkeys Hname Hpost. rewrite Hkeys in *. clear Hkeys.
  generalize (@nil (string * string)) as acc.
  induction pre as [|c0 pre IH]; intros acc; cbn [app].
  - apply Forall_cons in Hall as [_ Hall].
    rewrite (link_contacts_from_cons _ _ _ _ _ Hname).
    destruct (link_contacts_from_Return post (Dict.set name contact_url acc) st Hall)
      as (lc & -> & _ & _ & Hnone).
    exists lc. split; [done|]. rewrite (Hnone name Hpost). apply dict_get_set_eq.
  - apply Forall_cons in Hall as [Hc0 Hall]. unfold Dict.mem in Hc0.
    destruct (Dict.get c0 (contacts st)) as [name0|] eqn:Hname0; [|done].
    rewrite (link_contacts_from_cons _ _ _ _ _ Hname0). apply (IH Hall).
Qed.

Lemma names_sort_key_Raise name e : names_sort_key (P := P) name = Raise e -> e = IndexError.
Proof.
  unfold names_sort_key. destruct (first_char name) as [[c0 after]|]; [|by intros [= <-]].
  destruct (first_char after) as [[c1 ?]|]; [done | by intros [= <-]].
Qed.

(** A name of fewer than two bytes has fewer than two characters. *)
Lemma names_sort_key_short name :
  String.length name < 2 -> names_sort_key (P := P) name = Raise IndexError.
Proof. destruct name as [|c0 [|c1 name]]; simpl; try done. lia. Qed.

Lemma decorate_Raise_any {A} (key : A -> outcome (string * option string)) (l : list A)
    (item : A) e :
  (forall item' e', key item' = Raise e' -> e' = e) ->
  item ∈ l -> key item = Raise e -> decorate key l = Raise e.
Proof.
  intros Hall. induction l as [|item' l IH]; intros Hin Hkey; simpl.
  - by apply elem_of_nil in Hin.
  - destruct (key item') as [k|e'] eqn:Hk; simpl.
    + apply elem_of_cons in Hin as [->|Hin]; [congruence|]. by rewrite IH.
    + by rewrite (Hall _ _ Hk).
Qed.

(** What [_edit_links] has done when its loop starts, or when the sort of
    the names raises. *)
Lemma _edit_links_intro_run st :
  NoDup (Dict.keys (links st)) ->
  exists st1 link_contacts,
    _clean_links st = (Return tt, st1)
    /\ tidy st1
    /\ link_contacts_from (Dict.keys (links st1)) [] st1 = (Return link_contacts, st1)
    /\ (forall c name, c ∈ Dict.keys (links st1) ->
          Dict.get c (contacts st1) = Some name -> name ∈ Dict.keys link_contacts)
    /\ _edit_links_intro st
       = match sorted (names_sort_key (P := P)) (Dict.keys link_contacts) with
         | Raise e => (Raise e, with_stdout (stdout st1 ++ [NL]) st1)
         | Return names =>
             (Return link_contacts,
              with_stdout
                (stdout st1 ++ NL :: map row_line
                   (zip (zip (every_third 0 names) (every_third 1 names))
                      (every_third 2 names))
                 ++ [NL +:+ EDIT_INSTRUCTIONS]) st1)
         end.
Proof.
  intros Hnd. destruct (_clean_links_tidy st Hnd) as (st1 & Hclean & Ht1 & Hc & Hf).
  destruct (link_contacts_from_Return (Dict.keys (links st1)) [] st1)
    as (lc & Hlc & _ & Hkeys & _).
  { apply Forall_forall. intros c Hc'. destruct Ht1 as [_ Hv].
    destruct (Dict.get c (links st1)) as [v|] eqn:Hget.
    - specialize (Hv c v Hget). unfold is_stale in Hv.
      apply orb_false_iff in Hv as [Hv _]. by apply negb_false_iff in Hv.
    - apply dict_get_None in Hget. contradiction. }
  exists st1, lc. split_and!; try done.
  unfold _edit_links_intro. unfold bind at 1. rewrite Hclean.
  unfold bind at 1, get_state at 1. unfold bind at 1. rewrite Hlc.
  unfold bind at 1. unfold print at 1, modify at 1.
  destruct (sorted _ _) as [names|e]; [|done].
  unfold bind at 1. unfold print_columns. rewrite print_rows_Return.
  unfold bind, print, modify, ret. simpl. f_equal.
  unfold with_stdout. simpl. f_equal. by rewrite <- !(assoc_L (++)).
Qed.

(** X22. The names shown by [_edit_links] are sorted on their first two
    characters, so a linked contact whose name has fewer than two makes the
    method raise [IndexError] before it asks anything: no line is read,
    the links are as [_clean_links] leaves them and the shelf is as it
    was. *)
Theorem edit_links_short_name st contact_url v name fuel score_threshold match_limit :
  NoDup (Dict.keys (links st)) ->
  Dict.get contact_url (fresh_links st) = Some v ->
  Dict.get contact_url (contacts st) = Some name ->
  String.length name < 2 ->
  exists st',
    _edit_links fuel score_threshold match_limit st = (Raise IndexError, st')
    /\ stdin st' = stdin st /\ links st' = fresh_links st /\ shelf st' = shelf st.
Proof.
  intros Hnd Hget Hname Hshort.
  destruct (_edit_links_intro_run st Hnd) as (st1 & lc & Hclean & Ht1 & Hlc & Hkeys & Hrun).
  destruct (_clean_links_loop_filter st (links st) [] st)
    as (st2 & Hrun2 & Hl & _ & _ & Hc & Hf & Hsh & Ho & Hi & Hca & Hw); try done.
  assert (Hclean' : _clean_links st = (Return tt, st2)).
  { unfold _clean_links. by unfold bind, get_state. }
  rewrite Hclean in Hclean'. injection Hclean' as <-. simpl in Hl.
  assert (Hin : name ∈ Dict.keys lc).
  { apply (Hkeys contact_url); [|by rewrite Hc].
    apply dict_mem_true. unfold Dict.mem. rewrite Hl.
    unfold fresh_links in Hget. by rewrite Hget. }
  assert (Hsort : sorted (names_sort_key (P := P)) (Dict.keys lc) = Raise IndexError).
  { unfold sorted.
    rewrite (decorate_Raise_any _ _ name IndexError); try done.
    - apply names_sort_key_Raise.
    - by apply names_sort_key_short. }
  rewrite Hsort in Hrun.
  exists (with_stdout (stdout st1 ++ [NL]) st1). split_and!; try done.
  unfold _edit_links. unfold bind. by rewrite Hrun.
Qed.

(** The loop of [_edit_links] on names that no linked contact has. *)
Lemma _edit_links_loop_invalid link_contacts score_threshold match_limit names :
  forall fuel st rest,
    stdin st = names ++ "" :: rest ->
    Forall (fun name => name <> "" /\ Dict.get name link_contacts = None) names ->
    length names < fuel ->
    _edit_links_loop fuel link_contacts score_threshold match_limit st
    = (Return (Some tt),
       with_stdin rest
         (with_stdout
            (stdout st
             ++ concat (map (fun _ : string => [""; "Name: "; "Invalid name"]) names)
             ++ [""; "Name: "]) st)).
Proof.
  induction names as [|name names IH]; intros fuel st rest Hin Hall Hfuel.
  - destruct fuel as [|fuel]; [simpl in Hfuel; lia|]. simpl.
    unfold bind at 1. unfold print at 1, modify at 1. unfold bind at 1.
    erewrite input_line by (simpl; exact Hin). simpl.
    unfold ret. f_equal. unfold with_stdin, with_stdout. simpl. f_equal.
    by rewrite <- !(assoc_L (++)).
  - destruct fuel as [|fuel]; [simpl in Hfuel; lia|].
    apply Forall_cons in Hall as [[Hne Hnone] Hall].
    cbn [_edit_links_loop].
    unfold bind at 1. unfold print at 1, modify at 1. unfold bind at 1.
    erewrite input_line by (simpl; exact Hin).
    destruct (String.eqb_spec name "") as [Heq|_]; [by destruct Hne|]. rewrite Hnone.
    unfold bind at 1. unfold print at 1, modify at 1.
    erewrite IH; [| simpl; reflexivity | done | simpl in Hfuel; lia].
    simpl. f_equal. unfold with_stdin, with_stdout. simpl. f_equal.
    by rewrite <- !(assoc_L (++)).
Qed.

(** X23. An [edit] in which nothing is edited writes nothing: when the
    operator types only names that no linked contact has, and then an empty
    line, [_edit_links] answers each name with "Invalid name" and returns
    with the links as [_clean_links] leaves them.  The shelf is as it was,
    so links that were dropped on the way are still on it. *)
Theorem edit_links_invalid_names st link_contacts st1 names rest fuel
    score_threshold match_limit :
  NoDup (Dict.keys (links st)) ->
  _edit_links_intro st = (Return link_contacts, st1) ->
  stdin st = names ++ "" :: rest ->
  Forall (fun name => name <> "" /\ Dict.get name link_contacts = None) names ->
  length names < fuel ->
  exists st',
    _edit_links fuel score_threshold match_limit st = (Return (Some tt), st')
    /\ stdout st'
       = stdout st1
         ++ concat (map (fun _ : string => [""; "Name: "; "Invalid name"]) names)
         ++ [""; "Name: "]
    /\ stdin st' = rest /\ links st' = fresh_links st /\ shelf st' = shelf st.
Proof.
  intros Hnd Hintro Hin Hall Hfuel.
  destruct (_edit_links_intro_run st Hnd) as (st0 & lc & Hclean & Ht0 & Hlc & Hkeys & Hrun).
  destruct (_clean_links_loop_filter st (links st) [] st)
    as (st2 & Hrun2 & Hl & _ & _ & Hc & Hf & Hsh & Ho & Hi & Hca & Hw); try done.
  assert (Hclean' : _clean_links st = (Return tt, st2)).
  { unfold _clean_links. by unfold bind, get_state. }
  rewrite Hclean in Hclean'. injection Hclean' as <-. simpl in Hl.
  rewrite Hintro in Hrun.
  destruct (sorted _ _) as [sorted_names|e]; [|done].
  injection Hrun as -> ->.
  unfold _edit_links. unfold bind. rewrite Hintro.
  erewrite _edit_links_loop_invalid; [| simpl; rewrite Hi; exact Hin | done | done].
  eexists. split; [reflexivity|]. simpl. by rewrite Hsh.
Qed.

(** [_get_link] reads lines and puts none back. *)
Lemma _get_link_stdin st contact_url score_threshold match_limit auto_match st' :
  NoDup (Dict.keys (links st)) ->
  _get_link contact_url score_threshold match_limit auto_match st = (Return tt, st') ->
  length (stdin st') <= length (stdin st).
Proof.
  intros Hnd. unfold _get_link, contacts_getitem. py_unfold.
  destruct (Dict.get contact_url (contacts st)) as [name|]; [|done].
  unfold _get_link_search, _get_matches. py_unfold. simpl.
  set (st0 := with_stdout (stdout st ++ [name]) st).
  assert (Hnd0 : NoDup (Dict.keys (links st0))) by done.
  destruct (if auto_match then top_match _ _ else None) as [f|].
  - intros Hadd. by apply _add_link_Return in Hadd as (l & line & _ & ->).
  - destruct (print_matches_Return 0 (process_extract P name (friends st) match_limit)
                st0) as [lines ->].
    intros Hrun. apply _get_link_prompt_Return in Hrun; [|done].
    destruct Hrun as (typed & last & rest & v & Hinp & -> & _). simpl in Hinp.
    rewrite Hinp, length_app. simpl. lia.
Qed.

Lemma _edit_links_loop_ends link_contacts score_threshold match_limit fuel :
  forall st o st',
    tidy st ->
    length (stdin st) < fuel ->
    _edit_links_loop fuel link_contacts score_threshold match_limit st = (o, st') ->
    o <> Return None
    /\ (o = Return (Some tt) ->
        tidy st' /\ contacts st' = contacts st /\ friends st' = friends st).
Proof.
  induction fuel as [|fuel IH]; intros st o st' Ht Hfuel; [lia|].
  cbn [_edit_links_loop].
  unfold bind at 1. unfold print at 1, modify at 1. unfold bind at 1.
  set (st0 := with_stdout (stdout st ++ [""]) st).
  destruct (stdin st) as [|line rest] eqn:Hin.
  { rewrite (input_eof st0 "Name: " Hin). by intros [= <- _]. }
  rewrite (input_line st0 "Name: " line rest Hin).
  set (st1 := with_stdin rest _).
  assert (Ht1 : tidy st1).
  { by destruct (links_grow_same st st1 eq_refl eq_refl eq_refl Ht) as [? _]. }
  destruct (String.eqb line "").
  { intros [= <- <-]. by split. }
  simpl in Hfuel.
  destruct (Dict.get line link_contacts) as [c|].
  - unfold bind at 1.
    destruct (_print_link c "Status: " st1) as [[[]|e] st2] eqn:Hprint;
      [|by intros [= <- _]].
    apply _print_link_memory in Hprint as (out & ->).
    set (st2 := with_stdout _ st1).
    assert (Ht2 : tidy st2).
    { by destruct (links_grow_same st1 st2 eq_refl eq_refl eq_refl Ht1) as [? _]. }
    unfold bind at 1.
    destruct (_get_link c score_threshold match_limit false st2) as [[[]|e] st3] eqn:Hget;
      [|by intros [= <- _]].
    pose proof (returns_in_get_link _ _ _ _ _ _ _ Hget Ht2) as (Ht3 & Hc3 & Hf3 & _).
    pose proof (_get_link_stdin _ _ _ _ _ _ (proj1 Ht2) Hget) as Hlen.
    intros Hrest. apply IH in Hrest as [Hne Hret]; [|done|simpl in Hlen; lia].
    split; [done|]. intros Ho. destruct (Hret Ho) as (? & -> & ->). by split_and!.
  - unfold bind at 1. unfold print at 1, modify at 1.
    set (st2 := with_stdout _ st1).
    assert (Ht2 : tidy st2).
    { by destruct (links_grow_same st1 st2 eq_refl eq_refl eq_refl Ht1) as [? _]. }
    intros Hrest. apply IH in Hrest as [Hne Hret]; [|done|simpl; lia].
    split; [done|]. intros Ho. destruct (Hret Ho) as (? & -> & ->). by split_and!.
Qed.

(** X24. [_edit_links] ends: each round of its loop reads at least one line,
    so with more rounds than there are lines to read the method has
    returned, after an empty line at the name prompt, or raised, [EOFError]
    at the latest.  When it returns, every link is valid and the contacts
    and friends are those it started with. *)
Theorem edit_links_ends st fuel score_threshold match_limit o st' :
  NoDup (Dict.keys (links st)) ->
  length (stdin st) < fuel ->
  _edit_links fuel score_threshold match_limit st = (o, st') ->
  (o = Return (Some tt) \/ exists e, o = Raise e)
  /\ (o = Return (Some tt) ->
      links_valid st' /\ NoDup (Dict.keys (links st'))
      /\ contacts st' = contacts st /\ friends st' = friends st).
Proof.
  intros Hnd Hfuel.
  destruct (_edit_links_intro_run st Hnd) as (st1 & lc & Hclean & Ht1 & Hlc & Hkeys & Hrun).
  destruct (_clean_links_loop_filter st (links st) [] st)
    as (st2 & Hrun2 & Hl & _ & _ & Hc & Hf & Hsh & Ho & Hi & Hca & Hw); try done.
  assert (Hclean' : _clean_links st = (Return tt, st2)).
  { unfold _clean_links. by unfold bind, get_state. }
  rewrite Hclean in Hclean'. injection Hclean' as <-.
  unfold _edit_links. unfold bind. rewrite Hrun.
  destruct (sorted _ _) as [names|e].
  - set (st3 := with_stdout _ st1). intros Hloop.
    apply _edit_links_loop_ends in Hloop as [Hne Hret].
    + split.
      * destruct o as [[[]|]|e]; [by left | done | right; by exists e].
      * intros Hsome. destruct (Hret Hsome) as ([? ?] & Hc' & Hf').
        split_and!; try done.
        -- rewrite Hc'. exact Hc.
        -- rewrite Hf'. exact Hf.
    + by destruct (links_grow_same st1 st3 eq_refl eq_refl eq_refl Ht1) as [? _].
    + simpl. by rewrite Hi.
  - intros [= <- _]. split; [right; by exists e | done].
Qed.

End Editing.

(** ** Runs of the rest of the class *)

Module MoreRuns.
Import Demo.
Local Open Scope py_scope.

Ltac nodup := apply (bool_decide_unpack _); vm_compute; exact I.

(** John is ignored. *)
Lemma update_photo_ignored_run :
  let st := sink [("c/john", None)] ∅ ∅ [] 1000 in
  _update_photo "c/john" 3 0 30 st = (Return tt, st).
Proof.
  intros st. apply (update_photo_ignored st "c/john" None 3 0 30); reflexivity.
Defined.

(** Jane was updated ten days ago. *)
Lemma update_photo_skipped_run :
  let t := (10 * DAY)%Z in
  let st := sink [("c/jane", Some "/jane")] ∅ {["c/jane" := 0%Z]} [] t in
  _update_photo "c/jane" 3 0 30 st
  = (Return tt,
     with_stdout (stdout st ++ ["SKIPPED: " +:+ "Jane Doe"])
       (with_call CallNow (snd (datetime_now providers (world st))) st)).
Proof.
  intros t st.
  apply (update_photo_skipped st "c/jane" "Jane Doe" "/jane" 0%Z 3 0 30).
  - reflexivity.
  - done.
  - reflexivity.
  - vm_compute. reflexivity.
  - vm_compute. discriminate.
  - vm_compute. split; discriminate.
  - vm_compute. discriminate.
Defined.

(** Jane for the first time: her photo goes through at once. *)
Lemma update_photo_updated_run :
  let st := sink [("c/jane", Some "/jane")] ∅ ∅ [] 1000 in
  exists st',
    _update_photo "c/jane" 3 0 30 st = (Return tt, st')
    /\ stdout st' = stdout st ++ ["UPDATED: " +:+ "Jane Doe"]
    /\ (exists before,
          calls st'
          = calls st ++ before
            ++ replicate 1 (CallUpdatePhoto "c/jane" jane_picture)
            ++ [CallNow; CallSleep 0]
          /\ forall c p, CallUpdatePhoto c p ∉ before)
    /\ checksums st' = <["c/jane" := md5_hexdigest providers jane_picture]> (checksums st)
    /\ shelf_checksums (shelf st') = Some (checksums st')
    /\ timestamps st'
       = <["c/jane" :=
             fst (datetime_now providers
                    (snd (google_update_photo providers "c/jane" jane_picture
                            (world_after_attempts (P := providers) "c/jane"
                               jane_picture 0 1000%Z))))]>
           (timestamps st)
    /\ shelf_timestamps (shelf st') = Some (timestamps st').
Proof.
  intros st.
  apply (update_photo_updated st "c/jane" "Jane Doe" "/jane" "1001" 1000%Z
           jane_picture 1000%Z 0 3 0 30).
  - split_and!; [reflexivity | done |]. exists st. by split_and!.
  - reflexivity.
  - reflexivity.
  - vm_compute. discriminate.
  - simpl. lia.
  - reflexivity.
  - split; [unfold SLEEP_MAX; lia | reflexivity].
Defined.

(** Jane again, with no attempt allowed. *)
Lemma update_photo_no_retries_run :
  let st := sink [("c/jane", Some "/jane")] ∅ ∅ [] 1000 in
  exists st',
    _update_photo "c/jane" 0 0 30 st = (Return tt, st')
    /\ stdout st' = stdout st ++ ["FAILED: " +:+ "Jane Doe"]
    /\ (exists made, calls st' = calls st ++ made
          /\ forall c p, CallUpdatePhoto c p ∉ made)
    /\ timestamps st' = <["c/jane" := fst (datetime_now providers 1000%Z)]> (timestamps st)
    /\ checksums st' = checksums st.
Proof.
  intros st.
  apply (update_photo_no_retries st "c/jane" "Jane Doe" "/jane" "1001" 1000%Z
           jane_picture 1000%Z 0 0 30).
  - split_and!; [reflexivity | done |]. exists st. by split_and!.
  - reflexivity.
  - reflexivity.
  - vm_compute. discriminate.
  - lia.
  - split; [unfold SLEEP_MAX; lia | reflexivity].
Defined.

(** Jane with a delay of minus one second. *)
Lemma update_photo_negative_delay_run :
  let st := sink [("c/jane", Some "/jane")] ∅ ∅ [] 1000 in
  exists st',
    _update_photo "c/jane" 3 (-1) 30 st
    = (Raise (if (-1 <? - SLEEP_MAX)%Z then OverflowError else ValueError), st')
    /\ (is_Some (fst (facebook_get_profile_picture providers "1001" 1000%Z)) ->
        is_Some (timestamps st' !! "c/jane")
        /\ shelf_timestamps (shelf st') = Some (timestamps st')).
Proof.
  intros st.
  apply (update_photo_negative_delay st "c/jane" "Jane Doe" "/jane" "1001" 1000%Z
           3 (-1) 30).
  - split_and!; [reflexivity | done |]. exists st. by split_and!.
  - reflexivity.
  - lia.
Defined.

Lemma jane_bookkeeping l typed t :
  is_Some (Dict.get "c/jane" l) ->
  bookkeeping_linked (sink l {["c/jane" := "2"]} {["c/jane" := 0%Z]} typed t).
Proof.
  intros Hl c [[x H]|[x H]]; simpl in *;
    apply lookup_singleton_Some in H as [<- _]; exact Hl.
Qed.

(** Jane and John, Jane with a checksum and a timestamp. *)
Lemma update_photos_bookkeeping_run :
  let st := sink [("c/jane", Some "/jane"); ("c/john", Some "/john")]
              {["c/jane" := "2"]} {["c/jane" := 0%Z]} [] 1000 in
  bookkeeping_linked (snd (_update_photos 3 0 1 st)).
Proof.
  intros st. apply (update_photos_bookkeeping 3 0 1 st).
  apply jane_bookkeeping. by eexists.
Defined.

(** Four links, two of them stale. *)
Lemma clean_links_is_a_filter_run :
  let st := sink [("c/gone", Some "/jane"); ("c/jane", Some "/unfriended");
                  ("c/john", None); ("c/zed", Some "/zed")]
              {["c/jane" := "2"]} {["c/jane" := 0%Z]} [] 1000 in
  exists st',
    _clean_links st = (Return tt, st')
    /\ links st' = fresh_links st
    /\ (forall k, checksums st' !! k
                  = if dropped st k then None else checksums st !! k)
    /\ (forall k, timestamps st' !! k
                  = if dropped st k then None else timestamps st !! k)
    /\ same_but_maps st st'.
Proof. intros st. apply (clean_links_is_a_filter st). nodup. Defined.

Lemma clean_links_leaves_no_orphans_run :
  let st := sink [("c/gone", Some "/jane"); ("c/jane", Some "/unfriended");
                  ("c/john", None); ("c/zed", Some "/zed")]
              {["c/jane" := "2"]} {["c/jane" := 0%Z]} [] 1000 in
  let st' := snd (_clean_links st) in
  links_valid st'
  /\ (bookkeeping_linked st -> bookkeeping_linked st').
Proof. intros st. apply (clean_links_leaves_no_orphans st). nodup. Defined.

(** Zed before Jane. *)
Lemma save_links_sorts_run :
  let st := sink [("c/zed", None); ("c/jane", Some "/jane")] ∅ ∅ [] 0 in
  let st' := snd (_save_links st) in
  links st' ≡ₚ links st
  /\ links_in_order st'
  /\ shelf_links (shelf st') = Some (links st')
  /\ st' = with_shelf (shelf_set_links (links st') (shelf st)) (with_links (links st') st).
Proof.
  intros st st'. apply (save_links_sorts st st'). vm_compute. reflexivity.
Defined.

Lemma save_links_idempotent_run :
  let st := sink [("c/zed", None); ("c/jane", Some "/jane")] ∅ ∅ [] 0 in
  let st' := snd (_save_links st) in
  _save_links st' = (Return tt, st').
Proof.
  intros st st'. apply (save_links_idempotent st st'). vm_compute. reflexivity.
Defined.

(** A link to a contact that is gone, between two that are there. *)
Lemma save_links_missing_contact_run :
  let st := sink [("c/jane", Some "/jane"); ("c/gone", None); ("c/zed", None)]
              ∅ ∅ [] 0 in
  _save_links st = (Raise (KeyError "c/gone"), st).
Proof.
  intros st.
  apply (save_links_missing_contact st [("c/jane", Some "/jane")] "c/gone" None
           [("c/zed", None)]).
  - reflexivity.
  - repeat constructor.
  - reflexivity.
Defined.

(** Two contacts named Ann Lee, one ignored and one linked. *)
Lemma save_links_tie_with_ignored_run :
  let st := @Build_Sink providers [("c/a1", "Ann Lee"); ("c/a2", "Ann Lee")]
              the_friends [("c/a1", None); ("c/a2", Some "/jane")] ∅ ∅ no_shelf
              [] [] [] 0%Z in
  _save_links st = (Raise TypeError, st).
Proof.
  intros st.
  apply (save_links_tie_with_ignored st "c/a1" "c/a2" "/jane" "Ann Lee" "Ann Lee").
  - repeat constructor.
  - reflexivity.
  - reflexivity.
  - reflexivity.
  - reflexivity.
  - reflexivity.
Defined.

(** Jane is linked to her friend; Zed was ignored before. *)
Lemma add_link_returns_run :
  let st := sink [("c/zed", None)] ∅ ∅ [] 0 in
  let st' := snd (_add_link "c/jane" (Some "/jane") st) in
  is_stale st "c/jane" (Some "/jane") = false
  /\ Dict.get "c/jane" (links st') = Some (Some "/jane")
  /\ (forall k, k <> "c/jane" -> Dict.get k (links st') = Dict.get k (links st))
  /\ links_in_order st'
  /\ shelf_links (shelf st') = Some (links st')
  /\ checksums st' = checksums st /\ timestamps st' = timestamps st.
Proof.
  intros st st'. apply (add_link_returns st "c/jane" (Some "/jane") st').
  - nodup.
  - vm_compute. reflexivity.
Defined.

(** The five contacts, one stale link; the operator ignores Nick. *)
Lemma update_links_decides_all_run :
  let st := sink [("c/gone", None)] ∅ ∅ [""] 0 in
  let st' := snd (_update_links false false 100 5 st) in
  links_valid st'
  /\ NoDup (Dict.keys (links st'))
  /\ contacts st' = contacts st /\ friends st' = friends st
  /\ (false = false ->
      forall contact_url,
        contact_url ∈ Dict.keys (contacts st) ->
        is_Some (Dict.get contact_url (links st'))).
Proof.
  intros st st'. apply (update_links_decides_all st false false 100 5 st').
  - nodup.
  - nodup.
  - vm_compute. reflexivity.
Defined.

(** An update of Jane and of a contact that is gone. *)
Lemma update_keeps_bookkeeping_run :
  let st := sink [("c/gone", None); ("c/jane", Some "/jane")]
              {["c/jane" := "2"]} {["c/jane" := 0%Z]} [] 1000 in
  bookkeeping_linked (snd (update false true 100 5 3 0 30 st)).
Proof.
  intros st. apply (update_keeps_bookkeeping st false true 100 5 3 0 30).
  - nodup.
  - apply jane_bookkeeping. by eexists.
Defined.

(** Four names: one row, and the fourth name is not printed. *)
Lemma print_columns_drops_the_rest_run :
  let st := sink [] ∅ ∅ [] 0 in
  print_columns (names_of_rows [("José", "Bob", "Cid")] ++ ["Dan"]) st
  = (Return tt, with_stdout (stdout st ++ map row_line [("José", "Bob", "Cid")]) st).
Proof.
  intros st.
  apply (print_columns_drops_the_rest [("José", "Bob", "Cid")] ["Dan"] st).
  simpl. lia.
Defined.

(** Two valid links and a stale one, three attempts each. *)
Lemma delete_photos_always_fails_run :
  let st := sink [("c/gone", Some "/jane"); ("c/jane", Some "/jane"); ("c/john", None)]
              ∅ ∅ [] 0 in
  exists st',
    _delete_photos (fun _ (w : World providers) => w) 3 st = (Return tt, st')
    /\ stdout st'
       = stdout st ++ "Deleting photos..."
           :: map (fun kv => "FAILURE: " +:+ default "" (Dict.get (fst kv) (contacts st)))
                (fresh_links st)
    /\ links st' = fresh_links st
    /\ shelf st' = shelf st /\ contacts st' = contacts st /\ friends st' = friends st
    /\ stdin st' = stdin st /\ calls st' = calls st.
Proof.
  intros st. apply (delete_photos_always_fails (fun _ (w : World providers) => w) 3 st).
  nodup.
Defined.

Lemma delete_with_links_run :
  let st := sink [("c/gone", Some "/jane"); ("c/jane", Some "/jane"); ("c/john", None)]
              {["c/jane" := "2"]} {["c/jane" := 0%Z]} [] 0 in
  exists st',
    sink_delete (fun _ (w : World providers) => w) true 3 st = (Return tt, st')
    /\ links st' = [] /\ shelf_links (shelf st') = Some []
    /\ shelf_checksums (shelf st') = shelf_checksums (shelf st)
    /\ shelf_timestamps (shelf st') = shelf_timestamps (shelf st)
    /\ (forall k, checksums st' !! k
                  = if dropped st k then None else checksums st !! k)
    /\ (forall k, timestamps st' !! k
                  = if dropped st k then None else timestamps st !! k).
Proof.
  intros st. apply (delete_with_links (fun _ (w : World providers) => w) 3 st).
  nodup.
Defined.

(** Five friends are listed for Nick, ten may be; the operator types 7. *)
Lemma get_link_number_beyond_matches_run :
  let st := sink [] ∅ ∅ ["7"] 0 in
  exists shown,
    _get_link "c/nick" 100 10 false st
    = (Raise IndexError,
       with_stdin [] (with_stdout (stdout st ++ "Nick Name" :: shown ++ ["> "]) st)).
Proof.
  intros st.
  apply (get_link_number_beyond_matches st "c/nick" "Nick Name" 100 10 false "7" []).
  - reflexivity.
  - by left.
  - reflexivity.
  - reflexivity.
  - vm_compute. split; [reflexivity | discriminate].
  - vm_compute. reflexivity.
Defined.

(** Two contacts named Ann Lee and one Bob Ray, all linked. *)
Lemma edit_reaches_last_of_a_name_run :
  let st := @Build_Sink providers
              [("c/a1", "Ann Lee"); ("c/a2", "Ann Lee"); ("c/b", "Bob Ray")]
              the_friends
              [("c/a1", Some "/jane"); ("c/a2", Some "/john"); ("c/b", Some "/bob")]
              ∅ ∅ no_shelf [] [] [] 0%Z in
  exists link_contacts,
    link_contacts_from (Dict.keys (links st)) [] st = (Return link_contacts, st)
    /\ Dict.get "Ann Lee" link_contacts = Some "c/a2".
Proof.
  intros st.
  apply (edit_reaches_last_of_a_name st ["c/a1"] "c/a2" ["c/b"] "Ann Lee").
  - repeat constructor.
  - reflexivity.
  - reflexivity.
  - intros c Hc. apply list_elem_of_singleton in Hc as ->. vm_compute. discriminate.
Defined.

(** A contact named X. *)
Lemma edit_links_short_name_run :
  let st := @Build_Sink providers [("c/jane", "Jane Doe"); ("c/x", "X")] the_friends
              [("c/jane", Some "/jane"); ("c/x", None)] ∅ ∅ no_shelf
              [] ["Jane Doe"; ""] [] 0%Z in
  exists st',
    _edit_links 5 100 5 st = (Raise IndexError, st')
    /\ stdin st' = stdin st /\ links st' = fresh_links st /\ shelf st' = shelf st.
Proof.
  intros st. apply (edit_links_short_name st "c/x" None "X" 5 100 5).
  - nodup.
  - vm_compute. reflexivity.
  - reflexivity.
  - simpl. lia.
Defined.

(** Three links, one of them stale; the operator types a name that no
    contact has and leaves. *)
Lemma edit_links_invalid_names_run :
  let st := sink [("c/gone", None); ("c/jane", Some "/jane"); ("c/john", None);
                  ("c/zed", Some "/zed")] ∅ ∅ ["Nobody"; ""] 0 in
  let link_contacts := [("Jane Doe", "c/jane"); ("John Roe", "c/john");
                        ("Zed Gone", "c/zed")] in
  let st1 := snd (_edit_links_intro st) in
  exists st',
    _edit_links 2 100 5 st = (Return (Some tt), st')
    /\ stdout st'
       = stdout st1
         ++ concat (map (fun _ : string => [""; "Name: "; "Invalid name"]) ["Nobody"])
         ++ [""; "Name: "]
    /\ stdin st' = [] /\ links st' = fresh_links st /\ shelf st' = shelf st.
Proof.
  intros st link_contacts st1.
  apply (edit_links_invalid_names st link_contacts st1 ["Nobody"] [] 2 100 5).
  - nodup.
  - vm_compute. reflexivity.
  - reflexivity.
  - repeat constructor. discriminate.
  - simpl. lia.
Defined.

(** The operator edits Jane, takes the second friend listed, and leaves. *)
Lemma edit_links_ends_run :
  let st := sink [("c/jane", Some "/jane"); ("c/john", None); ("c/zed", Some "/zed")]
              ∅ ∅ ["Jane Doe"; "2"; ""] 0 in
  let o := fst (_edit_links 4 100 5 st) in
  let st' := snd (_edit_links 4 100 5 st) in
  (o = Return (Some tt) \/ exists e, o = Raise e)
  /\ (o = Return (Some tt) ->
      links_valid st' /\ NoDup (Dict.keys (links st'))
      /\ contacts st' = contacts st /\ friends st' = friends st).
Proof.
  intros st o st'. apply (edit_links_ends st 4 100 5 o st').
  - nodup.
  - simpl. lia.
  - apply surjective_pairing.
Defined.

End MoreRuns.
